(** * SmartGallery: layout engines, visibility and render-set diffing

    A shallow embedding of [SmartGallery] (justified, masonry and grid layout
    engines, item ingestion, the visibility filter and the mount/unmount
    diff) together with the properties stated about it.

    Conventions of the embedding.
    - A JavaScript number is a value of [num]: an exact rational, [Infinity],
      [-Infinity] or [NaN].  The special values follow IEEE 754 as JavaScript
      exposes them; rounding of finite values and the sign of zero are not
      represented (a zero divisor counts as [+0]).
    - Arrays are lists.  A read past the end yields [undefined], which
      arithmetic turns into [NaN].  An array length is an integer below
      [2^32]; the number of arguments a call accepts is a parameter of the
      engine ([max_arguments]).  Memory is not represented.
    - A JavaScript [Set] is a duplicate-free list in insertion order.
    - A thrown exception is the [Throw] case of [result]. *)

From Stdlib Require Import List ZArith QArith Qround Qabs Bool Lia Lqa String Permutation.
Import ListNotations.

Set Implicit Arguments.

(** ** Numbers *)

Inductive num : Type :=
| Fin (q : Q)
| PInf
| NInf
| NaN.

Declare Scope num_scope.
Delimit Scope num_scope with num.
Bind Scope num_scope with num.

Definition of_Z (z : Z) : num := Fin (inject_Z z).
Definition of_nat (n : nat) : num := of_Z (Z.of_nat n).

Definition Qltb (a b : Q) : bool := negb (Qle_bool b a).
Definition Qis0 (a : Q) : bool := Qeq_bool a 0.

(** The infinity carrying the sign of a non-zero rational. *)
Definition inf_of_sign (a : Q) : num :=
  if Qltb 0 a then PInf else if Qltb a 0 then NInf else NaN.

Definition nneg (x : num) : num :=
  match x with
  | Fin a => Fin (Qred (- a))
  | PInf => NInf
  | NInf => PInf
  | NaN => NaN
  end.

Definition nadd (x y : num) : num :=
  match x, y with
  | NaN, _ | _, NaN => NaN
  | Fin a, Fin b => Fin (Qred (a + b))
  | PInf, NInf | NInf, PInf => NaN
  | PInf, _ | _, PInf => PInf
  | NInf, _ | _, NInf => NInf
  end.

Definition nsub (x y : num) : num := nadd x (nneg y).

Definition nmul (x y : num) : num :=
  match x, y with
  | NaN, _ | _, NaN => NaN
  | Fin a, Fin b => Fin (Qred (a * b))
  | Fin a, PInf | PInf, Fin a => inf_of_sign a
  | Fin a, NInf | NInf, Fin a => inf_of_sign (- a)
  | PInf, PInf | NInf, NInf => PInf
  | PInf, NInf | NInf, PInf => NInf
  end.

Definition ndiv (x y : num) : num :=
  match x, y with
  | NaN, _ | _, NaN => NaN
  | Fin a, Fin b => if Qis0 b then inf_of_sign a else Fin (Qred (a / b))
  | Fin _, _ => Fin 0
  | PInf, Fin b => if Qltb b 0 then NInf else PInf
  | NInf, Fin b => if Qltb b 0 then PInf else NInf
  | _, _ => NaN
  end.

(** [x < y]; every comparison with [NaN] is false. *)
Definition nlt (x y : num) : bool :=
  match x, y with
  | NaN, _ | _, NaN => false
  | Fin a, Fin b => Qltb a b
  | NInf, NInf | PInf, _ | _, NInf => false
  | _, _ => true
  end.

(** [x === y] on numbers; [NaN] differs from itself. *)
Definition nseq (x y : num) : bool :=
  match x, y with
  | Fin a, Fin b => Qeq_bool a b
  | PInf, PInf | NInf, NInf => true
  | _, _ => false
  end.

(** Truthiness of a number: [0] and [NaN] are falsy. *)
Definition truthy (x : num) : bool :=
  match x with
  | Fin a => negb (Qis0 a)
  | NaN => false
  | _ => true
  end.

Definition Math_abs (x : num) : num :=
  match x with
  | Fin a => Fin (Qred (Qabs a))
  | NaN => NaN
  | _ => PInf
  end.

Definition Math_floor (x : num) : num :=
  match x with
  | Fin a => of_Z (Qfloor a)
  | _ => x
  end.

Definition Math_ceil (x : num) : num :=
  match x with
  | Fin a => of_Z (Qceiling a)
  | _ => x
  end.

(** Two-argument [Math.max] and [Math.min]: [NaN] is contagious. *)
Definition Math_max (x y : num) : num :=
  match x, y with
  | NaN, _ | _, NaN => NaN
  | _, _ => if nlt x y then y else x
  end.

Definition Math_min (x y : num) : num :=
  match x, y with
  | NaN, _ | _, NaN => NaN
  | _, _ => if nlt y x then y else x
  end.

(** The values of [Math.max(...xs)] and [Math.min(...xs)] once the call has
    been accepted; on no arguments they are [-Infinity] and [Infinity]. *)
Definition Math_max_spread (xs : list num) : num := fold_left Math_max xs NInf.
Definition Math_min_spread (xs : list num) : num := fold_left Math_min xs PInf.

(** [a % b] for numbers: the remainder carries the sign of the dividend. *)
Definition nrem (x y : num) : num :=
  match x, y with
  | Fin a, Fin b =>
      if Qis0 b then NaN
      else Fin (Qred (a - b * inject_Z (Z.quot (Qnum (a / b)) (Zpos (Qden (a / b))))))
  | Fin a, (PInf | NInf) => Fin a
  | _, _ => NaN
  end.

Infix "+" := nadd : num_scope.
Infix "-" := nsub : num_scope.
Infix "*" := nmul : num_scope.
Infix "/" := ndiv : num_scope.
Infix "<?" := nlt : num_scope.
Infix "===" := nseq (at level 70) : num_scope.

(** Finite values in a given range. *)
Definition finite (x : num) : Prop := exists q, x = Fin q.
Definition positive_num (x : num) : Prop := exists q, x = Fin q /\ (0 < q)%Q.
Definition nonneg_num (x : num) : Prop := exists q, x = Fin q /\ (0 <= q)%Q.

(** ** Exceptions *)

Inductive error : Type :=
| Error (msg : string)
| TypeError (msg : string)
| RangeError (msg : string).

Inductive result (A : Type) : Type :=
| Ok (a : A)
| Throw (e : error).
Arguments Throw {A} e.

Definition bind {A B} (r : result A) (k : A -> result B) : result B :=
  match r with
  | Ok a => k a
  | Throw e => Throw e
  end.

Notation "x <- r ;; k" := (bind r (fun x => k))
  (at level 61, r at next level, right associativity).

(** ** Data model *)

(** An item as the caller passes it to [addItems]; an absent property is
    [None]. *)
Record RawItem : Type := mkRawItem {
  raw_src : string;
  raw_width : option num;
  raw_height : option num;
  raw_aspectRatio : option num
}.

(** A stored item: the caller's properties and the normalised
    [aspectRatio]. *)
Record Item : Type := mkItem {
  item_raw : RawItem;
  aspectRatio : num
}.

Inductive Columns : Type :=
| ColumnsAuto
| ColumnsNum (n : num).

Record Options : Type := mkOptions {
  layout : string;
  gap : num;
  targetRowHeight : num;
  lastRowBehavior : string;
  columnWidth : num;
  columns : Columns;
  virtualize : bool;
  buffer : num
}.

(** The options object a caller hands to the constructor: any subset of the
    recognised keys. *)
Record UserOptions : Type := mkUserOptions {
  u_layout : option string;
  u_gap : option num;
  u_targetRowHeight : option num;
  u_lastRowBehavior : option string;
  u_columnWidth : option num;
  u_columns : option Columns;
  u_virtualize : option bool;
  u_buffer : option num
}.

Record Box : Type := mkBox {
  left : num;
  top : num;
  width : num;
  height : num
}.

Record LayoutResult : Type := mkLayoutResult {
  boxes : list Box;
  containerHeight : num
}.

(** An entry of [this.geometry]: a box and the index [render] stores in it. *)
Record GeomBox : Type := mkGeomBox {
  gbox : Box;
  itemIndex : nat
}.

(** ** Sets of indices *)

Definition JSSet : Type := list nat.

Definition set_has (s : JSSet) (x : nat) : bool := existsb (Nat.eqb x) s.
Definition set_add (s : JSSet) (x : nat) : JSSet := if set_has s x then s else s ++ [x].
Definition set_delete (s : JSSet) (x : nat) : JSSet := filter (fun y => negb (Nat.eqb x y)) s.

(** ** Construction and ingestion *)

Definition default_options : Options :=
  {| layout := "justified";
     gap := of_Z 10;
     targetRowHeight := of_Z 300;
     lastRowBehavior := "left";
     columnWidth := of_Z 300;
     columns := ColumnsAuto;
     virtualize := true;
     buffer := of_Z 500 |}.

Definition or_default {A} (o : option A) (d : A) : A :=
  match o with Some a => a | None => d end.

(** [Object.assign(defaults, options)]: a key of [options] replaces the
    default, whatever its value. *)
Definition Object_assign (d : Options) (u : UserOptions) : Options :=
  {| layout := or_default (u_layout u) (layout d);
     gap := or_default (u_gap u) (gap d);
     targetRowHeight := or_default (u_targetRowHeight u) (targetRowHeight d);
     lastRowBehavior := or_default (u_lastRowBehavior u) (lastRowBehavior d);
     columnWidth := or_default (u_columnWidth u) (columnWidth d);
     columns := or_default (u_columns u) (columns d);
     virtualize := or_default (u_virtualize u) (virtualize d);
     buffer := or_default (u_buffer u) (buffer d) |}.

(** The gallery object.  [children] lists the boxes of the elements mounted
    in the container, in document order; [style_height] is the height
    [render] writes to the container. *)
Record Gallery : Type := mkGallery {
  options : Options;
  items : list Item;
  geometry : list GeomBox;
  renderedIndices : JSSet;
  children : list GeomBox;
  style_height : option num;
  isResizing : bool
}.

(** [new SmartGallery(container, options)]; [has_container] tells whether the
    container was found. *)
Definition constructor (has_container : bool) (u : UserOptions) : result Gallery :=
  if negb has_container then Throw (Error "SmartGallery: Container not found.")
  else Ok {| options := Object_assign default_options u;
             items := [];
             geometry := [];
             renderedIndices := [];
             children := [];
             style_height := None;
             isResizing := false |}.

(** Truthiness of a property that may be absent. *)
Definition truthy_opt (o : option num) : bool :=
  match o with Some x => truthy x | None => false end.

(** The value of a property in arithmetic: [undefined] becomes [NaN]. *)
Definition to_num (o : option num) : num := or_default o NaN.

(** The callback of [items.map] in [addItems]. *)
Definition normalize (item : RawItem) : Item :=
  let aspectRatio0 := raw_aspectRatio item in
  let aspectRatio1 :=
    if negb (truthy_opt aspectRatio0) && (truthy_opt (raw_width item) && truthy_opt (raw_height item))
    then Some (to_num (raw_width item) / to_num (raw_height item))%num
    else aspectRatio0 in
  let aspectRatio2 :=
    if negb (truthy_opt aspectRatio1) then Some (of_Z 1) else aspectRatio1 in
  {| item_raw := item; aspectRatio := to_num aspectRatio2 |}.

Definition addItems (g : Gallery) (new : list RawItem) : Gallery :=
  {| options := options g;
     items := items g ++ map normalize new;
     geometry := geometry g;
     renderedIndices := renderedIndices g;
     children := children g;
     style_height := style_height g;
     isResizing := isResizing g |}.

(** ** Loops *)

(** [for (k = start; k < start + count; k++) s = body(k, s)]. *)
Fixpoint for_range {S : Type} (k count : nat) (body : nat -> S -> S) (s : S) : S :=
  match count with
  | O => s
  | Datatypes.S c => for_range (Datatypes.S k) c body (body k s)
  end.

(** ** Justified layout *)

Section Justified.
Variable aspectRatios : list num.
Variable containerWidth : num.
Variables targetRowHeight gap : num.
Variable lastRowBehavior : string.

(** [aspectRatios[k]] in arithmetic. *)
Definition aspect (k : nat) : num := nth k aspectRatios NaN.

(** The helper [calculateRow] of the source: height and squared deviation
    of the row holding the items [startIndex..endIndex]. *)
Definition calculateRow (startIndex endIndex : nat) : num * num :=
  let totalAspect :=
    for_range startIndex (endIndex + 1 - startIndex) (fun i s => s + aspect i)%num (of_Z 0) in
  let count := (of_nat endIndex - of_nat startIndex + of_Z 1)%num in
  let totalGap := ((count - of_Z 1) * gap)%num in
  let availableWidth := (containerWidth - totalGap)%num in
  let rowHeight := (availableWidth / totalAspect)%num in
  let d := Math_abs (rowHeight - targetRowHeight) in
  (rowHeight, (d * d)%num).

(** The inner [while (j < items.length)] loop that starts a row at [i];
    [None] stands for [bestBreakIndex = -1]. *)
Fixpoint scan (fuel i j : nat) (currentAspect : num)
         (bestBreakIndex : option nat) (minScore : num) : option nat :=
  match fuel with
  | O => bestBreakIndex
  | Datatypes.S fuel' =>
      if (j <? List.length aspectRatios)%nat then
        let currentAspect := (currentAspect + aspect j)%num in
        let count := of_nat (j - i + 1) in
        let totalGap := ((count - of_Z 1) * gap)%num in
        let availableWidth := (containerWidth - totalGap)%num in
        let rowHeight := (availableWidth / currentAspect)%num in
        if (rowHeight <? targetRowHeight * Fin (1 # 2))%num then bestBreakIndex
        else
          let score := Math_abs (rowHeight - targetRowHeight) in
          if (score <? minScore)%num
          then scan fuel' i (j + 1) currentAspect (Some j) score
          else scan fuel' i (j + 1) currentAspect bestBreakIndex minScore
      else bestBreakIndex
  end.

Definition findBreak (i : nat) : option nat :=
  scan (List.length aspectRatios - i) i i (of_Z 0) None PInf.

Definition is_left_center_right (behavior : string) : bool :=
  String.eqb behavior "left" || String.eqb behavior "center" || String.eqb behavior "right".

(** The body of [for (k = i; k <= bestBreakIndex; k++)] that creates the
    boxes of a row; the state is [(left, boxes)]. *)
Definition push_box (top finalRowHeight : num) (k : nat) (s : num * list Box) : num * list Box :=
  let w := (finalRowHeight * aspect k)%num in
  (fst s + (w + gap),
   snd s ++ [ {| left := fst s; top := top; width := w; height := finalRowHeight |} ])%num.

(** The outer [while (i < items.length)] loop; the state is [i], [top] and
    [boxes]. *)
Fixpoint justified_loop (fuel i : nat) (top : num) (boxes : list Box) : LayoutResult :=
  match fuel with
  | O => {| boxes := boxes; containerHeight := top |}
  | Datatypes.S fuel' =>
      if (i <? List.length aspectRatios)%nat then
        match findBreak i with
        | Some bestBreakIndex =>
            let isLastRow := (bestBreakIndex =? List.length aspectRatios - 1)%nat in
            let finalRowItemsCount := of_nat (bestBreakIndex - i + 1) in
            let finalAspect :=
              for_range i (bestBreakIndex + 1 - i) (fun k s => s + aspect k)%num (of_Z 0) in
            let totalGap := ((finalRowItemsCount - of_Z 1) * gap)%num in
            let finalRowHeight := ((containerWidth - totalGap) / finalAspect)%num in
            if isLastRow && String.eqb lastRowBehavior "hide"
            then {| boxes := boxes; containerHeight := top |}
            else
              let reset := isLastRow && is_left_center_right lastRowBehavior in
              let finalRowHeight' := if reset then targetRowHeight else finalRowHeight in
              let usedWidth := (finalAspect * finalRowHeight' + totalGap)%num in
              let remainingSpace := (containerWidth - usedWidth)%num in
              let offsetX :=
                if reset && String.eqb lastRowBehavior "center"
                then Math_max (of_Z 0) (remainingSpace / of_Z 2)
                else if reset && String.eqb lastRowBehavior "right"
                then Math_max (of_Z 0) remainingSpace
                else of_Z 0 in
              let boxes' :=
                snd (for_range i (bestBreakIndex + 1 - i)
                       (push_box top finalRowHeight') (offsetX, boxes)) in
              justified_loop fuel' (bestBreakIndex + 1) (top + (finalRowHeight' + gap))%num boxes'
        | None =>
            let w := (targetRowHeight * aspect i)%num in
            let boxes' :=
              boxes ++ [ {| left := of_Z 0; top := top; width := w; height := targetRowHeight |} ] in
            justified_loop fuel' (i + 1) (top + (targetRowHeight + gap))%num boxes'
        end
      else {| boxes := boxes; containerHeight := top |}
  end.
End Justified.

Definition _computeJustifiedLayout (items : list Item) (containerWidth : num)
           (options : Options) : LayoutResult :=
  let aspectRatios := map aspectRatio items in
  justified_loop aspectRatios containerWidth (targetRowHeight options) (gap options)
                 (lastRowBehavior options) (List.length items) 0 (of_Z 0) [].

(** ** Masonry and grid layout *)

(** Column count and column width; the same statements open
    [_computeMasonryLayout] and [_computeGridLayout]. *)
Definition resolveColumns (containerWidth : num) (options : Options) : num * num :=
  match columns options with
  | ColumnsAuto =>
      let colW := columnWidth options in
      let colCount := Math_floor ((containerWidth + gap options) / (colW + gap options))%num in
      let colCount := Math_max (of_Z 1) colCount in
      (colCount, ((containerWidth - (colCount - of_Z 1) * gap options) / colCount)%num)
  | ColumnsNum c =>
      (c, ((containerWidth - (c - of_Z 1) * gap options) / c)%num)
  end.

(** [new Array(len).fill(v)]; a length that is not an integer of
    [0 .. 2^32 - 1] raises [RangeError]. *)
Definition new_Array_fill (len v : num) : result (list num) :=
  match len with
  | Fin q =>
      if Qeq_bool q (inject_Z (Qfloor q)) && Qle_bool 0 q
         && Qle_bool q (inject_Z (2 ^ 32 - 1))
      then Ok (repeat v (Z.to_nat (Qfloor q)))
      else Throw (RangeError "Invalid array length")
  | _ => Throw (RangeError "Invalid array length")
  end.

(** [f(...args)], a call that spreads an array into arguments.  How many
    arguments a call accepts is left to the engine: [max_arguments] is that
    number, and a call with more raises [RangeError]. *)
Definition spread_call (max_arguments : nat) (f : list num -> num) (args : list num)
  : result num :=
  if (List.length args <=? max_arguments)%nat then Ok (f args)
  else Throw (RangeError "Maximum call stack size exceeded").

(** [xs.forEach(body)] for a body that may raise, threading the variables
    the body assigns. *)
Fixpoint forEach {S A : Type} (body : S -> A -> result S) (xs : list A) (s : S) : result S :=
  match xs with
  | [] => Ok s
  | x :: xs' => s1 <- body s x ;; forEach body xs' s1
  end.

(** [xs.indexOf(v)]: the first position holding a value [=== v], or [-1]. *)
Fixpoint indexOf_from (xs : list num) (v : num) (k : Z) : Z :=
  match xs with
  | [] => (-1)%Z
  | x :: xs' => if (x === v)%num then k else indexOf_from xs' v (k + 1)%Z
  end.

Definition indexOf (xs : list num) (v : num) : Z := indexOf_from xs v 0.

Fixpoint add_at (xs : list num) (k : nat) (d : num) : list num :=
  match xs, k with
  | [], _ => []
  | x :: xs', O => (x + d)%num :: xs'
  | x :: xs', Datatypes.S k' => x :: add_at xs' k' d
  end.

(** [xs[k] += d].  For [k = -1] the assignment creates the property ["-1"],
    which neither the spread nor [indexOf] reads: the elements stay as they
    are. *)
Definition array_add_at (xs : list num) (k : Z) (d : num) : list num :=
  if (k <? 0)%Z then xs else add_at xs (Z.to_nat k) d.

(** The callback of [items.forEach(item => ...)] in the masonry engine, once
    [Math.min(...colHeights)] has been accepted. *)
Definition masonry_step (colW gap : num) (s : list num * list Box) (item : Item)
  : list num * list Box :=
  let colHeights := fst s in
  let minH := Math_min_spread colHeights in
  let colIndex := indexOf colHeights minH in
  let h := (colW / aspectRatio item)%num in
  (array_add_at colHeights colIndex (h + gap)%num,
   snd s ++ [ {| left := (of_Z colIndex * (colW + gap))%num;
                 top := minH; width := colW; height := h |} ]).

(** The callback itself: it raises when the engine refuses the spread of
    [colHeights]. *)
Definition masonry_item (max_arguments : nat) (colW gap : num) (s : list num * list Box)
           (item : Item) : result (list num * list Box) :=
  _ <- spread_call max_arguments Math_min_spread (fst s) ;;
  Ok (masonry_step colW gap s item).

Definition _computeMasonryLayout (max_arguments : nat) (items : list Item)
           (containerWidth : num) (options : Options) : result LayoutResult :=
  let '(colCount, colW) := resolveColumns containerWidth options in
  colHeights <- new_Array_fill colCount (of_Z 0) ;;
  s <- forEach (masonry_item max_arguments colW (gap options)) items (colHeights, []) ;;
  h <- spread_call max_arguments Math_max_spread (fst s) ;;
  Ok {| boxes := snd s; containerHeight := h |}.

(** The callback of [items.forEach((item, i) => ...)] in the grid engine. *)
Definition grid_box (colCount colW gap : num) (i : nat) : Box :=
  let itemH := colW in
  let colIndex := nrem (of_nat i) colCount in
  let rowIndex := Math_floor (of_nat i / colCount)%num in
  {| left := (colIndex * (colW + gap))%num;
     top := (rowIndex * (itemH + gap))%num;
     width := colW;
     height := itemH |}.

Definition _computeGridLayout (items : list Item) (containerWidth : num)
           (options : Options) : LayoutResult :=
  let '(colCount, colW) := resolveColumns containerWidth options in
  let itemH := colW in
  let boxes := map (grid_box colCount colW (gap options)) (seq 0 (List.length items)) in
  let rows := Math_ceil (of_nat (List.length items) / colCount)%num in
  {| boxes := boxes; containerHeight := (rows * (itemH + gap options) - gap options)%num |}.

(** ** Rendering and virtualization *)

(** What the gallery meets in its surroundings: [window.scrollY],
    [window.innerHeight], [container.getBoundingClientRect().top],
    [container.clientWidth], and the number of arguments the engine it runs
    on accepts in one call. *)
Record Env : Type := mkEnv {
  scrollY : num;
  innerHeight : num;
  rect_top : num;
  clientWidth : num;
  max_arguments : nat
}.

(** A call the gallery makes on the document. *)
Inductive Instr : Type :=
| Mount (b : GeomBox)
| Unmount (index : nat).

(** The gallery together with the calls made so far, oldest first. *)
Definition World : Type := (Gallery * list Instr)%type.

Definition set_rendered (g : Gallery) (r : JSSet) : Gallery :=
  {| options := options g; items := items g; geometry := geometry g;
     renderedIndices := r; children := children g;
     style_height := style_height g; isResizing := isResizing g |}.

Definition set_children (g : Gallery) (c : list GeomBox) : Gallery :=
  {| options := options g; items := items g; geometry := geometry g;
     renderedIndices := renderedIndices g; children := c;
     style_height := style_height g; isResizing := isResizing g |}.

(** The methods the class defines. *)
Definition SmartGallery_methods : list string :=
  [ "constructor"; "_init"; "addItems"; "render"; "_updateVisibleItems";
    "_mountItem"; "_unmountItem"; "_handleScroll"; "_throttle";
    "_computeJustifiedLayout"; "_computeMasonryLayout"; "_computeGridLayout";
    "destroy" ]%string.

Definition has_method (name : string) : bool :=
  existsb (String.eqb name) SmartGallery_methods.

(** [_mountItem(box)] with the default renderer: reading [box.itemIndex] of
    [undefined], or [itemData.placeholderColor] of [undefined], raises
    [TypeError]; otherwise an element for the box is appended to the
    container. *)
Definition _mountItem (box : option GeomBox) (w : World) : result World :=
  match box with
  | None => Throw (TypeError "Cannot read properties of undefined (reading 'itemIndex')")
  | Some b =>
      match nth_error (items (fst w)) (itemIndex b) with
      | None => Throw (TypeError "Cannot read properties of undefined (reading 'placeholderColor')")
      | Some _ => Ok (set_children (fst w) (children (fst w) ++ [b]), snd w ++ [Mount b])
      end
  end.

Fixpoint remove_first (index : nat) (c : list GeomBox) : list GeomBox :=
  match c with
  | [] => []
  | b :: c' => if (itemIndex b =? index)%nat then c' else b :: remove_first index c'
  end.

(** [_unmountItem(index)]: removes the first element whose id is
    [sg-item-index], if there is one. *)
Definition _unmountItem (index : nat) (w : World) : World :=
  (set_children (fst w) (remove_first index (children (fst w))), snd w ++ [Unmount index]).

(** The visible band. *)
Definition startY (e : Env) (buffer : num) : num :=
  let scrollTop := scrollY e in
  let containerTop := (rect_top e + scrollTop)%num in
  Math_max (of_Z 0) (scrollTop - containerTop - buffer)%num.

Definition endY (e : Env) (buffer : num) : num :=
  let scrollTop := scrollY e in
  let containerTop := (rect_top e + scrollTop)%num in
  (scrollTop - containerTop + innerHeight e + buffer)%num.

Definition in_band (sY eY : num) (box : GeomBox) : bool :=
  ((sY <? top (gbox box) + height (gbox box)) && (top (gbox box) <? eY))%num.

(** [indicesToRender] after the [geometry.forEach]. *)
Definition indicesToRender (e : Env) (buffer : num) (geometry : list GeomBox) : JSSet :=
  fold_left
    (fun s box => if in_band (startY e buffer) (endY e buffer) box
                  then set_add s (itemIndex box) else s)
    geometry [].

(** "Diff: Add new items". *)
Fixpoint mount_new (toRender : list nat) (w : World) : result World :=
  match toRender with
  | [] => Ok w
  | index :: rest =>
      if negb (set_has (renderedIndices (fst w)) index) then
        w1 <- _mountItem (nth_error (geometry (fst w)) index) w ;;
        mount_new rest (set_rendered (fst w1) (set_add (renderedIndices (fst w1)) index), snd w1)
      else mount_new rest w
  end.

(** "Diff: Remove old items".  [visit] is the part of [renderedIndices] the
    iteration has still to reach; deleting the entry being visited leaves it
    untouched. *)
Fixpoint unmount_old (toRender : JSSet) (visit : list nat) (w : World) : World :=
  match visit with
  | [] => w
  | index :: rest =>
      if negb (set_has toRender index) then
        let w1 := _unmountItem index w in
        unmount_old toRender rest
          (set_rendered (fst w1) (set_delete (renderedIndices (fst w1)) index), snd w1)
      else unmount_old toRender rest w
  end.

Definition diff (toRender : JSSet) (w : World) : result World :=
  w1 <- mount_new toRender w ;;
  Ok (unmount_old toRender (renderedIndices (fst w1)) w1).

Definition _updateVisibleItems (e : Env) (w : World) : result World :=
  if negb (virtualize (options (fst w))) then
    (* this._renderItems(this.geometry): the class has no such method *)
    Throw (TypeError "this._renderItems is not a function")
  else
    diff (indicesToRender e (buffer (options (fst w))) (geometry (fst w))) w.

(** [result.boxes.map((box, i) => ({ ...box, itemIndex: i }))]. *)
Definition index_boxes (bs : list Box) : list GeomBox :=
  map (fun p => {| gbox := snd p; itemIndex := fst p |}) (combine (seq 0 (List.length bs)) bs).

(** The engine [render] selects; an unknown [layout] leaves [result]
    undefined and reading [result.boxes] raises. *)
Definition computeLayout (max_arguments : nat) (items : list Item) (containerWidth : num)
           (options : Options) : result LayoutResult :=
  if String.eqb (layout options) "justified" then
    Ok (_computeJustifiedLayout items containerWidth options)
  else if String.eqb (layout options) "masonry" then
    _computeMasonryLayout max_arguments items containerWidth options
  else if String.eqb (layout options) "grid" then
    Ok (_computeGridLayout items containerWidth options)
  else Throw (TypeError "Cannot read properties of undefined (reading 'boxes')").

Definition render (e : Env) (w : World) : result World :=
  let g := fst w in
  if (List.length (items g) =? 0)%nat then Ok w
  else
    r <- computeLayout (max_arguments e) (items g) (clientWidth e) (options g) ;;
    let g1 :=
      {| options := options g; items := items g;
         geometry := index_boxes (boxes r);
         renderedIndices := []; children := [];
         style_height := Some (containerHeight r);
         isResizing := true |} in
    w2 <- _updateVisibleItems e (g1, snd w) ;;
    Ok ({| options := options (fst w2); items := items (fst w2);
           geometry := geometry (fst w2);
           renderedIndices := renderedIndices (fst w2); children := children (fst w2);
           style_height := style_height (fst w2);
           isResizing := false |}, snd w2).

(** ** Vocabulary of the properties *)

(** A configuration as the data model describes it: [gap >= 0],
    [targetRowHeight > 0], [columnWidth > 0], and [columns] either ['auto'] or
    a positive integer. *)
Definition valid_columns (c : Columns) : Prop :=
  c = ColumnsAuto \/ exists z, (0 < z)%Z /\ c = ColumnsNum (of_Z z).

Definition valid_options (o : Options) : Prop :=
  nonneg_num (gap o) /\ positive_num (targetRowHeight o) /\
  positive_num (columnWidth o) /\ valid_columns (columns o).

(** A column count the engine can work with: an array length, and not more
    than the number of arguments a call accepts. *)
Definition columns_supported (max_arguments : nat) (colCount : num) : Prop :=
  exists z, colCount = of_Z z /\ (0 <= z < 2 ^ 32)%Z /\ (z <= Z.of_nat max_arguments)%Z.



(** An item given only by its aspect ratio, and as [addItems] stores it. *)
Definition ratio_item (a : num) : RawItem :=
  {| raw_src := ""; raw_width := None; raw_height := None; raw_aspectRatio := Some a |}.

Definition item_of_ratio (a : num) : Item := normalize (ratio_item a).

(** The box of a justified row is the box of the item of ratio [a]. *)
Definition justified_box_of (a : num) (b : Box) : Prop :=
  width b = (height b * a)%num.

(** The box of a masonry column of width [colW] is the box of the item of
    ratio [a]. *)
Definition masonry_box_of (colW : num) (a : num) (b : Box) : Prop :=
  width b = colW /\ height b = (colW / a)%num.

(** The boxes one justified row contributes, from the item [k] on. *)
Fixpoint row_boxes (aspectRatios : list num) (gap top h : num) (k count : nat) (left : num)
  : list Box :=
  match count with
  | O => []
  | Datatypes.S c =>
      let w := (h * aspect aspectRatios k)%num in
      {| left := left; top := top; width := w; height := h |}
        :: row_boxes aspectRatios gap top h (Datatypes.S k) c (left + (w + gap))%num
  end.

(** The indices mounted and unmounted by a sequence of calls. *)
Definition mounted (t : list Instr) : list nat :=
  flat_map (fun c => match c with Mount b => [itemIndex b] | Unmount _ => [] end) t.

Definition unmounted (t : list Instr) : list nat :=
  flat_map (fun c => match c with Mount _ => [] | Unmount i => [i] end) t.

(** The last row is a strict partial row: laid out at the target height from
    the left edge, it ends before the right edge of the container. *)
Definition last_row_partial (aspectRatios : list num) (containerWidth targetRowHeight gap : num)
  : bool :=
  let r := justified_loop aspectRatios containerWidth targetRowHeight gap "left"
             (List.length aspectRatios) 0 (of_Z 0) [] in
  match rev (boxes r) with
  | [] => false
  | b :: _ => (left b + width b <? containerWidth)%num
  end.

(** The scenarios. *)
Definition itemsA : list Item :=
  [item_of_ratio (Fin (3 # 2)); item_of_ratio (of_Z 1); item_of_ratio (of_Z 2)].

Definition optionsA : Options := default_options.

Definition itemsB : list Item :=
  [item_of_ratio (of_Z 1); item_of_ratio (of_Z 1); item_of_ratio (of_Z 1); item_of_ratio (of_Z 1)].

Definition optionsB : Options :=
  Object_assign default_options
    {| u_layout := Some "masonry"%string; u_gap := Some (of_Z 20);
       u_targetRowHeight := None; u_lastRowBehavior := None;
       u_columnWidth := None; u_columns := Some (ColumnsNum (of_Z 2));
       u_virtualize := None; u_buffer := None |}.

(** The layout of scenario B with a given container height: four items of
    ratio 1, two columns, container width 620, gap 20; column width 300, the
    items in columns 0, 1, 0, 1 (left edges 0, 320, 0, 320) at tops 0, 0,
    320, 320; the same on every engine that accepts two arguments in a
    call. *)
Definition scenario_B_layout (h : num) : Prop :=
  snd (resolveColumns (of_Z 620) optionsB) = of_Z 300 /\
  exists r,
    (forall max_arguments, (2 <= max_arguments)%nat ->
       _computeMasonryLayout max_arguments itemsB (of_Z 620) optionsB = Ok r) /\
    map (fun b => (left b, top b)) (boxes r) =
      [ (of_Z 0, of_Z 0); (of_Z 320, of_Z 0); (of_Z 0, of_Z 320); (of_Z 320, of_Z 320) ] /\
    Forall (fun b => width b = of_Z 300 /\ height b = of_Z 300) (boxes r) /\
    containerHeight r = h.

(** A gallery built with the given options, holding the given items. *)
Definition gallery_with (u : UserOptions) (new : list RawItem) : result World :=
  g <- constructor true u ;; Ok (addItems g new, []).

Definition sized_item (w h : num) : RawItem :=
  {| raw_src := ""; raw_width := Some w; raw_height := Some h; raw_aspectRatio := None |}.

Definition env0 : Env :=
  {| scrollY := of_Z 0; innerHeight := of_Z 800; rect_top := of_Z 0; clientWidth := of_Z 900;
     max_arguments := Z.to_nat 65535 |}.

(** Scenario D: one box at top 1000 of height 200, container top 0, viewport
    height 500; the page scrolled to [scroll]. *)
Definition boxD : GeomBox :=
  {| gbox := {| left := of_Z 0; top := of_Z 1000; width := of_Z 300; height := of_Z 200 |};
     itemIndex := 0 |}.

Definition envD (scroll : Z) : Env :=
  {| scrollY := of_Z scroll; innerHeight := of_Z 500; rect_top := of_Z (- scroll);
     clientWidth := of_Z 900; max_arguments := Z.to_nat 65535 |}.

(** Every box present is the justified box of the item at its position. *)
Definition covered (ars : list num) (bs : list Box) : Prop :=
  forall m b, nth_error bs m = Some b -> justified_box_of (aspect ars m) b.

(** The box of the single-item fallback row for the item [i]. *)
Definition fallback_box (ars : list num) (T t : num) (i : nat) : Box :=
  {| left := of_Z 0; top := t; width := (T * aspect ars i)%num; height := T |}.

(** What the run under ['hide'] lacks, compared with the run under another
    behaviour: nothing, when the last item is placed by the fallback; the
    whole final row, when the search ends a row at the last item. *)
Definition hide_relation (ars : list num) (W T g : num) (i : nat) (rh rb : LayoutResult) : Prop :=
  exists rw, boxes rb = boxes rh ++ rw /\
    ((rw = [] /\ containerHeight rb = containerHeight rh /\
      ((i < List.length ars)%nat ->
       findBreak ars W T g (List.length ars - 1) = None /\
       exists bs0 t0, boxes rb = bs0 ++ [fallback_box ars T t0 (List.length ars - 1)]))
     \/
     (exists h l,
        (List.length (boxes rh) < List.length ars)%nat /\
        findBreak ars W T g (List.length (boxes rh)) = Some (List.length ars - 1)%nat /\
        rw = row_boxes ars g (containerHeight rh) h (List.length (boxes rh))
                       (List.length ars - List.length (boxes rh)) l /\
        containerHeight rb = (containerHeight rh + (h + g))%num)).

(** The options with another [lastRowBehavior]. *)
Definition with_lastRowBehavior (o : Options) (b : string) : Options :=
  {| layout := layout o; gap := gap o; targetRowHeight := targetRowHeight o;
     lastRowBehavior := b; columnWidth := columnWidth o; columns := columns o;
     virtualize := virtualize o; buffer := buffer o |}.

(** The invariant of a gallery between calls: every entry of [geometry]
    carries its own position, every entry has its item, and the rendered
    indices form a set. *)
Definition gallery_ok (g : Gallery) : Prop :=
  (forall k b, nth_error (geometry g) k = Some b -> itemIndex b = k) /\
  (List.length (geometry g) <= List.length (items g))%nat /\
  NoDup (renderedIndices g).


(** Masonry options with [2^32] columns. *)
Definition many_columns : UserOptions :=
  {| u_layout := Some "masonry"%string; u_gap := None; u_targetRowHeight := None;
     u_lastRowBehavior := None; u_columnWidth := None;
     u_columns := Some (ColumnsNum (of_Z (2 ^ 32)));
     u_virtualize := None; u_buffer := None |}.

(** A gallery of three laid-out items, at tops 0, 1000 and 2000, of which
    items 0 and 1 are rendered; and the page scrolled to 1500 with the
    container at the top of the document. *)
Definition world3 : World :=
  let b t := {| left := of_Z 0; top := of_Z t; width := of_Z 100; height := of_Z 100 |} in
  ({| options := default_options;
      items := [item_of_ratio (of_Z 1); item_of_ratio (of_Z 1); item_of_ratio (of_Z 1)];
      geometry := index_boxes [b 0%Z; b 1000%Z; b 2000%Z];
      renderedIndices := [0; 1]%nat;
      children := [ {| gbox := b 0%Z; itemIndex := 0 |}; {| gbox := b 1000%Z; itemIndex := 1 |} ];
      style_height := Some (of_Z 2110);
      isResizing := false |}, []).

Definition env1500 : Env :=
  {| scrollY := of_Z 1500; innerHeight := of_Z 800; rect_top := of_Z (-1500);
     clientWidth := of_Z 900; max_arguments := Z.to_nat 65535 |}.

(** ** Vocabulary of the further properties *)

(** The document agrees with the gallery: the mounted elements are those of
    the rendered indices, in the same order, and each element is the entry of
    [geometry] at its index. *)
Definition dom_ok (g : Gallery) : Prop :=
  map itemIndex (children g) = renderedIndices g /\
  (forall c, In c (children g) -> nth_error (geometry g) (itemIndex c) = Some c).

(** Every stored aspect ratio is truthy: neither zero nor [NaN]. *)
Definition items_ok (g : Gallery) : Prop :=
  Forall (fun it => truthy (aspectRatio it) = true) (items g).

(** The states a gallery goes through, as long as its methods return:
    construction, [addItems], [render] and [_updateVisibleItems], each in any
    surroundings. *)
Inductive reachable : World -> Prop :=
| reach_constructor (u : UserOptions) (g : Gallery) :
    constructor true u = Ok g -> reachable (g, [])
| reach_addItems (w : World) (new : list RawItem) :
    reachable w -> reachable (addItems (fst w) new, snd w)
| reach_render (e : Env) (w w' : World) :
    reachable w -> render e w = Ok w' -> reachable w'
| reach_updateVisibleItems (e : Env) (w w' : World) :
    reachable w -> _updateVisibleItems e w = Ok w' -> reachable w'.

(** The entries of [geometry] at the given indices. *)
Definition boxes_at (geometry : list GeomBox) (indices : list nat) : list GeomBox :=
  flat_map (fun i => match nth_error geometry i with Some b => [b] | None => [] end) indices.

(** A stored item seen again as an input of [addItems]: the object
    [{ ...item, aspectRatio }]. *)
Definition as_raw (it : Item) : RawItem :=
  {| raw_src := raw_src (item_raw it); raw_width := raw_width (item_raw it);
     raw_height := raw_height (item_raw it); raw_aspectRatio := Some (aspectRatio it) |}.

(** The world a full re-layout produces from the layout [r]: the geometry of
    [r], the visible indices rendered, their elements mounted. *)
Definition relayout (e : Env) (w : World) (r : LayoutResult) : World :=
  let G := index_boxes (boxes r) in
  let V := indicesToRender e (buffer (options (fst w))) G in
  ({| options := options (fst w); items := items (fst w); geometry := G;
      renderedIndices := V; children := boxes_at G V;
      style_height := Some (containerHeight r); isResizing := false |},
   snd w ++ map Mount (boxes_at G V)).

(** A gallery with the default options and one item of 800 by 600. *)
Definition world1 : World :=
  (addItems {| options := default_options; items := []; geometry := [];
               renderedIndices := []; children := []; style_height := None;
               isResizing := false |} [sized_item (of_Z 800) (of_Z 600)], []).

(** In the reading order of a justified layout, [b2] comes right after
    [b1]: in the same row, one gap to the right of it, or in a row that
    starts one gap below it. *)
Definition follows (g : num) (b1 b2 : Box) : Prop :=
  (top b2 = top b1 /\ height b2 = height b1 /\ left b2 = (left b1 + (width b1 + g))%num)
  \/ top b2 = (top b1 + (height b1 + g))%num.

Definition chained (g : num) (bs : list Box) : Prop :=
  forall k b1 b2, nth_error bs k = Some b1 -> nth_error bs (S k) = Some b2 -> follows g b1 b2.

(** The last box of a list, if there is one. *)
Definition last_box (bs : list Box) : option Box := nth_error bs (List.length bs - 1).

(** The running vertical offset [t] is one gap below the last box. *)
Definition below_last (g : num) (bs : list Box) (t : num) : Prop :=
  match last_box bs with
  | Some b => t = (top b + (height b + g))%num
  | None => True
  end.

(** The height the justified engine gives the row of the items [i..best]
    when it does not reset it: [finalRowHeight]. *)
Definition row_height (ars : list num) (W g : num) (i best : nat) : num :=
  let finalRowItemsCount := of_nat (best - i + 1) in
  let finalAspect :=
    for_range i (best + 1 - i) (fun k s => s + aspect ars k)%num (of_Z 0) in
  let totalGap := ((finalRowItemsCount - of_Z 1) * g)%num in
  ((W - totalGap) / finalAspect)%num.

(** The bottom edge of a box plus the gap below it. *)
Definition bottom (g : num) (b : Box) : num := (top b + (height b + g))%num.

(** The box stands in column [k]. *)
Definition in_column (colW g : num) (k : nat) (b : Box) : Prop :=
  left b = (of_Z (Z.of_nat k) * (colW + g))%num.

(** The [k]-th element replaced by [v]. *)
Fixpoint set_nth (qs : list Q) (k : nat) (v : Q) : list Q :=
  match qs, k with
  | [], _ => []
  | _ :: qs', O => v :: qs'
  | q :: qs', Datatypes.S k' => q :: set_nth qs' k' v
  end.

(** What holds of the column heights [qs] and the boxes [bs] during a
    masonry layout: heights are not negative; every box stands in a column,
    has the column width, a top that is not negative, and ends, gap
    included, at or above the height of its column; and of two boxes with
    the same left edge the later one starts at or below the end of the
    earlier one, gap included. *)
Definition masonry_inv (colW g : num) (qs : list Q) (bs : list Box) : Prop :=
  Forall (fun q => 0 <= q)%Q qs /\
  (forall b, In b bs ->
     exists k tq e, (k < List.length qs)%nat /\ in_column colW g k b /\ width b = colW /\
                    top b = Fin tq /\ (0 <= tq)%Q /\
                    bottom g b = Fin e /\ (e <= nth k qs 0)%Q) /\
  (forall i j b1 b2, (i < j)%nat -> nth_error bs i = Some b1 -> nth_error bs j = Some b2 ->
     left b1 = left b2 -> (top b2 <? bottom g b1)%num = false).

(** ** Throttling *)

(** The function [_throttle(func, limit)] returns, as a machine over the
    events of the event loop: a call of the returned function with its
    arguments, and the firing of the timer that [setTimeout(..., limit)]
    has scheduled.  [inThrottle] is the flag of the closure, [timers] counts
    the timers scheduled and not yet fired, [applied] lists the arguments
    [func] has been applied to, oldest first.  The duration [limit] itself
    is not represented. *)
Section Throttle.
Variable A : Type.

Record ThrottleState : Type := mkThrottleState {
  inThrottle : bool;
  timers : nat;
  applied : list A
}.

Inductive ThrottleEvent : Type :=
| Call (args : A)
| TimerFires.

(** [let inThrottle;] is [undefined], which is falsy. *)
Definition throttle_init : ThrottleState :=
  {| inThrottle := false; timers := 0; applied := [] |}.

(** One event; [None] when a timer fires that was never scheduled. *)
Definition throttle_step (s : ThrottleState) (ev : ThrottleEvent) : option ThrottleState :=
  match ev with
  | Call args =>
      if negb (inThrottle s)
      then Some {| inThrottle := true; timers := Datatypes.S (timers s);
                   applied := applied s ++ [args] |}
      else Some s
  | TimerFires =>
      match timers s with
      | O => None
      | Datatypes.S n => Some {| inThrottle := false; timers := n; applied := applied s |}
      end
  end.

Fixpoint throttle_run (s : ThrottleState) (evs : list ThrottleEvent) : option ThrottleState :=
  match evs with
  | [] => Some s
  | ev :: evs' =>
      match throttle_step s ev with
      | Some s' => throttle_run s' evs'
      | None => None
      end
  end.

Definition fires (evs : list ThrottleEvent) : nat :=
  List.length (filter (fun ev => match ev with TimerFires => true | Call _ => false end) evs).

Definition call_args (evs : list ThrottleEvent) : list A :=
  flat_map (fun ev => match ev with Call a => [a] | TimerFires => [] end) evs.
End Throttle.

Arguments TimerFires {A}.
Arguments throttle_init {A}.

(** ** The break search, read as a minimisation *)

(** The deviation of the row [i..j] from the target height, and whether the
    search stops at [j] because the row has become lower than half the
    target. *)
Definition row_score (ars : list num) (W T g : num) (i j : nat) : num :=
  Math_abs (row_height ars W g i j - T).

Definition row_too_low (ars : list num) (W T g : num) (i j : nat) : bool :=
  (row_height ars W g i j <? T * Fin (1 # 2))%num.

(** * Properties *)

(** ** Scenario A: the justified engine *)

(** C1.  For the aspect ratios [1.5, 1.0, 2.0] in a container of width 900
    with gap 10 and target row height 300 (last row to the left), the rows
    that start at item 0 and hold one, two and three items have heights 600,
    356 and 1760/9 (about 195.6); their distances to 300 are 300, 56 and
    940/9, so the search breaks after item 1.  The first row holds items 0
    and 1 at height 356 = (900 - 10) / 2.5, the second row holds item 2
    alone, reset to height 300. *)
Theorem scenario_A_justified :
  let ars := map aspectRatio itemsA in
  let W := of_Z 900 in
  let T := targetRowHeight optionsA in
  let g := gap optionsA in
  T = of_Z 300 /\ g = of_Z 10 /\ lastRowBehavior optionsA = "left"%string /\
  ars = [Fin (3 # 2); of_Z 1; of_Z 2] /\
  fst (calculateRow ars W T g 0 0) = of_Z 600 /\
  fst (calculateRow ars W T g 0 1) = of_Z 356 /\
  fst (calculateRow ars W T g 0 2) = Fin (1760 # 9) /\
  (Fin (1955 # 10) <? Fin (1760 # 9))%num = true /\
  (Fin (1760 # 9) <? Fin (1956 # 10))%num = true /\
  map (fun j => Math_abs (fst (calculateRow ars W T g 0 j) - T)) [0; 1; 2]%nat
    = [of_Z 300; of_Z 56; Fin (940 # 9)] /\
  findBreak ars W T g 0 = Some 1%nat /\
  findBreak ars W T g 2 = Some 2%nat /\
  (of_Z 356 = (of_Z 900 - of_Z 10) / Fin (5 # 2))%num /\
  _computeJustifiedLayout itemsA W optionsA =
    {| boxes :=
         [ {| left := of_Z 0; top := of_Z 0; width := of_Z 534; height := of_Z 356 |};
           {| left := of_Z 544; top := of_Z 0; width := of_Z 356; height := of_Z 356 |};
           {| left := of_Z 0; top := of_Z 366; width := of_Z 600; height := of_Z 300 |} ];
       containerHeight := of_Z 676 |}.
Proof. vm_compute. repeat split; reflexivity. Qed.

(** ** The masonry engine and the limits of the engine *)

Lemma add_at_length (xs : list num) (k : nat) (d : num) :
  List.length (add_at xs k d) = List.length xs.
Proof.
  revert k. induction xs as [|x xs IH]; intros k; [reflexivity|].
  destruct k as [|k]; cbn [add_at List.length]; [reflexivity|]. rewrite IH. reflexivity.
Qed.

(** A placement leaves the number of columns as it is. *)
Lemma masonry_step_length (colW g : num) (s : list num * list Box) (it : Item) :
  List.length (fst (masonry_step colW g s it)) = List.length (fst s).
Proof.
  unfold masonry_step, array_add_at. cbn [fst].
  destruct (_ <? 0)%Z; [reflexivity|apply add_at_length].
Qed.

Lemma masonry_fold_length (colW g : num) (items : list Item) (s : list num * list Box) :
  List.length (fst (fold_left (masonry_step colW g) items s)) = List.length (fst s).
Proof.
  revert s. induction items as [|it items IH]; intros s; [reflexivity|].
  cbn [fold_left]. rewrite IH. apply masonry_step_length.
Qed.

(** With no more columns than the engine accepts arguments, no placement
    raises. *)
Lemma forEach_masonry_item (lim : nat) (colW g : num) (items : list Item)
      (s : list num * list Box) :
  (List.length (fst s) <= lim)%nat ->
  forEach (masonry_item lim colW g) items s = Ok (fold_left (masonry_step colW g) items s).
Proof.
  revert s. induction items as [|it items IH]; intros s Hs; [reflexivity|].
  cbn [forEach fold_left]. unfold masonry_item at 1, spread_call.
  apply Nat.leb_le in Hs. rewrite Hs. cbn [bind].
  apply IH. rewrite masonry_step_length. apply Nat.leb_le. exact Hs.
Qed.

(** The masonry engine on a column count the engine can work with. *)
Lemma computeMasonryLayout_within (lim : nat) (items : list Item) (W : num) (o : Options)
      (colHeights : list num) :
  new_Array_fill (fst (resolveColumns W o)) (of_Z 0) = Ok colHeights ->
  (List.length colHeights <= lim)%nat ->
  _computeMasonryLayout lim items W o =
    let s := fold_left (masonry_step (snd (resolveColumns W o)) (gap o)) items (colHeights, []) in
    Ok {| boxes := snd s; containerHeight := Math_max_spread (fst s) |}.
Proof.
  intros Ea Hl. unfold _computeMasonryLayout.
  destruct (resolveColumns W o) as [cc cw]. cbn [fst snd] in *. rewrite Ea. cbn [bind].
  rewrite forEach_masonry_item by exact Hl. cbn [bind]. unfold spread_call.
  rewrite masonry_fold_length. cbn [fst].
  apply Nat.leb_le in Hl. rewrite Hl. reflexivity.
Qed.

(** With more columns than the engine accepts arguments the masonry engine
    raises: at the first placement, or for no item at the final maximum. *)
Lemma computeMasonryLayout_beyond (lim : nat) (items : list Item) (W : num) (o : Options)
      (colHeights : list num) :
  new_Array_fill (fst (resolveColumns W o)) (of_Z 0) = Ok colHeights ->
  (lim < List.length colHeights)%nat ->
  _computeMasonryLayout lim items W o = Throw (RangeError "Maximum call stack size exceeded").
Proof.
  intros Ea Hl. unfold _computeMasonryLayout.
  destruct (resolveColumns W o) as [cc cw]. cbn [fst snd] in *. rewrite Ea. cbn [bind].
  assert (E : (List.length colHeights <=? lim)%nat = false) by (apply Nat.leb_gt; exact Hl).
  destruct items as [|it items].
  - cbn [forEach bind fst]. unfold spread_call. rewrite E. reflexivity.
  - cbn [forEach]. unfold masonry_item at 1, spread_call. cbn [fst]. rewrite E. reflexivity.
Qed.

Lemma computeMasonryLayout_no_array (lim : nat) (items : list Item) (W : num) (o : Options)
      (e : error) :
  new_Array_fill (fst (resolveColumns W o)) (of_Z 0) = Throw e ->
  _computeMasonryLayout lim items W o = Throw e.
Proof.
  intros Ea. unfold _computeMasonryLayout.
  destruct (resolveColumns W o) as [cc cw]. cbn [fst] in Ea. rewrite Ea. reflexivity.
Qed.

(** A layout the masonry engine returns is the fold of the placements. *)
Lemma computeMasonryLayout_Ok (lim : nat) (items : list Item) (W : num) (o : Options)
      (r : LayoutResult) :
  _computeMasonryLayout lim items W o = Ok r ->
  exists colHeights,
    new_Array_fill (fst (resolveColumns W o)) (of_Z 0) = Ok colHeights /\
    (List.length colHeights <= lim)%nat /\
    r = let s := fold_left (masonry_step (snd (resolveColumns W o)) (gap o)) items
                   (colHeights, []) in
        {| boxes := snd s; containerHeight := Math_max_spread (fst s) |}.
Proof.
  intros H.
  destruct (new_Array_fill (fst (resolveColumns W o)) (of_Z 0)) as [ch|e] eqn:Ea.
  - destruct (le_lt_dec (List.length ch) lim) as [Hl|Hl].
    + rewrite (@computeMasonryLayout_within lim items W o ch Ea Hl) in H.
      exists ch. split; [reflexivity|]. split; [exact Hl|].
      cbv zeta in H. inversion H. reflexivity.
    + rewrite (@computeMasonryLayout_beyond lim items W o ch Ea Hl) in H. discriminate H.
  - rewrite (@computeMasonryLayout_no_array lim items W o e Ea) in H. discriminate H.
Qed.

(** ** Scenario B: the masonry engine *)

(** The column each item of scenario B is placed in: the first column of
    minimal height. *)
Lemma scenario_B_columns :
  let colHeights0 := [of_Z 0; of_Z 0] in
  let step s := fst (masonry_step (of_Z 300) (of_Z 20) (s, []) (item_of_ratio (of_Z 1))) in
  indexOf colHeights0 (Math_min_spread colHeights0) = 0%Z /\
  step colHeights0 = [of_Z 320; of_Z 0] /\
  indexOf (step colHeights0) (Math_min_spread (step colHeights0)) = 1%Z /\
  step (step colHeights0) = [of_Z 320; of_Z 320] /\
  indexOf (step (step colHeights0)) (Math_min_spread (step (step colHeights0))) = 0%Z /\
  step (step (step colHeights0)) = [of_Z 640; of_Z 320] /\
  step (step (step (step colHeights0))) = [of_Z 640; of_Z 640].
Proof. vm_compute. repeat split; reflexivity. Qed.

(** C3, as amended.  In scenario B the column width is 300; items 0 and 1
    open columns 0 and 1 at top 0, item 2 goes to column 0 (the first of the
    two equal columns) at top 320, item 3 to column 1 at top 320; the
    container height is the largest column height, 640, the gap below the
    last box included. *)
Theorem scenario_B_masonry : scenario_B_layout (of_Z 640).
Proof.
  split; [reflexivity|].
  eexists. split.
  { intros lim Hlim.
    rewrite (@computeMasonryLayout_within lim itemsB (of_Z 620) optionsB [of_Z 0; of_Z 0]);
      [vm_compute; reflexivity | reflexivity | exact Hlim]. }
  split; [reflexivity|]. split; [|reflexivity].
  repeat constructor.
Qed.

(** C3, as stated, fails: the container height of scenario B is not 620. *)
Lemma scenario_B_height_is_not_620 : ~ scenario_B_layout (of_Z 620).
Proof.
  intros [_ [r [Hr [_ [_ Hh]]]]]. specialize (Hr 2%nat (le_n 2)).
  vm_compute in Hr. inversion Hr; subst r. vm_compute in Hh. discriminate Hh.
Qed.

(** ** Rational comparisons *)

Lemma Qltb_true (a b : Q) : Qltb a b = true <-> (a < b)%Q.
Proof.
  unfold Qltb. rewrite negb_true_iff. split; intros H.
  - apply Qnot_le_lt. intros Hle. apply Qle_bool_iff in Hle. congruence.
  - destruct (Qle_bool b a) eqn:E; [|reflexivity].
    apply Qle_bool_iff in E. exfalso. exact (Qlt_not_le _ _ H E).
Qed.

Lemma Qltb_false (a b : Q) : Qltb a b = false <-> (b <= a)%Q.
Proof.
  unfold Qltb. rewrite negb_false_iff. apply Qle_bool_iff.
Qed.

Lemma Qis0_false (a : Q) : ~ (a == 0)%Q -> Qis0 a = false.
Proof.
  intros H. unfold Qis0. destruct (Qeq_bool a 0) eqn:E; [|reflexivity].
  apply Qeq_bool_iff in E. contradiction.
Qed.

Lemma Qis0_true (a : Q) : Qis0 a = true -> (a == 0)%Q.
Proof. unfold Qis0. apply Qeq_bool_iff. Qed.

(** ** Rendering without virtualization *)

Lemma no_renderItems_method : has_method "_renderItems" = false.
Proof. reflexivity. Qed.

Lemma updateVisibleItems_not_virtualized (e : Env) (w : World) :
  virtualize (options (fst w)) = false ->
  _updateVisibleItems e w = Throw (TypeError "this._renderItems is not a function").
Proof. intros H. unfold _updateVisibleItems. rewrite H. reflexivity. Qed.

(** C4.  A gallery created with [virtualize: false] and holding one item:
    [render] lays the item out and then calls [this._renderItems], a method
    the class does not define; the call raises [TypeError] and nothing is
    rendered. *)
Theorem render_without_virtualization_throws :
  let u := {| u_layout := None; u_gap := None; u_targetRowHeight := None;
              u_lastRowBehavior := None; u_columnWidth := None; u_columns := None;
              u_virtualize := Some false; u_buffer := None |} in
  exists w,
    gallery_with u [sized_item (of_Z 800) (of_Z 600)] = Ok w /\
    virtualize (options (fst w)) = false /\
    has_method "_renderItems" = false /\
    render env0 w = Throw (TypeError "this._renderItems is not a function") /\
    _updateVisibleItems env0 w = Throw (TypeError "this._renderItems is not a function").
Proof. eexists. repeat split. Qed.

(** ** Configuration values are not checked *)


(** ** Ingestion *)

(** C7, as stated, fails: a supplied aspect ratio of -2 is stored as -2. *)
Lemma negative_aspectRatio_is_kept :
  aspectRatio (normalize (ratio_item (of_Z (-2)))) = of_Z (-2) /\
  (of_Z 0 <? aspectRatio (normalize (ratio_item (of_Z (-2)))))%num = false /\
  aspectRatio (normalize (ratio_item (of_Z (-2)))) <> of_Z 1.
Proof. repeat split. discriminate. Qed.

Lemma ndiv_pos (x y : Q) : (0 < x)%Q -> (0 < y)%Q -> (of_Z 0 <? Fin x / Fin y)%num = true.
Proof.
  intros Hx Hy. cbn [ndiv].
  rewrite Qis0_false by (intros E; rewrite E in Hy; exact (Qlt_irrefl _ Hy)).
  cbn [nlt of_Z]. apply Qltb_true. rewrite Qred_correct.
  apply Qlt_shift_div_l; [exact Hy|]. rewrite Qmult_0_l. exact Hx.
Qed.

Lemma normalize_cases (item : RawItem) :
  aspectRatio (normalize item) =
    if truthy_opt (raw_aspectRatio item) then to_num (raw_aspectRatio item)
    else if truthy_opt (raw_width item) && truthy_opt (raw_height item)
            && truthy (to_num (raw_width item) / to_num (raw_height item))%num
         then (to_num (raw_width item) / to_num (raw_height item))%num
         else of_Z 1.
Proof.
  destruct item as [s w h ar]. unfold normalize.
  cbn [raw_aspectRatio raw_width raw_height aspectRatio].
  destruct (truthy_opt ar) eqn:Ear; cbn [negb andb].
  - rewrite Ear. reflexivity.
  - destruct (truthy_opt w && truthy_opt h) eqn:Ewh; cbn [andb truthy_opt].
    + destruct (truthy (to_num w / to_num h)%num); reflexivity.
    + rewrite Ear. reflexivity.
Qed.

Lemma pos_truthy (r : num) : (of_Z 0 <? r)%num = true -> truthy r = true.
Proof.
  destruct r as [q| | |]; cbn; try reflexivity; try discriminate.
  intros H. apply Qltb_true in H. rewrite Qis0_false; [reflexivity|].
  intros E. rewrite E in H. exact (Qlt_irrefl _ H).
Qed.

(** C7, as amended.  [addItems] appends the normalised items.  The stored
    aspect ratio is never zero and never [NaN]; a supplied ratio that is
    neither zero nor [NaN] is stored as it is, negative or not; otherwise the
    ratio is [width / height] when both are present and non-zero and their
    quotient is neither zero nor [NaN], and 1 in every other case.  The
    stored ratio is positive when the supplied ratio is, and when no ratio is
    supplied and width and height are positive. *)
Theorem normalize_spec (item : RawItem) :
  let a := aspectRatio (normalize item) in
  let q := (to_num (raw_width item) / to_num (raw_height item))%num in
  let sized := truthy_opt (raw_width item) && truthy_opt (raw_height item) in
  (forall g new, items (addItems g new) = items g ++ map normalize new) /\
  truthy a = true /\
  (truthy_opt (raw_aspectRatio item) = true -> raw_aspectRatio item = Some a) /\
  (truthy_opt (raw_aspectRatio item) = false -> sized && truthy q = true -> a = q) /\
  (truthy_opt (raw_aspectRatio item) = false -> sized && truthy q = false -> a = of_Z 1) /\
  (forall r, raw_aspectRatio item = Some r -> (of_Z 0 <? r)%num = true -> a = r) /\
  (forall x y, raw_aspectRatio item = None ->
     raw_width item = Some (Fin x) -> raw_height item = Some (Fin y) ->
     (0 < x)%Q -> (0 < y)%Q -> (of_Z 0 <? a)%num = true).
Proof.
  cbv zeta. pose proof (normalize_cases item) as Hc.
  split; [reflexivity|].
  destruct (truthy_opt (raw_aspectRatio item)) eqn:Ear.
  - destruct (raw_aspectRatio item) as [r|] eqn:Er; [|discriminate Ear].
    cbn [to_num or_default] in Hc. rewrite Hc.
    split; [exact Ear|]. split; [reflexivity|].
    split; [discriminate|]. split; [discriminate|].
    split; [intros r0 Hr _; congruence | intros x y Hr; discriminate Hr].
  - split.
    { rewrite Hc.
      destruct (truthy_opt (raw_width item) && truthy_opt (raw_height item)
                && truthy (to_num (raw_width item) / to_num (raw_height item))%num) eqn:E.
      - apply andb_true_iff in E. exact (proj2 E).
      - reflexivity. }
    split; [discriminate|].
    split; [intros _ E; rewrite E in Hc; exact Hc|].
    split; [intros _ E; rewrite E in Hc; exact Hc|].
    split.
    + intros r Hr Hpos. rewrite Hr in Ear. cbn [truthy_opt] in Ear.
      rewrite (pos_truthy _ Hpos) in Ear. discriminate Ear.
    + intros x y _ Hw Hh Hx Hy. rewrite Hw, Hh in Hc.
      cbn [to_num or_default truthy_opt] in Hc.
      pose proof (ndiv_pos Hx Hy) as Hp.
      rewrite (pos_truthy _ Hp) in Hc.
      assert (Hx' : truthy (Fin x) = true) by (apply pos_truthy, Qltb_true; exact Hx).
      assert (Hy' : truthy (Fin y) = true) by (apply pos_truthy, Qltb_true; exact Hy).
      rewrite Hx', Hy' in Hc. cbn [andb] in Hc. rewrite Hc. exact Hp.
Qed.

(** ** Sets of indices *)

Lemma set_has_In (s : JSSet) (x : nat) : set_has s x = true <-> In x s.
Proof.
  unfold set_has. rewrite existsb_exists. split.
  - intros [y [Hy E]]. apply Nat.eqb_eq in E. subst y. exact Hy.
  - intros H. exists x. split; [exact H | apply Nat.eqb_refl].
Qed.

Lemma set_has_not_In (s : JSSet) (x : nat) : set_has s x = false <-> ~ In x s.
Proof.
  rewrite <- set_has_In. destruct (set_has s x); split; congruence.
Qed.

Lemma set_add_In (s : JSSet) (x y : nat) : In y (set_add s x) <-> In y s \/ y = x.
Proof.
  unfold set_add. destruct (set_has s x) eqn:E.
  - apply set_has_In in E. split; [auto|]. intros [H|H]; [exact H | subst; exact E].
  - rewrite in_app_iff. simpl. intuition.
Qed.

Lemma set_add_NoDup (s : JSSet) (x : nat) : NoDup s -> NoDup (set_add s x).
Proof.
  intros H. unfold set_add. destruct (set_has s x) eqn:E; [exact H|].
  apply set_has_not_In in E.
  apply NoDup_app; [exact H | constructor; [intros []|constructor] |].
  intros a Ha [Hx|[]]. subst a. exact (E Ha).
Qed.

Lemma set_delete_In (s : JSSet) (x y : nat) : In y (set_delete s x) <-> In y s /\ y <> x.
Proof.
  unfold set_delete. rewrite filter_In, negb_true_iff, Nat.eqb_neq. intuition.
Qed.

Lemma set_delete_NoDup (s : JSSet) (x : nat) : NoDup s -> NoDup (set_delete s x).
Proof. apply NoDup_filter. Qed.

(** ** Visibility *)

Lemma indicesToRender_fold (sY eY : num) (geometry : list GeomBox) (acc : JSSet) (index : nat) :
  In index (fold_left (fun s box => if in_band sY eY box then set_add s (itemIndex box) else s)
                      geometry acc)
  <-> In index acc \/
      exists box, In box geometry /\ itemIndex box = index /\ in_band sY eY box = true.
Proof.
  revert acc. induction geometry as [|b geometry IH]; intros acc; simpl.
  - split; [auto|]. intros [H|[box [[] _]]]. exact H.
  - rewrite IH. destruct (in_band sY eY b) eqn:E.
    + rewrite set_add_In. split.
      * intros [[H|H]|[box [Hin Hb]]]; [auto| |].
        -- right. exists b. auto.
        -- right. exists box. auto.
      * intros [H|[box [[Hin|Hin] [Hi Hb]]]]; [auto| |].
        -- subst box. left. right. auto.
        -- right. exists box. auto.
    + split.
      * intros [H|[box [Hin Hb]]]; [auto|]. right. exists box. auto.
      * intros [H|[box [[Hin|Hin] [Hi Hb]]]]; [auto| |].
        -- subst box. congruence.
        -- right. exists box. auto.
Qed.

Lemma indicesToRender_NoDup (e : Env) (buffer : num) (geometry : list GeomBox) :
  NoDup (indicesToRender e buffer geometry).
Proof.
  unfold indicesToRender.
  assert (H : forall acc, NoDup acc ->
            NoDup (fold_left (fun s box => if in_band (startY e buffer) (endY e buffer) box
                                           then set_add s (itemIndex box) else s) geometry acc)).
  { induction geometry as [|b geometry IH]; intros acc Hacc; simpl; [exact Hacc|].
    apply IH. destruct (in_band _ _ b); [apply set_add_NoDup|]; exact Hacc. }
  apply H. constructor.
Qed.

(** C8.  The visible band is
    [[max(0, scroll - containerTop - buffer), scroll - containerTop + viewportHeight + buffer]],
    where [containerTop] is the top of the container in the document.  An
    index is returned exactly when a box carrying it has
    [top + height > startY] and [top < endY], both strict.  With buffer 50
    and container top 0, the box at top 1000 of height 200 is returned for
    scroll 900 and viewport height 500 (band [850, 1450]) and is not returned
    for scroll 1300 (band [1250, 1850]). *)
Theorem visible_band_spec :
  (forall (e : Env) (buffer : num) (geometry : list GeomBox) (index : nat),
     let scroll := scrollY e in
     let containerTop := (rect_top e + scrollY e)%num in
     let sY := Math_max (of_Z 0) (scroll - containerTop - buffer)%num in
     let eY := (scroll - containerTop + innerHeight e + buffer)%num in
     startY e buffer = sY /\ endY e buffer = eY /\
     (In index (indicesToRender e buffer geometry) <->
      exists box, In box geometry /\ itemIndex box = index /\
        (sY <? top (gbox box) + height (gbox box))%num = true /\
        (top (gbox box) <? eY)%num = true)) /\
  (rect_top (envD 900) + scrollY (envD 900))%num = of_Z 0 /\
  startY (envD 900) (of_Z 50) = of_Z 850 /\ endY (envD 900) (of_Z 50) = of_Z 1450 /\
  indicesToRender (envD 900) (of_Z 50) [boxD] = [0%nat] /\
  (rect_top (envD 1300) + scrollY (envD 1300))%num = of_Z 0 /\
  startY (envD 1300) (of_Z 50) = of_Z 1250 /\ endY (envD 1300) (of_Z 50) = of_Z 1850 /\
  indicesToRender (envD 1300) (of_Z 50) [boxD] = [].
Proof.
  split.
  - intros e buffer geometry index. cbv zeta.
    split; [reflexivity|]. split; [reflexivity|].
    unfold indicesToRender. rewrite indicesToRender_fold.
    split.
    + intros [[]|[box [Hin [Hi Hb]]]]. exists box.
      unfold in_band in Hb. apply andb_true_iff in Hb. tauto.
    + intros [box [Hin [Hi [H1 H2]]]]. right. exists box.
      unfold in_band. split; [exact Hin|]. split; [exact Hi|].
      apply andb_true_iff. split; assumption.
  - vm_compute. repeat split; reflexivity.
Qed.

(** The comparisons are strict: a box that ends exactly at [startY], or
    starts exactly at [endY], is outside the band. *)
Lemma band_edges_excluded :
  in_band (of_Z 850) (of_Z 1450)
    {| gbox := {| left := of_Z 0; top := of_Z 650; width := of_Z 1; height := of_Z 200 |};
       itemIndex := 0 |} = false /\
  in_band (of_Z 850) (of_Z 1450)
    {| gbox := {| left := of_Z 0; top := of_Z 1450; width := of_Z 1; height := of_Z 200 |};
       itemIndex := 0 |} = false.
Proof. split; reflexivity. Qed.

(** ** Column resolution *)

Lemma Math_max_1_int (z : Z) :
  exists z', (1 <= z')%Z /\ Math_max (of_Z 1) (of_Z z) = of_Z z'.
Proof.
  unfold Math_max, of_Z. cbn [nlt].
  destruct (Qltb (inject_Z 1) (inject_Z z)) eqn:E.
  - apply Qltb_true in E. rewrite <- Zlt_Qlt in E. exists z. split; [lia|reflexivity].
  - exists 1%Z. split; [lia|reflexivity].
Qed.

Lemma resolveColumns_valid (W : num) (o : Options) :
  valid_options o -> finite W ->
  exists z colW, (1 <= z)%Z /\ resolveColumns W o = (of_Z z, colW).
Proof.
  intros [[g [Hg Hg0]] [_ [[c [Hc Hc0]] Hcols]]] [w Hw].
  unfold resolveColumns. destruct Hcols as [Hauto | [z [Hz Hnum]]].
  - rewrite Hauto, Hg, Hc, Hw. cbn [nadd ndiv].
    rewrite Qis0_false.
    + cbn [Math_floor].
      destruct (Math_max_1_int (Qfloor (Qred (Qred (w + g) / Qred (c + g))))) as [z' [Hz' E]].
      rewrite E. exists z'. eexists. split; [exact Hz'|reflexivity].
    + rewrite Qred_correct. intros E.
      assert (H : (0 < c + g)%Q).
      { apply Qlt_le_trans with (c + 0)%Q.
        - rewrite Qplus_0_r. exact Hc0.
        - apply Qplus_le_r. exact Hg0. }
      rewrite E in H. exact (Qlt_irrefl _ H).
  - rewrite Hnum. exists z. eexists. split; [lia|reflexivity].
Qed.

Lemma new_Array_fill_int (z : Z) (v : num) :
  (0 <= z < 2 ^ 32)%Z -> new_Array_fill (of_Z z) v = Ok (repeat v (Z.to_nat z)).
Proof.
  intros Hz. unfold new_Array_fill, of_Z. rewrite Qfloor_Z.
  assert (E1 : Qeq_bool (inject_Z z) (inject_Z z) = true) by (apply Qeq_bool_iff; reflexivity).
  assert (E2 : Qle_bool 0 (inject_Z z) = true).
  { apply Qle_bool_iff. change 0%Q with (inject_Z 0). rewrite <- Zle_Qle. lia. }
  assert (E3 : Qle_bool (inject_Z z) (inject_Z (2 ^ 32 - 1)) = true).
  { apply Qle_bool_iff. rewrite <- Zle_Qle. lia. }
  rewrite E1, E2, E3. reflexivity.
Qed.

Lemma new_Array_fill_large (z : Z) (v : num) :
  (2 ^ 32 <= z)%Z -> new_Array_fill (of_Z z) v = Throw (RangeError "Invalid array length").
Proof.
  intros Hz. unfold new_Array_fill, of_Z.
  destruct (Qle_bool (inject_Z z) (inject_Z (2 ^ 32 - 1))) eqn:E3.
  - apply Qle_bool_iff in E3. rewrite <- Zle_Qle in E3. lia.
  - rewrite andb_false_r. reflexivity.
Qed.

(** The masonry engine under a valid configuration: it returns the fold of
    the placements when the column count is one the engine can work with,
    and raises [RangeError] otherwise. *)
Lemma computeMasonryLayout_supported (lim : nat) (items : list Item) (W : num) (o : Options)
      (z : Z) :
  fst (resolveColumns W o) = of_Z z -> (0 <= z < 2 ^ 32)%Z -> (z <= Z.of_nat lim)%Z ->
  _computeMasonryLayout lim items W o =
    let s := fold_left (masonry_step (snd (resolveColumns W o)) (gap o)) items
               (repeat (of_Z 0) (Z.to_nat z), []) in
    Ok {| boxes := snd s; containerHeight := Math_max_spread (fst s) |}.
Proof.
  intros E Hz Hl. apply computeMasonryLayout_within.
  - rewrite E. apply new_Array_fill_int. exact Hz.
  - rewrite repeat_length. lia.
Qed.

Lemma computeMasonryLayout_unsupported (lim : nat) (items : list Item) (W : num) (o : Options)
      (z : Z) :
  fst (resolveColumns W o) = of_Z z -> (0 <= z)%Z ->
  (2 ^ 32 <= z \/ Z.of_nat lim < z)%Z ->
  exists msg, _computeMasonryLayout lim items W o = Throw (RangeError msg).
Proof.
  intros E Hz Hl. destruct (Z_lt_le_dec z (2 ^ 32)) as [Hs|Hb].
  - eexists. apply computeMasonryLayout_beyond with (colHeights := repeat (of_Z 0) (Z.to_nat z)).
    + rewrite E. apply new_Array_fill_int. lia.
    + rewrite repeat_length. lia.
  - eexists. apply computeMasonryLayout_no_array. rewrite E. apply new_Array_fill_large. exact Hb.
Qed.


(** ** Empty input *)


(** ** The justified engine: rows *)

Section JustifiedRows.
Variable ars : list num.
Variables W T g : num.

(** A break found from [j] on lies between [j] and the last item. *)
Lemma scan_bounds (fuel i j : nat) (ca : num) (best : option nat) (ms : num) (b : nat) :
  scan ars W T g fuel i j ca best ms = Some b ->
  best = Some b \/ (j <= b < List.length ars)%nat.
Proof.
  revert j ca best ms. induction fuel as [|fuel IH]; intros j ca best ms H; simpl in H.
  - left. exact H.
  - destruct (j <? List.length ars)%nat eqn:Ej; [|left; exact H].
    apply Nat.ltb_lt in Ej.
    destruct (nlt _ (T * Fin (1 # 2))%num); [left; exact H|].
    destruct (nlt _ ms).
    + apply IH in H. destruct H as [H|H]; [right; inversion H; lia | right; lia].
    + apply IH in H. destruct H as [H|H]; [left; exact H | right; lia].
Qed.

(** The variant of the inner loop: fuel beyond the items left changes
    nothing. *)
Lemma scan_fuel (fuel fuel' i j : nat) (ca : num) (best : option nat) (ms : num) :
  (List.length ars - j <= fuel)%nat -> (List.length ars - j <= fuel')%nat ->
  scan ars W T g fuel i j ca best ms = scan ars W T g fuel' i j ca best ms.
Proof.
  revert fuel' j ca best ms.
  induction fuel as [|fuel IH]; intros fuel' j ca best ms Hf Hf'.
  - destruct fuel'; cbn [scan]; [reflexivity|].
    replace (j <? List.length ars)%nat with false; [reflexivity|].
    symmetry. apply Nat.ltb_ge. lia.
  - destruct fuel' as [|fuel']; cbn [scan].
    + replace (j <? List.length ars)%nat with false; [reflexivity|].
      symmetry. apply Nat.ltb_ge. lia.
    + destruct (j <? List.length ars)%nat eqn:Ej; [|reflexivity].
      apply Nat.ltb_lt in Ej.
      destruct (nlt _ (T * Fin (1 # 2))%num); [reflexivity|].
      destruct (nlt _ ms); apply IH; lia.
Qed.

Lemma findBreak_bounds (i b : nat) :
  findBreak ars W T g i = Some b -> (i <= b < List.length ars)%nat.
Proof.
  unfold findBreak. intros H. apply scan_bounds in H. destruct H as [H|H]; [discriminate|exact H].
Qed.

(** The row loop appends [row_boxes]. *)
Lemma for_range_push_box (t h : num) (c k : nat) (l : num) (bs : list Box) :
  snd (for_range k c (push_box ars g t h) (l, bs)) = bs ++ row_boxes ars g t h k c l.
Proof.
  revert k l bs. induction c as [|c IH]; intros k l bs; cbn [for_range row_boxes].
  - rewrite app_nil_r. reflexivity.
  - unfold push_box at 2. cbn [fst snd]. rewrite IH, <- app_assoc. reflexivity.
Qed.

Lemma row_boxes_length (t h : num) (c k : nat) (l : num) :
  List.length (row_boxes ars g t h k c l) = c.
Proof.
  revert k l. induction c as [|c IH]; intros k l; cbn [row_boxes List.length]; [reflexivity|].
  rewrite IH. reflexivity.
Qed.

Lemma row_boxes_nth (t h : num) (c k : nat) (l : num) (m : nat) (b : Box) :
  nth_error (row_boxes ars g t h k c l) m = Some b ->
  top b = t /\ height b = h /\ width b = (h * aspect ars (k + m))%num.
Proof.
  revert k l m. induction c as [|c IH]; intros k l m H; cbn [row_boxes] in H.
  - destruct m; discriminate H.
  - destruct m as [|m]; cbn [nth_error] in H.
    + inversion H; subst b. cbn. rewrite Nat.add_0_r. auto.
    + apply IH in H. replace (k + S m)%nat with (S k + m)%nat by lia. exact H.
Qed.

Lemma covered_app (bs rw : list Box) :
  covered ars bs ->
  (forall m b, nth_error rw m = Some b -> justified_box_of (aspect ars (List.length bs + m)) b) ->
  covered ars (bs ++ rw).
Proof.
  intros Hbs Hrw m b H. destruct (Nat.lt_ge_cases m (List.length bs)) as [Hm|Hm].
  - rewrite nth_error_app1 in H by exact Hm. exact (Hbs _ _ H).
  - rewrite nth_error_app2 in H by exact Hm. apply Hrw in H.
    replace (List.length bs + (m - List.length bs))%nat with m in H by lia. exact H.
Qed.

Lemma covered_row (bs : list Box) (t h : num) (c : nat) (l : num) :
  covered ars bs -> covered ars (bs ++ row_boxes ars g t h (List.length bs) c l).
Proof.
  intros Hbs. apply covered_app; [exact Hbs|].
  intros m b H. apply row_boxes_nth in H. destruct H as [_ [Hh Hw]].
  unfold justified_box_of. rewrite Hw, Hh. reflexivity.
Qed.

(** With a last-row behaviour other than ['hide'], a run of the outer loop
    that starts with the boxes of the first [i] items ends with the boxes of
    all items. *)
Lemma justified_loop_covers (behavior : string) (fuel i : nat) (t : num) (bs : list Box) :
  String.eqb behavior "hide" = false ->
  (List.length ars - i <= fuel)%nat -> (i <= List.length ars)%nat ->
  List.length bs = i -> covered ars bs ->
  let r := justified_loop ars W T g behavior fuel i t bs in
  List.length (boxes r) = List.length ars /\ covered ars (boxes r).
Proof.
  intros Hb. revert i t bs.
  induction fuel as [|fuel IH]; intros i t bs Hf Hi Hl Hc; cbn [justified_loop].
  - cbn. split; [lia | exact Hc].
  - destruct (i <? List.length ars)%nat eqn:Ei.
    2:{ apply Nat.ltb_ge in Ei. cbn. split; [lia | exact Hc]. }
    apply Nat.ltb_lt in Ei.
    destruct (findBreak ars W T g i) as [best|] eqn:Eb.
    + apply findBreak_bounds in Eb. rewrite Hb, andb_false_r.
      rewrite for_range_push_box.
      apply IH.
      * lia.
      * lia.
      * rewrite length_app, row_boxes_length. lia.
      * rewrite <- Hl. apply covered_row. exact Hc.
    + apply IH.
      * lia.
      * lia.
      * rewrite length_app. cbn. lia.
      * apply covered_app; [exact Hc|].
        intros m b H. destruct m as [|[|m]]; cbn in H; try discriminate.
        inversion H; subst b. unfold justified_box_of. cbn.
        rewrite Hl, Nat.add_0_r. reflexivity.
Qed.

(** The loop variant: more fuel than items left changes nothing. *)
Lemma justified_loop_fuel (behavior : string) (fuel fuel' i : nat) (t : num) (bs : list Box) :
  (List.length ars - i <= fuel)%nat -> (List.length ars - i <= fuel')%nat ->
  justified_loop ars W T g behavior fuel i t bs = justified_loop ars W T g behavior fuel' i t bs.
Proof.
  revert fuel' i t bs. induction fuel as [|fuel IH]; intros fuel' i t bs Hf Hf'.
  - destruct fuel'; cbn [justified_loop]; [reflexivity|].
    replace (i <? List.length ars)%nat with false; [reflexivity|].
    symmetry. apply Nat.ltb_ge. lia.
  - destruct fuel' as [|fuel'].
    + cbn [justified_loop].
      replace (i <? List.length ars)%nat with false; [reflexivity|].
      symmetry. apply Nat.ltb_ge. lia.
    + cbn [justified_loop]. destruct (i <? List.length ars)%nat eqn:Ei; [|reflexivity].
      apply Nat.ltb_lt in Ei.
      destruct (findBreak ars W T g i) as [best|] eqn:Eb.
      * apply findBreak_bounds in Eb.
        destruct ((best =? List.length ars - 1)%nat && String.eqb behavior "hide"); [reflexivity|].
        apply IH; lia.
      * apply IH; lia.
Qed.
End JustifiedRows.

(** ** The justified engine: the last row under ['hide'] *)

Section JustifiedHide.
Variable ars : list num.
Variables W T g : num.
Variable behavior : string.
Hypothesis not_hide : String.eqb behavior "hide" = false.

Lemma justified_loop_done (b : string) (fuel i : nat) (t : num) (bs : list Box) :
  (List.length ars <= i)%nat ->
  justified_loop ars W T g b fuel i t bs = {| boxes := bs; containerHeight := t |}.
Proof.
  intros Hi. destruct fuel; cbn [justified_loop]; [reflexivity|].
  replace (i <? List.length ars)%nat with false; [reflexivity|].
  symmetry. apply Nat.ltb_ge. exact Hi.
Qed.

Lemma hide_versus_other (fuel i : nat) (t : num) (bs : list Box) :
  (List.length ars - i <= fuel)%nat -> (i <= List.length ars)%nat -> List.length bs = i ->
  hide_relation ars W T g i (justified_loop ars W T g "hide" fuel i t bs)
                  (justified_loop ars W T g behavior fuel i t bs).
Proof.
  revert i t bs. induction fuel as [|fuel IH]; intros i t bs Hf Hi Hl.
  - cbn [justified_loop]. exists []. cbn. rewrite app_nil_r. split; [reflexivity|].
    left. repeat split; intros; lia.
  - cbn [justified_loop]. destruct (i <? List.length ars)%nat eqn:Ei.
    2:{ apply Nat.ltb_ge in Ei. exists []. cbn. rewrite app_nil_r. split; [reflexivity|].
        left. repeat split; lia. }
    apply Nat.ltb_lt in Ei.
    destruct (findBreak ars W T g i) as [best|] eqn:Eb.
    + pose proof (findBreak_bounds _ _ _ _ _ Eb) as Hb.
      rewrite not_hide, andb_false_r.
      destruct (best =? List.length ars - 1)%nat eqn:El.
      * apply Nat.eqb_eq in El. cbn [andb String.eqb Ascii.eqb Bool.eqb].
        rewrite for_range_push_box, justified_loop_done by lia.
        eexists. cbn [boxes containerHeight]. split; [reflexivity|].
        right. do 2 eexists. rewrite Hl.
        split; [exact Ei|]. split; [rewrite Eb, El; reflexivity|].
        split; [|reflexivity].
        replace (best + 1 - i)%nat with (List.length ars - i)%nat by lia. reflexivity.
      * apply Nat.eqb_neq in El. cbn [andb].
        rewrite for_range_push_box.
        match goal with
        | |- hide_relation _ _ _ _ _ (justified_loop _ _ _ _ _ _ _ ?t' ?bs') _ =>
            destruct (IH (best + 1)%nat t' bs') as [rw [Hrw Hcase]]
        end.
        -- lia.
        -- lia.
        -- rewrite length_app, row_boxes_length. lia.
        -- exists rw. split; [exact Hrw|].
           destruct Hcase as [[E1 [E2 E3]]|Hcase]; [left|right; exact Hcase].
           split; [exact E1|]. split; [exact E2|]. intros _. apply E3. lia.
    + match goal with
      | |- hide_relation _ _ _ _ _ (justified_loop _ _ _ _ _ _ _ ?t' ?bs') _ =>
          pose proof (IH (i + 1)%nat t' bs') as H;
          pose proof (justified_loop_done behavior fuel (i := i + 1) t' bs') as Hd
      end.
      destruct H as [rw [Hrw Hcase]].
      * lia.
      * lia.
      * rewrite length_app. cbn. lia.
      * exists rw. split; [exact Hrw|].
        destruct Hcase as [[E1 [E2 E3]]|Hcase]; [left|right; exact Hcase].
        split; [exact E1|]. split; [exact E2|]. intros _.
        destruct (Nat.eq_dec (i + 1) (List.length ars)) as [En|En].
        -- replace (List.length ars - 1)%nat with i by lia.
           split; [exact Eb|]. rewrite Hd by lia. cbn [boxes].
           exists bs, t. reflexivity.
        -- apply E3. lia.
Qed.
End JustifiedHide.

(** The search started at the last item finds no break only when that item
    alone is lower than half the target height. *)
Lemma findBreak_last_None (ars : list num) (w t gg a : Q) :
  (0 < List.length ars)%nat ->
  aspect ars (List.length ars - 1) = Fin a -> (0 < a)%Q -> (0 < t)%Q ->
  findBreak ars (Fin w) (Fin t) (Fin gg) (List.length ars - 1) = None ->
  (w / a < t * (1 # 2))%Q.
Proof.
  intros Hn Ha Ha0 Ht H. unfold findBreak in H.
  replace (List.length ars - (List.length ars - 1))%nat with 1%nat in H by lia.
  cbn [scan] in H.
  replace (List.length ars - 1 <? List.length ars)%nat with true in H
    by (symmetry; apply Nat.ltb_lt; lia).
  rewrite Ha, Nat.sub_diag in H. cbn [Nat.add of_nat Z.of_nat] in H.
  change (of_nat 1 - of_Z 1)%num with (Fin 0) in H.
  cbn [nsub nadd nneg nmul ndiv of_Z] in H.
  assert (Ha1 : ~ (Qred (inject_Z 0 + a) == 0)%Q).
  { rewrite Qred_correct. intros E. rewrite Qplus_0_l in E. rewrite E in Ha0.
    exact (Qlt_irrefl _ Ha0). }
  rewrite (Qis0_false Ha1) in H. cbn [nlt Math_abs nadd nneg] in H.
  match type of H with
  | (if Qltb ?x ?y then _ else _) = _ => destruct (Qltb x y) eqn:E; [|discriminate H]
  end.
  apply Qltb_true in E. rewrite !Qred_correct in E.
  assert (Hq : ((w + - (0 * gg)) / (inject_Z 0 + a) == w / a)%Q).
  { field. intros E0. rewrite E0 in Ha0. exact (Qlt_irrefl _ Ha0). }
  rewrite Hq in E. exact E.
Qed.

(** Such an item, at the target height, is wider than the container. *)
Lemma fallback_not_partial (w t a : Q) :
  (0 < a)%Q -> (0 < t)%Q -> (w / a < t * (1 # 2))%Q ->
  (of_Z 0 + Fin t * Fin a <? Fin w)%num = false.
Proof.
  intros Ha Ht H. cbn [nadd nmul nlt of_Z]. apply Qltb_false.
  rewrite !Qred_correct.
  assert (Hw : (w == a * (w / a))%Q).
  { symmetry. apply Qmult_div_r. intros E. rewrite E in Ha. exact (Qlt_irrefl _ Ha). }
  rewrite Hw. generalize dependent (w / a)%Q. intros d H _.
  change (inject_Z 0) with 0%Q. nra.
Qed.

Lemma aspect_positive (ars : list num) (k : nat) :
  Forall positive_num ars -> (k < List.length ars)%nat -> positive_num (aspect ars k).
Proof.
  intros H Hk. rewrite Forall_forall in H. apply H. unfold aspect. apply nth_In. exact Hk.
Qed.

(** A strict partial last row is dropped under ['hide']. *)
Lemma partial_row_is_dropped (ars : list num) (W T g : num) :
  positive_num T -> finite W -> finite g -> Forall positive_num ars ->
  last_row_partial ars W T g = true ->
  (List.length (boxes (justified_loop ars W T g "hide" (List.length ars) 0 (of_Z 0) []))
   < List.length ars)%nat.
Proof.
  intros [t [HT Ht]] [w HW] [gg Hg] Hars Hp.
  assert (Hrel : hide_relation ars W T g 0
            (justified_loop ars W T g "hide" (List.length ars) 0 (of_Z 0) [])
            (justified_loop ars W T g "left" (List.length ars) 0 (of_Z 0) [])).
  { apply hide_versus_other; [reflexivity|lia|lia|reflexivity]. }
  destruct Hrel as [rw [Hrw [[E1 [E2 E3]]|[h [l [Hlt _]]]]]]; [|exact Hlt].
  exfalso. unfold last_row_partial in Hp.
  destruct (Nat.eq_dec (List.length ars) 0) as [En|En].
  - rewrite En in Hp. cbn in Hp. discriminate Hp.
  - destruct E3 as [Hnone [bs0 [t0 Hb]]]; [lia|].
    rewrite Hb, rev_app_distr in Hp. cbn [rev app fallback_box left width] in Hp.
    destruct (@aspect_positive ars (List.length ars - 1) Hars) as [a [Ha Ha0]]; [lia|].
    subst T W g. rewrite Ha in Hp.
    rewrite fallback_not_partial in Hp; [discriminate Hp|exact Ha0|exact Ht|].
    apply (@findBreak_last_None ars w t gg a); try assumption. lia.
Qed.

(** C10, as stated, fails: a last row that fills the container exactly at
    the target height (one item of ratio 3, width 900, target 300) is not a
    partial row, and ['hide'] drops it all the same. *)
Lemma full_last_row_is_hidden :
  let ars := [of_Z 3] in
  let W := of_Z 900 in
  let T := of_Z 300 in
  let g := of_Z 10 in
  last_row_partial ars W T g = false /\
  justified_loop ars W T g "left" 1 0 (of_Z 0) [] =
    {| boxes := [ {| left := of_Z 0; top := of_Z 0; width := of_Z 900; height := of_Z 300 |} ];
       containerHeight := of_Z 310 |} /\
  justified_loop ars W T g "hide" 1 0 (of_Z 0) [] =
    {| boxes := []; containerHeight := of_Z 0 |}.
Proof. repeat split. Qed.

Lemma hide_drops_final_row_loop (ars : list num) (W T g : num) (behavior : string) :
  String.eqb behavior "hide" = false ->
  let n := List.length ars in
  let rh := justified_loop ars W T g "hide" n 0 (of_Z 0) [] in
  let rb := justified_loop ars W T g behavior n 0 (of_Z 0) [] in
  List.length (boxes rb) = n /\ covered ars (boxes rb) /\
  boxes rh = firstn (List.length (boxes rh)) (boxes rb) /\
  hide_relation ars W T g 0 rh rb /\
  (positive_num T -> finite W -> finite g -> Forall positive_num ars ->
   last_row_partial ars W T g = true -> (List.length (boxes rh) < n)%nat).
Proof.
  intros Hb n rh rb.
  assert (Hrel : hide_relation ars W T g 0 rh rb).
  { apply hide_versus_other; [exact Hb|lia|lia|reflexivity]. }
  destruct (@justified_loop_covers ars W T g behavior n 0 (of_Z 0) [] Hb) as [Hlen Hcov];
    try (cbn; lia).
  { intros m b H. destruct m; discriminate H. }
  split; [exact Hlen|]. split; [exact Hcov|]. split; [|split; [exact Hrel|]].
  - destruct Hrel as [rw [Hrw _]]. fold rb. rewrite Hrw.
    rewrite firstn_app, Nat.sub_diag, firstn_all. cbn. rewrite app_nil_r. reflexivity.
  - intros HT HW Hg Hars Hp. apply partial_row_is_dropped; assumption.
Qed.

Lemma computeJustifiedLayout_loop (items : list Item) (W : num) (o : Options) :
  _computeJustifiedLayout items W o =
    justified_loop (map aspectRatio items) W (targetRowHeight o) (gap o) (lastRowBehavior o)
                   (List.length (map aspectRatio items)) 0 (of_Z 0) [].
Proof. unfold _computeJustifiedLayout. rewrite length_map. reflexivity. Qed.

(** C10, as amended.  Under ['hide'] the engine produces the boxes that any
    other behaviour produces, each item in its place, up to the final row.
    When the search ends a row at the last item, that row is dropped whether
    it is partial or not: its items get no box, no further row follows, and
    the container height is the top of that row, that is the other
    behaviour's container height without that row's height and gap.  Nothing
    is dropped when the last item is placed by the single-item fallback.  A
    strict partial last row is always dropped. *)
Theorem hide_drops_final_row (items : list Item) (W : num) (o : Options) (behavior : string) :
  String.eqb behavior "hide" = false ->
  let ars := map aspectRatio items in
  let T := targetRowHeight o in
  let g := gap o in
  let n := List.length items in
  let rh := _computeJustifiedLayout items W (with_lastRowBehavior o "hide") in
  let rb := _computeJustifiedLayout items W (with_lastRowBehavior o behavior) in
  List.length (boxes rb) = n /\ covered ars (boxes rb) /\
  boxes rh = firstn (List.length (boxes rh)) (boxes rb) /\
  hide_relation ars W T g 0 rh rb /\
  (positive_num T -> finite W -> finite g -> Forall positive_num ars ->
   last_row_partial ars W T g = true -> (List.length (boxes rh) < n)%nat).
Proof.
  intros Hb ars T g n rh rb. subst rh rb. rewrite !computeJustifiedLayout_loop.
  subst n. rewrite <- (length_map aspectRatio items).
  exact (@hide_drops_final_row_loop ars W T g behavior Hb).
Qed.

(** ** Coverage *)

Lemma index_boxes_indices (bs : list Box) :
  map itemIndex (index_boxes bs) = seq 0 (List.length bs).
Proof.
  unfold index_boxes. rewrite map_map. cbn [itemIndex].
  generalize 0%nat. induction bs as [|b bs IH]; intros k; cbn; [reflexivity|].
  rewrite IH. reflexivity.
Qed.

Lemma index_boxes_nth (bs : list Box) (k : nat) (b : Box) :
  nth_error bs k = Some b ->
  nth_error (index_boxes bs) k = Some {| gbox := b; itemIndex := k |}.
Proof.
  unfold index_boxes.
  assert (H : forall s k, nth_error bs k = Some b ->
            nth_error (map (fun p => {| gbox := snd p; itemIndex := fst p |})
                           (combine (seq s (List.length bs)) bs)) k
            = Some {| gbox := b; itemIndex := s + k |}).
  { induction bs as [|b0 bs IH]; intros s m Hm; [destruct m; discriminate Hm|].
    destruct m as [|m]; cbn in *.
    - inversion Hm. rewrite Nat.add_0_r. reflexivity.
    - rewrite (IH (S s) m Hm). do 2 f_equal. lia. }
  intros Hk. exact (H 0%nat k Hk).
Qed.

Lemma masonry_fold (colW g : num) (items : list Item) (s : list num * list Box) :
  exists bs,
    snd (fold_left (masonry_step colW g) items s) = snd s ++ bs /\
    Forall2 (fun it b => masonry_box_of colW (aspectRatio it) b) items bs.
Proof.
  revert s. induction items as [|it items IH]; intros s; cbn [fold_left].
  - exists []. rewrite app_nil_r. split; [reflexivity|constructor].
  - destruct (IH (masonry_step colW g s it)) as [bs [E F]].
    eexists. split.
    + rewrite E. unfold masonry_step. cbn [snd]. rewrite <- app_assoc. reflexivity.
    + constructor; [split; reflexivity | exact F].
Qed.

(** C2, as amended.  With a valid configuration, a container width that is
    a finite number and a last-row behaviour other than ['hide'], the
    justified and the grid engine return one box per item, in the order of
    the items: the indices [render] stores in the boxes are 0, 1, ..., n-1,
    and the k-th box is the box of the k-th item (in a justified row its
    width is its height times the item's ratio; in the grid it is the cell
    of position k).  The masonry engine does the same (the k-th box has the
    column width and the height column width / ratio) whenever the column
    count is below [2^32] and not more than the number of arguments the
    engine accepts in a call; for any other column count it raises
    [RangeError] and returns no box. *)
Theorem coverage (max_arguments : nat) (items : list Item) (W : num) (o : Options) :
  valid_options o -> finite W -> lastRowBehavior o <> "hide"%string ->
  let n := List.length items in
  let colCount := fst (resolveColumns W o) in
  let colW := snd (resolveColumns W o) in
  (let r := _computeJustifiedLayout items W o in
   List.length (boxes r) = n /\
   map itemIndex (index_boxes (boxes r)) = seq 0 n /\
   covered (map aspectRatio items) (boxes r)) /\
  (columns_supported max_arguments colCount ->
   exists r, _computeMasonryLayout max_arguments items W o = Ok r /\
   List.length (boxes r) = n /\
   map itemIndex (index_boxes (boxes r)) = seq 0 n /\
   Forall2 (fun it b => masonry_box_of colW (aspectRatio it) b) items (boxes r)) /\
  (~ columns_supported max_arguments colCount ->
   exists msg, _computeMasonryLayout max_arguments items W o = Throw (RangeError msg)) /\
  (let r := _computeGridLayout items W o in
   List.length (boxes r) = n /\
   map itemIndex (index_boxes (boxes r)) = seq 0 n /\
   boxes r = map (grid_box colCount colW (gap o)) (seq 0 n)).
Proof.
  intros Ho HW Hb n colCount colW. apply String.eqb_neq in Hb.
  split; [|split; [|split]].
  - cbv zeta. unfold _computeJustifiedLayout.
    destruct (@justified_loop_covers (map aspectRatio items) W (targetRowHeight o) (gap o)
                (lastRowBehavior o) (List.length items) 0 (of_Z 0) [] Hb)
      as [Hlen Hcov]; try (rewrite ?length_map; cbn; lia).
    { intros m b H. destruct m; discriminate H. }
    rewrite length_map in Hlen. fold n in Hlen.
    split; [exact Hlen|]. split; [|exact Hcov].
    rewrite index_boxes_indices. fold n. rewrite Hlen. reflexivity.
  - intros [z [Ez [Hz Hl]]]. subst colCount colW.
    rewrite (@computeMasonryLayout_supported max_arguments items W o z Ez Hz Hl). cbv zeta.
    destruct (masonry_fold (snd (resolveColumns W o)) (gap o) items
                (repeat (of_Z 0) (Z.to_nat z), [])) as [bs [Ebs F]].
    cbn [snd app] in Ebs.
    eexists. split; [reflexivity|]. cbn [boxes]. rewrite Ebs.
    assert (Hlen : List.length bs = n).
    { symmetry. exact (Forall2_length F). }
    split; [exact Hlen|]. split; [|exact F].
    rewrite index_boxes_indices, Hlen. reflexivity.
  - intros Hns. subst colCount.
    destruct (resolveColumns_valid Ho HW) as [z [cw [Hz E]]].
    apply computeMasonryLayout_unsupported with (z := z); [rewrite E; reflexivity|lia|].
    destruct (Z_lt_le_dec z (2 ^ 32)) as [Hs|Hbig]; [|left; exact Hbig].
    destruct (Z_le_gt_dec z (Z.of_nat max_arguments)) as [Hle|Hgt]; [|right; lia].
    exfalso. apply Hns. exists z. rewrite E. split; [reflexivity|]. split; lia.
  - cbv zeta. unfold _computeGridLayout. subst colCount colW.
    destruct (resolveColumns W o) as [cc cw]. cbn [boxes fst snd].
    assert (Hlen : List.length (map (grid_box cc cw (gap o)) (seq 0 (List.length items))) = n).
    { rewrite length_map, length_seq. reflexivity. }
    split; [exact Hlen|]. split; [|reflexivity].
    rewrite index_boxes_indices, Hlen. reflexivity.
Qed.

(** C2, as stated, fails: with [2^32] columns, a valid configuration, the
    masonry engine returns no box for an item of ratio 1; on every engine it
    raises [RangeError]. *)
Lemma masonry_rejects_many_columns :
  valid_options (Object_assign default_options many_columns) /\
  lastRowBehavior (Object_assign default_options many_columns) <> "hide"%string /\
  positive_num (aspectRatio (item_of_ratio (of_Z 1))) /\
  forall max_arguments,
    _computeMasonryLayout max_arguments [item_of_ratio (of_Z 1)] (of_Z 900)
      (Object_assign default_options many_columns)
    = Throw (RangeError "Invalid array length").
Proof.
  split; [|split; [discriminate|split]].
  - split; [exists 10%Q; split; [reflexivity|discriminate]|].
    split; [exists 300%Q; split; reflexivity|].
    split; [exists 300%Q; split; reflexivity|].
    right. exists (2 ^ 32)%Z. split; [reflexivity|reflexivity].
  - exists 1%Q. split; reflexivity.
  - intros lim. apply computeMasonryLayout_no_array. reflexivity.
Qed.

(** ** The render-set diff *)

Lemma mounted_app (t1 t2 : list Instr) : mounted (t1 ++ t2) = mounted t1 ++ mounted t2.
Proof. unfold mounted. apply flat_map_app. Qed.

Lemma unmounted_app (t1 t2 : list Instr) : unmounted (t1 ++ t2) = unmounted t1 ++ unmounted t2.
Proof. unfold unmounted. apply flat_map_app. Qed.

Lemma mounted_Mount (bs : list GeomBox) : mounted (map Mount bs) = map itemIndex bs.
Proof. induction bs as [|b bs IH]; cbn; [reflexivity|]. f_equal. exact IH. Qed.

Lemma unmounted_Mount (bs : list GeomBox) : unmounted (map Mount bs) = [].
Proof. induction bs as [|b bs IH]; cbn; [reflexivity|exact IH]. Qed.

Lemma mounted_Unmount (l : list nat) : mounted (map Unmount l) = [].
Proof. induction l as [|i l IH]; cbn; [reflexivity|exact IH]. Qed.

Lemma unmounted_Unmount (l : list nat) : unmounted (map Unmount l) = l.
Proof. induction l as [|i l IH]; cbn; [reflexivity|]. f_equal. exact IH. Qed.

Lemma set_has_app_single (s : JSSet) (i x : nat) :
  x <> i -> set_has (s ++ [i]) x = set_has s x.
Proof.
  intros Hx. unfold set_has. rewrite existsb_app. cbn.
  replace (x =? i)%nat with false by (symmetry; apply Nat.eqb_neq; exact Hx).
  rewrite !orb_false_r. reflexivity.
Qed.

(** The indices of a visible set can be mounted: each has its box in
    [geometry], at its own position, and its item. *)
Lemma mount_new_spec (V : list nat) (w : World) :
  NoDup V ->
  (forall i, In i V -> exists b, nth_error (geometry (fst w)) i = Some b /\ itemIndex b = i /\
                                 (i < List.length (items (fst w)))%nat) ->
  exists w' bs,
    mount_new V w = Ok w' /\
    renderedIndices (fst w') =
      renderedIndices (fst w) ++ filter (fun i => negb (set_has (renderedIndices (fst w)) i)) V /\
    snd w' = snd w ++ map Mount bs /\
    map itemIndex bs = filter (fun i => negb (set_has (renderedIndices (fst w)) i)) V /\
    geometry (fst w') = geometry (fst w) /\ items (fst w') = items (fst w) /\
    options (fst w') = options (fst w).
Proof.
  revert w. induction V as [|i V IH]; intros w Hnd Hgeo.
  - exists w, []. cbn. rewrite !app_nil_r. repeat split.
  - inversion Hnd as [|? ? Hi HndV]; subst. cbn [mount_new filter].
    destruct (set_has (renderedIndices (fst w)) i) eqn:Ehas; cbn [negb].
    + apply IH; [exact HndV|]. intros j Hj. apply Hgeo. right. exact Hj.
    + destruct (Hgeo i (or_introl eq_refl)) as [b [Hb [Hbi Hit]]].
      rewrite Hb. unfold _mountItem. rewrite Hbi.
      destruct (nth_error (items (fst w)) i) eqn:Eit.
      2:{ apply nth_error_None in Eit. lia. }
      cbn [bind fst snd set_children set_rendered renderedIndices].
      unfold set_add. rewrite Ehas.
      match goal with |- exists w' bs, mount_new V ?w2 = _ /\ _ => destruct (IH w2) as [w' [bs H]] end.
      * exact HndV.
      * cbn [fst geometry items set_rendered set_children]. intros j Hj. apply Hgeo. right. exact Hj.
      * cbn [fst snd renderedIndices geometry items options set_rendered set_children] in H.
        destruct H as [H1 [H2 [H3 [H4 [H5 [H6 H7]]]]]].
        assert (Hf : filter (fun j => negb (set_has (renderedIndices (fst w) ++ [i]) j)) V
                     = filter (fun j => negb (set_has (renderedIndices (fst w)) j)) V).
        { apply filter_ext_in. intros j Hj. rewrite set_has_app_single; [reflexivity|].
          intros E. subst j. exact (Hi Hj). }
        rewrite Hf in H2, H4.
        exists w', (b :: bs). split; [exact H1|].
        split; [rewrite H2, <- app_assoc; reflexivity|].
        split; [rewrite H3, <- app_assoc; reflexivity|].
        split; [cbn [map]; rewrite Hbi, H4; reflexivity|].
        repeat split; assumption.
Qed.

Lemma unmount_old_spec (V : JSSet) (visit : list nat) (w : World) :
  let w' := unmount_old V visit w in
  snd w' = snd w ++ map Unmount (filter (fun i => negb (set_has V i)) visit) /\
  (forall x, In x (renderedIndices (fst w')) <->
             In x (renderedIndices (fst w)) /\ ~ (In x visit /\ set_has V x = false)) /\
  (NoDup (renderedIndices (fst w)) -> NoDup (renderedIndices (fst w'))) /\
  geometry (fst w') = geometry (fst w) /\ items (fst w') = items (fst w) /\
  options (fst w') = options (fst w).
Proof.
  revert w. induction visit as [|i visit IH]; intros w; cbn zeta.
  - cbn. rewrite app_nil_r. repeat split; tauto.
  - cbn [unmount_old filter]. destruct (set_has V i) eqn:Ehas; cbn [negb].
    + destruct (IH w) as [H1 [H2 [H3 [H4 [H5 H6]]]]].
      split; [exact H1|]. split; [|repeat split; assumption].
      intros x. rewrite H2. cbn [In]. split.
      * intros [Hx Hn]. split; [exact Hx|]. intros [[E|Hv] Hf]; [subst; congruence|tauto].
      * intros [Hx Hn]. split; [exact Hx|]. tauto.
    + match goal with |- context [unmount_old V visit ?w2] => destruct (IH w2) as [H1 [H2 [H3 [H4 [H5 H6]]]]] end.
      cbn [fst snd _unmountItem set_children set_rendered renderedIndices geometry items options] in *.
      split; [rewrite H1, <- app_assoc; reflexivity|].
      split; [|split; [|repeat split; assumption]].
      * intros x. rewrite H2, set_delete_In. cbn [In]. split.
        -- intros [[Hx Hne] Hn]. split; [exact Hx|].
           intros [[E|Hv] Hf]; [congruence|tauto].
        -- intros [Hx Hn]. split; [split; [exact Hx|]|].
           ++ intros E. subst x. apply Hn. split; [left; reflexivity|exact Ehas].
           ++ tauto.
      * intros Hnd. apply H3. apply set_delete_NoDup. exact Hnd.
Qed.

Lemma filter_none {A : Type} (f : A -> bool) (l : list A) :
  (forall x, In x l -> f x = false) -> filter f l = [].
Proof.
  induction l as [|a l IH]; intros H; cbn; [reflexivity|].
  rewrite (H a (or_introl eq_refl)). apply IH. intros x Hx. apply H. right. exact Hx.
Qed.

Lemma diff_spec (V : JSSet) (w : World) :
  NoDup V -> NoDup (renderedIndices (fst w)) ->
  (forall i, In i V -> exists b, nth_error (geometry (fst w)) i = Some b /\ itemIndex b = i /\
                                 (i < List.length (items (fst w)))%nat) ->
  let prev := renderedIndices (fst w) in
  exists w' t,
    diff V w = Ok w' /\ snd w' = snd w ++ t /\
    mounted t = filter (fun i => negb (set_has prev i)) V /\
    unmounted t = filter (fun i => negb (set_has V i)) prev /\
    (forall i, In i (renderedIndices (fst w')) <-> In i V) /\
    NoDup (renderedIndices (fst w')) /\
    (forall i, ~ (In i (mounted t) /\ In i (unmounted t))) /\
    geometry (fst w') = geometry (fst w) /\ items (fst w') = items (fst w).
Proof.
  intros HV Hprev Hgeo prev.
  destruct (mount_new_spec w HV Hgeo) as [w1 [bs [E1 [R1 [T1 [I1 [G1 [It1 O1]]]]]]]].
  fold prev in R1, I1.
  destruct (unmount_old_spec V (renderedIndices (fst w1)) w1) as [T2 [R2 [N2 [G2 [It2 O2]]]]].
  set (new := filter (fun i => negb (set_has prev i)) V) in *.
  assert (Hnew : filter (fun i => negb (set_has V i)) new = []).
  { apply filter_none.
    intros x Hx. unfold new in Hx. apply filter_In in Hx. destruct Hx as [Hx _].
    apply set_has_In in Hx. rewrite Hx. reflexivity. }
  exists (unmount_old V (renderedIndices (fst w1)) w1),
         (map Mount bs ++ map Unmount (filter (fun i => negb (set_has V i)) prev)).
  assert (Hun : filter (fun i => negb (set_has V i)) (renderedIndices (fst w1))
                = filter (fun i => negb (set_has V i)) prev).
  { rewrite R1, filter_app, Hnew, app_nil_r. reflexivity. }
  split; [unfold diff; rewrite E1; reflexivity|].
  split; [rewrite T2, T1, Hun, <- app_assoc; reflexivity|].
  split; [rewrite mounted_app, mounted_Mount, mounted_Unmount, app_nil_r; exact I1|].
  split; [rewrite unmounted_app, unmounted_Mount, unmounted_Unmount; reflexivity|].
  split; [|split; [|split; [|split; congruence]]].
  - intros i. rewrite R2, R1, in_app_iff. unfold new. rewrite filter_In, negb_true_iff.
    rewrite set_has_not_In. split.
    + intros [Hin Hn]. destruct (set_has V i) eqn:E; [apply set_has_In; exact E|].
      exfalso. apply Hn. split; [|reflexivity]. exact Hin.
    + intros Hi. split.
      * destruct (set_has prev i) eqn:E.
        -- left. apply set_has_In. exact E.
        -- right. split; [exact Hi|]. apply set_has_not_In. exact E.
      * intros [_ Hf]. apply set_has_not_In in Hf. exact (Hf Hi).
  - apply N2. rewrite R1. apply NoDup_app; [exact Hprev|apply NoDup_filter; exact HV|].
    intros a Ha Hb. unfold new in Hb. apply filter_In in Hb. destruct Hb as [_ Hb].
    apply negb_true_iff, set_has_not_In in Hb. exact (Hb Ha).
  - intros i [Hm Hu].
    rewrite mounted_app, mounted_Mount, mounted_Unmount, app_nil_r, I1 in Hm.
    rewrite unmounted_app, unmounted_Mount, unmounted_Unmount in Hu. cbn [app] in Hu.
    unfold new in Hm. apply filter_In in Hm. apply filter_In in Hu.
    destruct Hm as [Hm _]. destruct Hu as [_ Hu].
    apply negb_true_iff, set_has_not_In in Hu. exact (Hu Hm).
Qed.

(** The indices found visible have their box in [geometry], at their own
    position, and their item. *)
Lemma visible_indices_in_geometry (e : Env) (buf : num) (g : Gallery) (i : nat) :
  gallery_ok g -> In i (indicesToRender e buf (geometry g)) ->
  exists b, nth_error (geometry g) i = Some b /\ itemIndex b = i /\
            (i < List.length (items g))%nat.
Proof.
  intros [Hidx [Hlen _]] Hi. unfold indicesToRender in Hi. apply indicesToRender_fold in Hi.
  destruct Hi as [[]|[box [Hin [Hbi _]]]].
  apply In_nth_error in Hin. destruct Hin as [k Hk].
  pose proof (Hidx _ _ Hk) as Ek. rewrite Hbi in Ek. subst k.
  exists box. split; [exact Hk|]. split; [exact Hbi|].
  assert (i < List.length (geometry g))%nat by (apply nth_error_Some; congruence).
  lia.
Qed.

Lemma updateVisibleItems_keeps_ok (e : Env) (w : World) :
  virtualize (options (fst w)) = true -> gallery_ok (fst w) ->
  exists w', _updateVisibleItems e w = Ok w' /\ gallery_ok (fst w').
Proof.
  intros Hv Hok.
  destruct (@diff_spec (indicesToRender e (buffer (options (fst w))) (geometry (fst w))) w
              (indicesToRender_NoDup _ _ _) (proj2 (proj2 Hok))
              (fun i => @visible_indices_in_geometry e _ _ i Hok))
    as [w' [t [E [_ [_ [_ [_ [Hn [_ [Hg Hit]]]]]]]]]].
  exists w'. unfold _updateVisibleItems. rewrite Hv. cbn [negb]. split; [exact E|].
  destruct Hok as [H1 [H2 _]]. unfold gallery_ok. rewrite Hg, Hit. auto.
Qed.

(** C9.  In a gallery whose rendered indices are any set [prev],
    [_updateVisibleItems] computes the visible set [V] and applies the diff:
    it mounts exactly the indices of [V] that are not in [prev], unmounts
    exactly the indices of [prev] that are not in [V], leaves the rendered
    set equal to [V], and no index is both mounted and unmounted. *)
Theorem diff_correct (e : Env) (w : World) :
  virtualize (options (fst w)) = true -> gallery_ok (fst w) ->
  let prev := renderedIndices (fst w) in
  let V := indicesToRender e (buffer (options (fst w))) (geometry (fst w)) in
  exists w' t,
    _updateVisibleItems e w = Ok w' /\ diff V w = Ok w' /\ snd w' = snd w ++ t /\
    mounted t = filter (fun i => negb (set_has prev i)) V /\
    unmounted t = filter (fun i => negb (set_has V i)) prev /\
    (forall i, In i (mounted t) <-> In i V /\ ~ In i prev) /\
    (forall i, In i (unmounted t) <-> In i prev /\ ~ In i V) /\
    (forall i, In i (renderedIndices (fst w')) <-> In i V) /\
    NoDup (renderedIndices (fst w')) /\
    (forall i, ~ (In i (mounted t) /\ In i (unmounted t))).
Proof.
  intros Hv Hok prev V.
  destruct (@diff_spec V w (indicesToRender_NoDup _ _ _) (proj2 (proj2 Hok))
              (fun i => @visible_indices_in_geometry e _ _ i Hok))
    as [w' [t [E [Ht [Hm [Hu [Hr [Hn [Hd _]]]]]]]]].
  fold prev in Hm, Hu.
  exists w', t. unfold _updateVisibleItems. rewrite Hv. cbn [negb]. fold V.
  split; [exact E|]. split; [exact E|]. split; [exact Ht|].
  split; [exact Hm|]. split; [exact Hu|].
  split; [|split; [|split; [exact Hr|split; [exact Hn|exact Hd]]]].
  - intros i. rewrite Hm, filter_In, negb_true_iff, set_has_not_In. reflexivity.
  - intros i. rewrite Hu, filter_In, negb_true_iff, set_has_not_In. reflexivity.
Qed.

(** ** Configuration values are not checked, continued *)



(** ** The gallery invariant *)

Lemma computeLayout_length (lim : nat) (items : list Item) (W : num) (o : Options)
      (r : LayoutResult) :
  computeLayout lim items W o = Ok r -> (List.length (boxes r) <= List.length items)%nat.
Proof.
  unfold computeLayout.
  destruct (String.eqb (layout o) "justified").
  - intros H. inversion H; subst r. clear H.
    rewrite computeJustifiedLayout_loop, <- (length_map aspectRatio items).
    destruct (String.eqb (lastRowBehavior o) "hide") eqn:Eh.
    + apply String.eqb_eq in Eh. rewrite Eh.
      destruct (@hide_drops_final_row_loop (map aspectRatio items) W (targetRowHeight o)
                  (gap o) "left" eq_refl) as [Hlen [_ [Hpre _]]].
      rewrite Hpre, length_firstn, Hlen. lia.
    + rewrite (proj1 (@hide_drops_final_row_loop (map aspectRatio items) W (targetRowHeight o)
                        (gap o) (lastRowBehavior o) Eh)). lia.
  - destruct (String.eqb (layout o) "masonry").
    + intros H. apply computeMasonryLayout_Ok in H. destruct H as [hs [_ [_ Hr]]].
      subst r. cbn [boxes].
      destruct (masonry_fold (snd (resolveColumns W o)) (gap o) items (hs, [])) as [bs [E F]].
      rewrite E. cbn [snd app]. rewrite <- (Forall2_length F). lia.
    + destruct (String.eqb (layout o) "grid"); [|discriminate].
      intros H. inversion H; subst r. unfold _computeGridLayout.
      destruct (resolveColumns W o). cbn [boxes]. rewrite length_map, length_seq. lia.
Qed.

Lemma index_boxes_ok (bs : list Box) (k : nat) (b : GeomBox) :
  nth_error (index_boxes bs) k = Some b -> itemIndex b = k.
Proof.
  intros H.
  assert (Hk : (k < List.length bs)%nat).
  { assert (Hl : List.length (index_boxes bs) = List.length bs).
    { rewrite <- (length_map itemIndex), index_boxes_indices, length_seq. reflexivity. }
    rewrite <- Hl. apply nth_error_Some. congruence. }
  destruct (nth_error bs k) as [b0|] eqn:E; [|apply nth_error_None in E; lia].
  rewrite (index_boxes_nth _ _ E) in H. inversion H. reflexivity.
Qed.

(** The constructor establishes the invariant; [addItems], [render] and
    [_updateVisibleItems] keep it. *)
Lemma gallery_ok_constructor (u : UserOptions) (g : Gallery) :
  constructor true u = Ok g -> gallery_ok g.
Proof.
  intros H. inversion H. unfold gallery_ok. cbn.
  split; [intros k b E; destruct k; discriminate E|]. split; [lia|constructor].
Qed.

Lemma gallery_ok_addItems (g : Gallery) (new : list RawItem) :
  gallery_ok g -> gallery_ok (addItems g new).
Proof.
  intros [H1 [H2 H3]]. unfold gallery_ok, addItems. cbn.
  split; [exact H1|]. split; [rewrite length_app; lia|exact H3].
Qed.

Lemma gallery_ok_render (e : Env) (w w' : World) :
  gallery_ok (fst w) -> render e w = Ok w' -> gallery_ok (fst w').
Proof.
  intros Hok H. unfold render in H.
  destruct (List.length (items (fst w)) =? 0)%nat; [inversion H; subst; exact Hok|].
  destruct (computeLayout (max_arguments e) (items (fst w)) (clientWidth e) (options (fst w))) as [r|er] eqn:Er;
    cbn [bind] in H; [|discriminate].
  match type of H with
  | context [_updateVisibleItems e ?w1] =>
      destruct (virtualize (options (fst w1))) eqn:Ev;
      [ destruct (@updateVisibleItems_keeps_ok e w1 Ev) as [w2 [E Hok2]]
      | rewrite (updateVisibleItems_not_virtualized e w1 Ev) in H; discriminate H ]
  end.
  - unfold gallery_ok. cbn [fst geometry items renderedIndices].
    split; [intros k b; apply index_boxes_ok|]. split; [|constructor].
    rewrite <- (length_map itemIndex), index_boxes_indices, length_seq.
    exact (computeLayout_length _ _ _ _ Er).
  - rewrite E in H. cbn [bind] in H. inversion H; subst w'.
    destruct Hok2 as [H1 [H2 H3]]. unfold gallery_ok. cbn. auto.
Qed.

(** ** Instances *)

Lemma valid_optionsA : valid_options optionsA.
Proof.
  split; [exists 10%Q; split; [reflexivity|discriminate]|].
  split; [exists 300%Q; split; reflexivity|].
  split; [exists 300%Q; split; reflexivity|].
  left. reflexivity.
Defined.

Lemma finite_900 : finite (of_Z 900).
Proof. exists 900%Q. reflexivity. Defined.

Lemma coverage_witness :
  valid_options optionsA /\ finite (of_Z 900) /\
  lastRowBehavior optionsA <> "hide"%string /\
  map itemIndex (index_boxes (boxes (_computeJustifiedLayout itemsA (of_Z 900) optionsA)))
    = seq 0 3 /\
  columns_supported 2 (fst (resolveColumns (of_Z 900) optionsA)) /\
  (exists r, _computeMasonryLayout 2 itemsA (of_Z 900) optionsA = Ok r /\
             List.length (boxes r) = 3%nat).
Proof.
  assert (Hb : lastRowBehavior optionsA <> "hide"%string) by discriminate.
  assert (Hc : columns_supported 2 (fst (resolveColumns (of_Z 900) optionsA))).
  { exists 2%Z. split; [reflexivity|]. split; [split|]; [discriminate|reflexivity|discriminate]. }
  pose proof (@coverage 2%nat itemsA (of_Z 900) optionsA valid_optionsA finite_900 Hb) as H.
  split; [exact valid_optionsA|]. split; [exact finite_900|]. split; [exact Hb|].
  split; [exact (proj1 (proj2 (proj1 H)))|]. split; [exact Hc|].
  destruct (proj1 (proj2 H) Hc) as [r [Hr [Hl _]]]. exists r. split; [exact Hr|exact Hl].
Defined.

Lemma normalize_spec_witness :
  truthy_opt (raw_aspectRatio (sized_item (of_Z 800) (of_Z 600))) = false /\
  aspectRatio (normalize (sized_item (of_Z 800) (of_Z 600))) = Fin (4 # 3) /\
  truthy_opt (raw_aspectRatio (ratio_item (of_Z (-2)))) = true /\
  raw_aspectRatio (ratio_item (of_Z (-2)))
    = Some (aspectRatio (normalize (ratio_item (of_Z (-2))))).
Proof.
  split; [reflexivity|]. split; [|split; [reflexivity|]].
  - exact (proj1 (proj2 (proj2 (proj2 (normalize_spec (sized_item (of_Z 800) (of_Z 600))))))
             eq_refl eq_refl).
  - exact (proj1 (proj2 (proj2 (normalize_spec (ratio_item (of_Z (-2)))))) eq_refl).
Defined.

Lemma diff_correct_witness :
  virtualize (options (fst world3)) = true /\ gallery_ok (fst world3) /\
  indicesToRender env1500 (buffer (options (fst world3))) (geometry (fst world3))
    = [1; 2]%nat /\
  exists w' t,
    _updateVisibleItems env1500 world3 = Ok w' /\ snd w' = snd world3 ++ t /\
    mounted t = [2%nat] /\ unmounted t = [0%nat] /\
    (forall i, In i (renderedIndices (fst w')) <-> In i [1; 2]%nat).
Proof.
  assert (Hok : gallery_ok (fst world3)).
  { split; [intros k b; apply index_boxes_ok|].
    split; [cbn; lia|].
    constructor; [intros [E|[]]; discriminate E|]. constructor; [intros []|constructor]. }
  split; [reflexivity|]. split; [exact Hok|]. split; [reflexivity|].
  destruct (@diff_correct env1500 world3 eq_refl Hok)
    as [w' [t [E [_ [Ht [Hm [Hu [_ [_ [Hr _]]]]]]]]]].
  exists w', t. split; [exact E|]. split; [exact Ht|]. split; [exact Hm|].
  split; [exact Hu|exact Hr].
Defined.

Lemma hide_drops_final_row_witness :
  String.eqb "left" "hide" = false /\
  last_row_partial (map aspectRatio itemsA) (of_Z 900) (targetRowHeight optionsA) (gap optionsA)
    = true /\
  (List.length (boxes (_computeJustifiedLayout itemsA (of_Z 900)
                         (with_lastRowBehavior optionsA "hide"))) < 3)%nat.
Proof.
  split; [reflexivity|]. split; [reflexivity|].
  apply (proj2 (proj2 (proj2 (proj2
           (@hide_drops_final_row itemsA (of_Z 900) optionsA "left" eq_refl))))).
  - exists 300%Q. split; reflexivity.
  - exists 900%Q. reflexivity.
  - exists 10%Q. reflexivity.
  - repeat constructor; eexists; (split; [reflexivity|reflexivity]).
  - reflexivity.
Defined.

(** * Further properties *)

(** ** The document follows the rendered set *)

Lemma remove_first_ids (i : nat) (cs : list GeomBox) :
  NoDup (map itemIndex cs) ->
  map itemIndex (remove_first i cs) = set_delete (map itemIndex cs) i.
Proof.
  induction cs as [|c cs IH]; intros Hnd; [reflexivity|].
  inversion Hnd as [|? ? Hc Hcs]; subst.
  cbn [remove_first map set_delete filter].
  destruct (itemIndex c =? i)%nat eqn:E.
  - apply Nat.eqb_eq in E. subst i. rewrite Nat.eqb_refl. cbn [negb].
    symmetry. unfold set_delete in IH.
    assert (H : forall l, ~ In (itemIndex c) l ->
              filter (fun y => negb (itemIndex c =? y)%nat) l = l).
    { induction l as [|y l IHl]; intros Hy; [reflexivity|]. cbn [filter].
      destruct (itemIndex c =? y)%nat eqn:Ey.
      - apply Nat.eqb_eq in Ey. exfalso. apply Hy. left. symmetry. exact Ey.
      - cbn [negb]. f_equal. apply IHl. intros Hin. apply Hy. right. exact Hin. }
    apply H. exact Hc.
  - rewrite Nat.eqb_sym, E. cbn [negb map]. f_equal. apply IH. exact Hcs.
Qed.

Lemma remove_first_In (i : nat) (cs : list GeomBox) (c : GeomBox) :
  In c (remove_first i cs) -> In c cs.
Proof.
  induction cs as [|c0 cs IH]; cbn [remove_first]; [intros []|].
  destruct (itemIndex c0 =? i)%nat; [intros H; right; exact H|].
  intros [H|H]; [left; exact H | right; exact (IH H)].
Qed.

(** What [mount_new] and [unmount_old] leave alone. *)
Lemma mount_new_frame (V : list nat) (w w' : World) :
  mount_new V w = Ok w' ->
  geometry (fst w') = geometry (fst w) /\ items (fst w') = items (fst w) /\
  options (fst w') = options (fst w) /\ style_height (fst w') = style_height (fst w) /\
  isResizing (fst w') = isResizing (fst w).
Proof.
  revert w. induction V as [|i V IH]; intros w H; cbn [mount_new] in H.
  - inversion H; subst. repeat split.
  - destruct (negb (set_has (renderedIndices (fst w)) i)); [|exact (IH _ H)].
    destruct (_mountItem (nth_error (geometry (fst w)) i) w) as [w1|er] eqn:E1;
      cbn [bind] in H; [|discriminate].
    apply IH in H. cbn [fst set_rendered geometry items options style_height isResizing] in H.
    unfold _mountItem in E1. destruct (nth_error (geometry (fst w)) i); [|discriminate].
    destruct (nth_error (items (fst w)) (itemIndex g)); [|discriminate].
    inversion E1; subst w1. exact H.
Qed.

Lemma unmount_old_frame (V : JSSet) (visit : list nat) (w : World) :
  let w' := unmount_old V visit w in
  geometry (fst w') = geometry (fst w) /\ items (fst w') = items (fst w) /\
  options (fst w') = options (fst w) /\ style_height (fst w') = style_height (fst w) /\
  isResizing (fst w') = isResizing (fst w).
Proof.
  revert w. induction visit as [|i visit IH]; intros w; cbn zeta; cbn [unmount_old].
  - repeat split.
  - destruct (negb (set_has V i)); [|exact (IH w)].
    match goal with |- context [unmount_old V visit ?w2] => pose proof (IH w2) as H end.
    cbn zeta in H. exact H.
Qed.

(** The elements [mount_new] appends are the entries of [geometry] at the
    indices it adds to the rendered set. *)
Lemma mount_new_dom (V : list nat) (w w' : World) :
  NoDup V -> mount_new V w = Ok w' ->
  let new := filter (fun i => negb (set_has (renderedIndices (fst w)) i)) V in
  renderedIndices (fst w') = renderedIndices (fst w) ++ new /\
  children (fst w') = children (fst w) ++ boxes_at (geometry (fst w)) new /\
  snd w' = snd w ++ map Mount (boxes_at (geometry (fst w)) new) /\
  List.length (boxes_at (geometry (fst w)) new) = List.length new.
Proof.
  revert w. induction V as [|i V IH]; intros w Hnd H; cbn [mount_new] in H; cbn zeta.
  - inversion H; subst. cbn. rewrite !app_nil_r. repeat split.
  - inversion Hnd as [|? ? Hi HndV]; subst. cbn [filter].
    destruct (set_has (renderedIndices (fst w)) i) eqn:Ehas; cbn [negb] in *.
    + exact (IH _ HndV H).
    + destruct (_mountItem (nth_error (geometry (fst w)) i) w) as [w1|er] eqn:E1;
        cbn [bind] in H; [|discriminate].
      unfold _mountItem in E1. destruct (nth_error (geometry (fst w)) i) as [b|] eqn:Eb;
        [|discriminate].
      destruct (nth_error (items (fst w)) (itemIndex b)); [|discriminate].
      inversion E1; subst w1. clear E1.
      cbn [fst snd set_children set_rendered renderedIndices] in H.
      unfold set_add in H. rewrite Ehas in H.
      apply (IH _ HndV) in H.
      cbn [fst snd set_children set_rendered renderedIndices children geometry] in H.
      assert (Hf : filter (fun j => negb (set_has (renderedIndices (fst w) ++ [i]) j)) V
                   = filter (fun j => negb (set_has (renderedIndices (fst w)) j)) V).
      { apply filter_ext_in. intros j Hj. rewrite set_has_app_single; [reflexivity|].
        intros E. subst j. exact (Hi Hj). }
      rewrite Hf in H. destruct H as [H1 [H2 [H3 H4]]].
      cbn [boxes_at flat_map]. rewrite Eb. fold (boxes_at (geometry (fst w))).
      cbn [app List.length].
      split; [rewrite H1, <- app_assoc; reflexivity|].
      split; [rewrite H2, <- app_assoc; reflexivity|].
      split; [rewrite H3, <- app_assoc; reflexivity|].
      unfold boxes_at in H4 |- *. rewrite H4. reflexivity.
Qed.

Lemma boxes_at_length (geo : list GeomBox) (l : list nat) :
  (List.length (boxes_at geo l) <= List.length l)%nat.
Proof.
  induction l as [|i l IH]; cbn [boxes_at flat_map List.length]; [lia|].
  fold (boxes_at geo l). destruct (nth_error geo i); cbn [app List.length]; lia.
Qed.

Lemma boxes_at_ids (geo : list GeomBox) (l : list nat) :
  (forall k b, nth_error geo k = Some b -> itemIndex b = k) ->
  List.length (boxes_at geo l) = List.length l ->
  map itemIndex (boxes_at geo l) = l.
Proof.
  intros Hidx. induction l as [|i l IH]; cbn [boxes_at flat_map List.length]; [reflexivity|].
  fold (boxes_at geo l). pose proof (boxes_at_length geo l) as Hle.
  destruct (nth_error geo i) as [b|] eqn:E; cbn [app List.length map]; intros H; [|lia].
  rewrite (Hidx _ _ E). f_equal. apply IH. lia.
Qed.

Lemma boxes_at_In (geo : list GeomBox) (l : list nat) (c : GeomBox) :
  (forall k b, nth_error geo k = Some b -> itemIndex b = k) ->
  In c (boxes_at geo l) -> nth_error geo (itemIndex c) = Some c.
Proof.
  intros Hidx H. unfold boxes_at in H. apply in_flat_map in H.
  destruct H as [i [_ Hc]]. destruct (nth_error geo i) as [b|] eqn:E; [|destruct Hc].
  destruct Hc as [Hc|[]]. subst c. rewrite (Hidx _ _ E). exact E.
Qed.

Lemma unmount_old_dom (V : JSSet) (visit : list nat) (w : World) :
  NoDup (renderedIndices (fst w)) -> dom_ok (fst w) ->
  dom_ok (fst (unmount_old V visit w)).
Proof.
  revert w. induction visit as [|i visit IH]; intros w Hnd Hdom; cbn [unmount_old]; [exact Hdom|].
  destruct (negb (set_has V i)); [|exact (IH w Hnd Hdom)].
  apply IH; cbn [fst snd _unmountItem set_children set_rendered renderedIndices].
  - apply set_delete_NoDup. exact Hnd.
  - destruct Hdom as [H1 H2]. unfold dom_ok.
    cbn [children renderedIndices geometry set_rendered set_children]. split.
    + rewrite remove_first_ids by (rewrite H1; exact Hnd). rewrite H1. reflexivity.
    + intros c Hc. apply H2. exact (remove_first_In _ _ _ Hc).
Qed.

(** [_updateVisibleItems] keeps the gallery and the document consistent and
    touches neither the items nor the options nor the geometry. *)
Lemma updateVisibleItems_dom (e : Env) (w w' : World) :
  gallery_ok (fst w) -> dom_ok (fst w) -> _updateVisibleItems e w = Ok w' ->
  gallery_ok (fst w') /\ dom_ok (fst w') /\
  geometry (fst w') = geometry (fst w) /\ items (fst w') = items (fst w) /\
  options (fst w') = options (fst w) /\ style_height (fst w') = style_height (fst w) /\
  isResizing (fst w') = isResizing (fst w).
Proof.
  intros Hok Hdom H. unfold _updateVisibleItems in H.
  destruct (virtualize (options (fst w))) eqn:Ev; cbn [negb] in H; [|discriminate].
  destruct (@updateVisibleItems_keeps_ok e w Ev Hok) as [w2 [E2 Hok2]].
  unfold _updateVisibleItems in E2. rewrite Ev in E2. cbn [negb] in E2.
  rewrite H in E2. inversion E2; subst w2. clear E2.
  unfold diff in H.
  destruct (mount_new (indicesToRender e (buffer (options (fst w))) (geometry (fst w))) w)
    as [w1|er] eqn:E1; cbn [bind] in H; [|discriminate].
  inversion H; subst w'. clear H.
  destruct (@mount_new_frame _ _ _ E1) as [F1 [F2 [F3 [F4 F5]]]].
  destruct (unmount_old_frame
              (indicesToRender e (buffer (options (fst w))) (geometry (fst w)))
              (renderedIndices (fst w1)) w1) as [G1 [G2 [G3 [G4 G5]]]].
  destruct (@mount_new_dom _ _ _ (indicesToRender_NoDup _ _ _) E1) as [R1 [C1 [_ L1]]].
  destruct Hok as [Hidx [Hlen Hnd]]. destruct Hdom as [D1 D2].
  split; [exact Hok2|]. split; [|repeat split; congruence].
  apply unmount_old_dom.
  - rewrite R1. apply NoDup_app; [exact Hnd|apply NoDup_filter, indicesToRender_NoDup|].
    intros a Ha Hb. apply filter_In in Hb. destruct Hb as [_ Hb].
    apply negb_true_iff, set_has_not_In in Hb. exact (Hb Ha).
  - split.
    + rewrite C1, R1, map_app, D1. f_equal. apply boxes_at_ids; [exact Hidx|exact L1].
    + intros c Hc. rewrite C1 in Hc. rewrite F1. apply in_app_iff in Hc.
      destruct Hc as [Hc|Hc]; [exact (D2 c Hc)|exact (boxes_at_In _ _ _ Hidx Hc)].
Qed.

Lemma normalize_truthy (item : RawItem) : truthy (aspectRatio (normalize item)) = true.
Proof.
  rewrite normalize_cases.
  destruct (truthy_opt (raw_aspectRatio item)) eqn:Ear.
  - destruct (raw_aspectRatio item); [exact Ear|discriminate Ear].
  - destruct (truthy_opt (raw_width item) && truthy_opt (raw_height item)
              && truthy (to_num (raw_width item) / to_num (raw_height item))%num) eqn:E.
    + apply andb_true_iff in E. exact (proj2 E).
    + reflexivity.
Qed.

(** What a successful [render] of a non-empty gallery leaves. *)
Lemma render_unfold (e : Env) (w w' : World) :
  render e w = Ok w' -> items (fst w) <> [] ->
  exists r w2,
    computeLayout (max_arguments e) (items (fst w)) (clientWidth e) (options (fst w)) = Ok r /\
    _updateVisibleItems e
      ({| options := options (fst w); items := items (fst w);
          geometry := index_boxes (boxes r); renderedIndices := []; children := [];
          style_height := Some (containerHeight r); isResizing := true |}, snd w) = Ok w2 /\
    w' = ({| options := options (fst w2); items := items (fst w2);
             geometry := geometry (fst w2);
             renderedIndices := renderedIndices (fst w2); children := children (fst w2);
             style_height := style_height (fst w2); isResizing := false |}, snd w2).
Proof.
  intros H Hne. unfold render in H.
  destruct (items (fst w)) as [|it its] eqn:Eit; [contradiction|].
  cbn [List.length Nat.eqb] in H.
  destruct (computeLayout (max_arguments e) (it :: its) (clientWidth e) (options (fst w))) as [r|er];
    cbn [bind] in H; [|discriminate].
  match type of H with
  | context [_updateVisibleItems e ?w1] =>
      destruct (_updateVisibleItems e w1) as [w2|er] eqn:E2; cbn [bind] in H; [|discriminate]
  end.
  exists r, w2. inversion H. repeat split. exact E2.
Qed.

(** X1.  In every state a gallery reaches through calls that return, each
    entry of [geometry] carries its own position and has its item, the
    rendered indices are a set, the mounted elements are exactly those of
    the rendered indices, in the same order, each being the current
    [geometry] entry of its index, and every stored aspect ratio is neither
    zero nor [NaN]. *)
Theorem reachable_invariant (w : World) :
  reachable w -> gallery_ok (fst w) /\ dom_ok (fst w) /\ items_ok (fst w).
Proof.
  induction 1 as [u g Hg | w new Hw IH | e w w' Hw IH Hr | e w w' Hw IH Hu].
  - split; [eapply gallery_ok_constructor; exact Hg|].
    inversion Hg. split; [split; [reflexivity|intros c []]|constructor].
  - destruct IH as [Hok [Hdom Hit]].
    split; [apply gallery_ok_addItems; exact Hok|]. split; [exact Hdom|].
    unfold items_ok, addItems. cbn [fst items]. apply Forall_app. split; [exact Hit|].
    apply Forall_forall. intros it Hin. apply in_map_iff in Hin.
    destruct Hin as [raw [E _]]. subst it. apply normalize_truthy.
  - destruct IH as [Hok [Hdom Hit]].
    split; [eapply gallery_ok_render; [exact Hok|exact Hr]|].
    destruct (items (fst w)) as [|it its] eqn:Eit.
    + unfold render in Hr. rewrite Eit in Hr. inversion Hr; subst w'.
      split; [exact Hdom|]. unfold items_ok. rewrite Eit. constructor.
    + destruct (@render_unfold e w w' Hr) as [r [w2 [Er [E2 Ew]]]]; [rewrite Eit; discriminate|].
      apply updateVisibleItems_dom in E2.
      * destruct E2 as [_ [[D1 D2] [_ [I2 _]]]]. subst w'. cbn [fst] in *.
        split; [split; assumption|]. unfold items_ok. cbn [items]. rewrite I2. exact Hit.
      * unfold gallery_ok. cbn [fst geometry items renderedIndices].
        split; [intros k b; apply index_boxes_ok|]. split; [|constructor].
        rewrite <- (length_map itemIndex), index_boxes_indices, length_seq.
        eapply computeLayout_length; exact Er.
      * split; [reflexivity|intros c []].
  - destruct IH as [Hok [Hdom Hit]].
    destruct (@updateVisibleItems_dom _ _ _ Hok Hdom Hu) as [H1 [H2 [_ [H3 _]]]].
    split; [exact H1|]. split; [exact H2|]. unfold items_ok. rewrite H3. exact Hit.
Qed.

Lemma reachable_invariant_witness :
  exists w', render env0 world1 = Ok w' /\ reachable w' /\
             gallery_ok (fst w') /\ dom_ok (fst w') /\ items_ok (fst w').
Proof.
  eexists. split; [vm_compute; reflexivity|].
  match goal with |- reachable ?w' /\ _ =>
    assert (Hr : reachable w')
  end.
  { apply (@reach_render env0 world1); [|vm_compute; reflexivity].
    unfold world1.
    apply (@reach_addItems
             ({| options := default_options; items := []; geometry := [];
                 renderedIndices := []; children := []; style_height := None;
                 isResizing := false |}, []) [sized_item (of_Z 800) (of_Z 600)]).
    apply (@reach_constructor
             {| u_layout := None; u_gap := None; u_targetRowHeight := None;
                u_lastRowBehavior := None; u_columnWidth := None; u_columns := None;
                u_virtualize := None; u_buffer := None |}).
    reflexivity. }
  split; [exact Hr|]. exact (reachable_invariant Hr).
Defined.

(** ** Recomputing visibility twice *)

Lemma mount_new_noop (V : list nat) (w : World) :
  (forall i, In i V -> set_has (renderedIndices (fst w)) i = true) -> mount_new V w = Ok w.
Proof.
  induction V as [|i V IH]; intros H; cbn [mount_new]; [reflexivity|].
  rewrite (H i (or_introl eq_refl)). cbn [negb]. apply IH. intros j Hj. apply H. right. exact Hj.
Qed.

Lemma unmount_old_noop (V : JSSet) (visit : list nat) (w : World) :
  (forall i, In i visit -> set_has V i = true) -> unmount_old V visit w = w.
Proof.
  induction visit as [|i visit IH]; intros H; cbn [unmount_old]; [reflexivity|].
  rewrite (H i (or_introl eq_refl)). cbn [negb]. apply IH. intros j Hj. apply H. right. exact Hj.
Qed.

Lemma updateVisibleItems_frame (e : Env) (w w' : World) :
  _updateVisibleItems e w = Ok w' ->
  virtualize (options (fst w)) = true /\
  diff (indicesToRender e (buffer (options (fst w))) (geometry (fst w))) w = Ok w' /\
  geometry (fst w') = geometry (fst w) /\ items (fst w') = items (fst w) /\
  options (fst w') = options (fst w) /\ style_height (fst w') = style_height (fst w) /\
  isResizing (fst w') = isResizing (fst w).
Proof.
  intros H. unfold _updateVisibleItems in H.
  destruct (virtualize (options (fst w))) eqn:Ev; cbn [negb] in H; [|discriminate].
  split; [reflexivity|]. split; [exact H|].
  unfold diff in H.
  destruct (mount_new (indicesToRender e (buffer (options (fst w))) (geometry (fst w))) w)
    as [w1|er] eqn:E1; cbn [bind] in H; [|discriminate].
  inversion H; subst w'. clear H.
  destruct (@mount_new_frame _ _ _ E1) as [F1 [F2 [F3 [F4 F5]]]].
  destruct (unmount_old_frame
              (indicesToRender e (buffer (options (fst w))) (geometry (fst w)))
              (renderedIndices (fst w1)) w1) as [G1 [G2 [G3 [G4 G5]]]].
  repeat split; congruence.
Qed.

(** X2.  Recomputing visibility is idempotent: once [_updateVisibleItems]
    has returned, a second call in the same surroundings mounts nothing,
    unmounts nothing and leaves the gallery as it is. *)
Theorem updateVisibleItems_idempotent (e : Env) (w w' : World) :
  gallery_ok (fst w) -> _updateVisibleItems e w = Ok w' -> _updateVisibleItems e w' = Ok w'.
Proof.
  intros Hok H.
  destruct (updateVisibleItems_frame _ _ H) as [Ev [Hd [Fg [_ [Fo _]]]]].
  set (V := indicesToRender e (buffer (options (fst w))) (geometry (fst w))) in *.
  destruct (@diff_spec V w (indicesToRender_NoDup _ _ _) (proj2 (proj2 Hok))
              (fun i => @visible_indices_in_geometry e _ _ i Hok))
    as [w2 [t [E [_ [_ [_ [Hr _]]]]]]].
  rewrite Hd in E. inversion E; subst w2. clear E.
  unfold _updateVisibleItems. rewrite Fo, Ev, Fg. cbn [negb]. fold V.
  unfold diff. rewrite mount_new_noop.
  - cbn [bind]. rewrite unmount_old_noop; [reflexivity|].
    intros i Hi. apply set_has_In, Hr. exact Hi.
  - intros i Hi. apply set_has_In, Hr. exact Hi.
Qed.

Lemma updateVisibleItems_idempotent_witness :
  gallery_ok (fst world3) /\
  exists w', _updateVisibleItems env1500 world3 = Ok w' /\
             _updateVisibleItems env1500 w' = Ok w'.
Proof.
  assert (Hok : gallery_ok (fst world3)).
  { split; [intros k b; apply index_boxes_ok|].
    split; [cbn; lia|].
    constructor; [intros [E|[]]; discriminate E|]. constructor; [intros []|constructor]. }
  split; [exact Hok|].
  eexists. split; [vm_compute; reflexivity|].
  apply (@updateVisibleItems_idempotent env1500 world3); [exact Hok|vm_compute; reflexivity].
Defined.

(** ** A full re-layout *)

Lemma gallery_eq (g1 g2 : Gallery) :
  options g1 = options g2 -> items g1 = items g2 -> geometry g1 = geometry g2 ->
  renderedIndices g1 = renderedIndices g2 -> children g1 = children g2 ->
  style_height g1 = style_height g2 -> isResizing g1 = isResizing g2 -> g1 = g2.
Proof. destruct g1, g2. cbn. intros. subst. reflexivity. Qed.

Lemma filter_all {A : Type} (f : A -> bool) (l : list A) :
  (forall x, In x l -> f x = true) -> filter f l = l.
Proof.
  induction l as [|a l IH]; intros H; cbn; [reflexivity|].
  rewrite (H a (or_introl eq_refl)). f_equal. apply IH. intros x Hx. apply H. right. exact Hx.
Qed.

(** A successful [render] of a non-empty gallery ends in the world
    [relayout] describes. *)
Lemma render_state (e : Env) (w w' : World) :
  render e w = Ok w' -> items (fst w) <> [] ->
  exists r, computeLayout (max_arguments e) (items (fst w)) (clientWidth e) (options (fst w)) = Ok r /\
            w' = relayout e w r.
Proof.
  intros H Hne. destruct (render_unfold _ _ H Hne) as [r [w2 [Er [E2 Ew]]]].
  exists r. split; [exact Er|]. subst w'.
  destruct (updateVisibleItems_frame _ _ E2) as [_ [Hd [Fg [Fi [Fo [Fs _]]]]]].
  cbn [fst snd options geometry items style_height] in Hd, Fg, Fi, Fo, Fs.
  set (G := index_boxes (boxes r)) in *.
  set (V := indicesToRender e (buffer (options (fst w))) G) in *.
  unfold diff in Hd.
  destruct (mount_new V _) as [w1|er] eqn:E1 in Hd; cbn [bind] in Hd; [|discriminate].
  destruct (@mount_new_dom _ _ _ (indicesToRender_NoDup _ _ _) E1) as [R1 [C1 [T1 _]]].
  cbn [fst snd renderedIndices children geometry app] in R1, C1, T1.
  rewrite filter_all in R1, C1, T1 by reflexivity.
  rewrite unmount_old_noop in Hd
    by (intros i Hi; apply set_has_In; rewrite R1 in Hi; exact Hi).
  inversion Hd; subst w2. clear Hd.
  unfold relayout. fold G. fold V. f_equal; [|exact T1].
  apply gallery_eq; cbn [options items geometry renderedIndices children style_height isResizing];
    try assumption; reflexivity.
Qed.

(** X3.  A successful [render] of a non-empty gallery is a full re-layout:
    it keeps items and options, stores the engine's boxes with their
    positions as [geometry] and the engine's container height as the
    container's height, renders exactly the visible indices in the order of
    the boxes, mounts their elements and nothing else, and issues no
    unmount. *)
Theorem render_mounts_visible (e : Env) (w w' : World) :
  render e w = Ok w' -> items (fst w) <> [] ->
  exists r t,
    computeLayout (max_arguments e) (items (fst w)) (clientWidth e) (options (fst w)) = Ok r /\
    items (fst w') = items (fst w) /\ options (fst w') = options (fst w) /\
    geometry (fst w') = index_boxes (boxes r) /\
    map itemIndex (geometry (fst w')) = seq 0 (List.length (boxes r)) /\
    style_height (fst w') = Some (containerHeight r) /\
    renderedIndices (fst w') =
      indicesToRender e (buffer (options (fst w))) (geometry (fst w')) /\
    map itemIndex (children (fst w')) = renderedIndices (fst w') /\
    snd w' = snd w ++ t /\ mounted t = renderedIndices (fst w') /\ unmounted t = [].
Proof.
  intros H Hne. destruct (render_state _ _ H Hne) as [r [Er Ew]].
  exists r, (map Mount (children (fst w'))). subst w'. unfold relayout.
  cbn [fst snd items options geometry style_height renderedIndices children].
  assert (Hids : map itemIndex
            (boxes_at (index_boxes (boxes r))
               (indicesToRender e (buffer (options (fst w))) (index_boxes (boxes r))))
          = indicesToRender e (buffer (options (fst w))) (index_boxes (boxes r))).
  { assert (Hok : gallery_ok
              {| options := options (fst w); items := items (fst w);
                 geometry := index_boxes (boxes r); renderedIndices := []; children := [];
                 style_height := None; isResizing := true |}).
    { split; [intros k b; apply index_boxes_ok|]. split; [|constructor].
      cbn [geometry items].
      rewrite <- (length_map itemIndex), index_boxes_indices, length_seq.
      eapply computeLayout_length; exact Er. }
    apply boxes_at_ids; [intros k b; apply index_boxes_ok|].
    assert (Hall : forall l,
              (forall i, In i l -> exists b, nth_error (index_boxes (boxes r)) i = Some b) ->
              List.length (boxes_at (index_boxes (boxes r)) l) = List.length l).
    { induction l as [|i l IH]; intros Hl; [reflexivity|].
      cbn [boxes_at flat_map]. fold (boxes_at (index_boxes (boxes r)) l).
      destruct (Hl i (or_introl eq_refl)) as [b Hb]. rewrite Hb. cbn [app List.length].
      f_equal. apply IH. intros j Hj. apply Hl. right. exact Hj. }
    apply Hall. intros i Hi.
    destruct (@visible_indices_in_geometry e _ _ i Hok Hi) as [b [Hb _]].
    exists b. exact Hb. }
  repeat split; try reflexivity; try assumption.
  - apply index_boxes_indices.
  - rewrite mounted_Mount. exact Hids.
  - apply unmounted_Mount.
Qed.

Lemma render_mounts_visible_witness :
  items (fst world1) <> [] /\
  exists w' r t,
    render env0 world1 = Ok w' /\
    computeLayout (max_arguments env0) (items (fst world1)) (clientWidth env0) (options (fst world1)) = Ok r /\
    snd w' = snd world1 ++ t /\ mounted t = renderedIndices (fst w') /\ unmounted t = [].
Proof.
  assert (Hne : items (fst world1) <> []) by discriminate.
  split; [exact Hne|]. eexists.
  assert (Hr : render env0 world1 = Ok _) by (vm_compute; reflexivity).
  destruct (@render_mounts_visible env0 world1 _ Hr Hne)
    as [r [t [Er [_ [_ [_ [_ [_ [_ [_ [Ht [Hm Hu]]]]]]]]]]]].
  exists r, t. split; [exact Hr|]. split; [exact Er|]. split; [exact Ht|]. split; assumption.
Defined.

(** With virtualization on, [render] raises only the error of the layout. *)
Lemma render_throws_inv (e : Env) (w : World) (err : error) :
  render e w = Throw err ->
  computeLayout (max_arguments e) (items (fst w)) (clientWidth e) (options (fst w)) = Throw err \/
  virtualize (options (fst w)) = false.
Proof.
  unfold render. destruct (List.length (items (fst w)) =? 0)%nat; [discriminate|].
  destruct (computeLayout (max_arguments e) (items (fst w)) (clientWidth e) (options (fst w))) as [r|er] eqn:Er;
    cbn [bind]; [|intros H; inversion H; left; reflexivity].
  destruct (virtualize (options (fst w))) eqn:Ev; [|right; reflexivity].
  match goal with
  | |- context [_updateVisibleItems e ?w1] =>
      destruct (@updateVisibleItems_keeps_ok e w1 Ev) as [w2 [E2 _]]
  end.
  - split; [intros k b; apply index_boxes_ok|]. split; [|constructor].
    cbn [fst geometry items].
    rewrite <- (length_map itemIndex), index_boxes_indices, length_seq.
    eapply computeLayout_length; exact Er.
  - rewrite E2. cbn [bind]. discriminate.
Qed.

(** X4.  [render] raises exactly when the gallery is not empty and either
    the layout cannot be computed, with that error, or virtualization is
    off, with the [TypeError] of the missing [_renderItems]; with
    virtualization on, mounting and unmounting never raise. *)
Theorem render_throws (e : Env) (w : World) (err : error) :
  render e w = Throw err <->
  items (fst w) <> [] /\
  (computeLayout (max_arguments e) (items (fst w)) (clientWidth e) (options (fst w)) = Throw err \/
   exists r, computeLayout (max_arguments e) (items (fst w)) (clientWidth e) (options (fst w)) = Ok r /\
             virtualize (options (fst w)) = false /\
             err = TypeError "this._renderItems is not a function").
Proof.
  unfold render. destruct (items (fst w)) as [|it its] eqn:Eit; cbn [List.length Nat.eqb].
  - split; [discriminate|]. intros [Hne _]. contradiction.
  - destruct (computeLayout (max_arguments e) (it :: its) (clientWidth e) (options (fst w))) as [r|er] eqn:Er;
      cbn [bind].
    + match goal with
      | |- context [_updateVisibleItems e ?w1] =>
          destruct (virtualize (options (fst w1))) eqn:Ev;
          [ destruct (@updateVisibleItems_keeps_ok e w1 Ev) as [w2 [E2 _]]
          | rewrite (updateVisibleItems_not_virtualized e w1 Ev) ]
      end.
      * split; [intros k b; apply index_boxes_ok|]. split; [|constructor].
        cbn [fst geometry items].
        rewrite <- (length_map itemIndex), index_boxes_indices, length_seq.
        rewrite <- Eit in Er. rewrite <- Eit. eapply computeLayout_length; exact Er.
      * rewrite E2. cbn [bind]. cbn [fst options] in Ev. split; [discriminate|].
        intros [_ [H|[r0 [_ [H _]]]]]; [discriminate|rewrite Ev in H; discriminate H].
      * cbn [bind]. cbn [fst options] in Ev. split.
        -- intros H. inversion H. split; [discriminate|]. right. exists r. auto.
        -- intros [_ [H|[r0 [_ [_ H]]]]]; [discriminate|rewrite H; reflexivity].
    + cbn [bind]. split.
      * intros H. inversion H. split; [discriminate|]. left. reflexivity.
      * intros [_ [H|[r0 [H _]]]]; [inversion H; reflexivity|discriminate].
Qed.

(** X5.  Rendering again changes nothing in the gallery: after a successful
    [render], a second [render] in the same surroundings succeeds and ends
    in the same gallery (same geometry, rendered set and mounted
    elements). *)
Theorem render_idempotent (e : Env) (w w1 : World) :
  render e w = Ok w1 -> exists w2, render e w1 = Ok w2 /\ fst w2 = fst w1.
Proof.
  intros H. destruct (items (fst w)) as [|it its] eqn:Eit.
  - unfold render in H. rewrite Eit in H. inversion H; subst w1.
    exists w. split; [|reflexivity]. unfold render. rewrite Eit. reflexivity.
  - assert (Hne : items (fst w) <> []) by (rewrite Eit; discriminate).
    destruct (render_state _ _ H Hne) as [r [Er Ew]].
    assert (Hi : items (fst w1) = items (fst w)) by (subst w1; reflexivity).
    assert (Ho : options (fst w1) = options (fst w)) by (subst w1; reflexivity).
    destruct (render e w1) as [w2|er] eqn:E2.
    + exists w2. split; [reflexivity|].
      assert (Hne1 : items (fst w1) <> []) by (rewrite Hi; exact Hne).
      destruct (render_state _ _ E2 Hne1) as [r' [Er' Ew']].
      rewrite Hi, Ho, Er in Er'. inversion Er'; subst r'.
      rewrite Ew', Ew. unfold relayout. cbn [fst snd options items]. reflexivity.
    + exfalso. apply render_throws_inv in E2. destruct E2 as [Er' | Ev].
      * rewrite Hi, Ho, Er in Er'. discriminate.
      * rewrite Ho in Ev.
        unfold render in H. rewrite Eit in H. cbn [List.length Nat.eqb] in H.
        rewrite <- Eit, Er in H. cbn [bind] in H.
        rewrite updateVisibleItems_not_virtualized in H by exact Ev. discriminate.
Qed.

Lemma render_idempotent_witness :
  exists w1 w2, render env0 world1 = Ok w1 /\ render env0 w1 = Ok w2 /\ fst w2 = fst w1.
Proof.
  eexists.
  assert (Hr : render env0 world1 = Ok _) by (vm_compute; reflexivity).
  destruct (@render_idempotent env0 world1 _ Hr) as [w2 [E2 Eq]].
  exists w2. split; [exact Hr|]. split; [exact E2|exact Eq].
Defined.

(** ** Ingestion, continued *)

(** X6.  [addItems] only appends: the items already stored stay where they
    are, two calls amount to one call with the concatenated list, geometry,
    rendered set and mounted elements are left as they were (until the next
    [render]), and feeding the stored items of a reachable gallery back to
    [addItems] stores the same aspect ratios. *)
Theorem addItems_appends (g : Gallery) (a b : list RawItem) :
  addItems (addItems g a) b = addItems g (a ++ b) /\
  firstn (List.length (items g)) (items (addItems g a)) = items g /\
  List.length (items (addItems g a)) = (List.length (items g) + List.length a)%nat /\
  geometry (addItems g a) = geometry g /\
  renderedIndices (addItems g a) = renderedIndices g /\
  children (addItems g a) = children g /\
  (items_ok g ->
   map aspectRatio (map normalize (map as_raw (items g))) = map aspectRatio (items g)).
Proof.
  split; [|split; [|split; [|repeat split]]].
  - unfold addItems. cbn [options items geometry renderedIndices children style_height isResizing].
    rewrite map_app, app_assoc. reflexivity.
  - cbn [addItems items]. rewrite firstn_app, Nat.sub_diag, firstn_all. cbn.
    apply app_nil_r.
  - cbn [addItems items]. rewrite length_app, length_map. reflexivity.
  - unfold items_ok. induction (items g) as [|it its IH]; intros H; [reflexivity|].
    inversion H as [|? ? Hit Hits]; subst. cbn [map]. f_equal; [|exact (IH Hits)].
    rewrite normalize_cases. cbn [as_raw raw_aspectRatio truthy_opt to_num or_default].
    rewrite Hit. reflexivity.
Qed.

Lemma addItems_appends_witness : items_ok (fst world1) /\
  map aspectRatio (map normalize (map as_raw (items (fst world1))))
  = map aspectRatio (items (fst world1)).
Proof.
  assert (H : items_ok (fst world1)) by (repeat constructor).
  split; [exact H|].
  exact (proj2 (proj2 (proj2 (proj2 (proj2 (proj2 (addItems_appends (fst world1) [] []))))))
           H).
Defined.

(** ** Mounting and unmounting *)

Lemma remove_first_absent (i : nat) (cs : list GeomBox) :
  (forall c, In c cs -> itemIndex c <> i) -> remove_first i cs = cs.
Proof.
  induction cs as [|c cs IH]; intros H; [reflexivity|]. cbn [remove_first].
  destruct (itemIndex c =? i)%nat eqn:E.
  - apply Nat.eqb_eq in E. exfalso. exact (H c (or_introl eq_refl) E).
  - f_equal. apply IH. intros c' Hc'. apply H. right. exact Hc'.
Qed.

Lemma remove_first_last (i : nat) (cs : list GeomBox) (b : GeomBox) :
  (forall c, In c cs -> itemIndex c <> i) -> itemIndex b = i ->
  remove_first i (cs ++ [b]) = cs.
Proof.
  induction cs as [|c cs IH]; intros H Hb; cbn [app remove_first].
  - rewrite Hb, Nat.eqb_refl. reflexivity.
  - destruct (itemIndex c =? i)%nat eqn:E.
    + apply Nat.eqb_eq in E. exfalso. exact (H c (or_introl eq_refl) E).
    + f_equal. apply IH; [|exact Hb]. intros c' Hc'. apply H. right. exact Hc'.
Qed.

(** X7.  Unmounting an index that has no element in the container changes
    no element; mounting a box whose index has no element yet and unmounting
    that index again gives back the elements there were; and while an
    element of that index is mounted, a second mount of the same index is
    undone by the unmount only in number: the element removed is the older
    one. *)
Theorem mount_unmount_round_trip (b : GeomBox) (w : World) :
  (itemIndex b < List.length (items (fst w)))%nat ->
  exists w1,
    _mountItem (Some b) w = Ok w1 /\
    children (fst w1) = children (fst w) ++ [b] /\
    ((forall c, In c (children (fst w)) -> itemIndex c <> itemIndex b) ->
     children (fst (_unmountItem (itemIndex b) w)) = children (fst w) /\
     children (fst (_unmountItem (itemIndex b) w1)) = children (fst w)) /\
    (forall c cs, children (fst w) = c :: cs -> itemIndex c = itemIndex b ->
     children (fst (_unmountItem (itemIndex b) w1)) = cs ++ [b]).
Proof.
  intros Hlt. unfold _mountItem.
  destruct (nth_error (items (fst w)) (itemIndex b)) eqn:E;
    [|apply nth_error_None in E; lia].
  eexists. split; [reflexivity|]. cbn [fst snd _unmountItem set_children children].
  split; [reflexivity|]. split.
  - intros H. split; [apply remove_first_absent; exact H|apply remove_first_last; [exact H|reflexivity]].
  - intros c cs Hc Hi. rewrite Hc. cbn [app remove_first]. rewrite Hi, Nat.eqb_refl. reflexivity.
Qed.

Lemma mount_unmount_round_trip_witness :
  (itemIndex (mkGeomBox (gbox boxD) 2) < List.length (items (fst world3)))%nat /\
  exists w1,
    _mountItem (Some (mkGeomBox (gbox boxD) 2)) world3 = Ok w1 /\
    children (fst (_unmountItem 2 w1)) = children (fst world3).
Proof.
  assert (Hlt : (itemIndex (mkGeomBox (gbox boxD) 2) < List.length (items (fst world3)))%nat)
    by (cbn; lia).
  split; [exact Hlt|].
  destruct (@mount_unmount_round_trip (mkGeomBox (gbox boxD) 2) world3 Hlt)
    as [w1 [E [_ [H _]]]].
  exists w1. split; [exact E|]. apply H.
  intros c [Hc|[Hc|[]]]; subst c; discriminate.
Defined.

(** ** Columns *)

Lemma Fin_Qred_ext (a b : Q) : (a == b)%Q -> Fin (Qred a) = Fin (Qred b).
Proof. intros H. f_equal. apply Qred_complete. exact H. Qed.

Lemma Qred_inject_Z (z : Z) : Qred (inject_Z z) = inject_Z z.
Proof.
  unfold Qred, inject_Z.
  pose proof (Z.ggcd_gcd z 1) as Hg. pose proof (Z.ggcd_correct_divisors z 1) as Hd.
  destruct (Z.ggcd z 1) as [g [aa bb]]. cbn [fst] in Hg. rewrite Z.gcd_1_r in Hg. subst g.
  destruct Hd as [Ha Hb]. rewrite Z.mul_1_l in Ha, Hb. subst aa bb. reflexivity.
Qed.

Lemma Math_max_1_exact (z : Z) : Math_max (of_Z 1) (of_Z z) = of_Z (Z.max 1 z).
Proof.
  unfold Math_max, of_Z. cbn [nlt].
  destruct (Qltb (inject_Z 1) (inject_Z z)) eqn:E.
  - apply Qltb_true in E. rewrite <- Zlt_Qlt in E. rewrite Z.max_r by lia. reflexivity.
  - apply Qltb_false in E. rewrite <- Zle_Qle in E. rewrite Z.max_l by lia. reflexivity.
Qed.

Lemma Qfloor_div_Z (a b : Z) : (0 < b)%Z -> Qfloor (inject_Z a / inject_Z b) = (a / b)%Z.
Proof.
  intros Hb. destruct b as [|p|p]; try lia.
  rewrite <- Qmake_Qdiv. reflexivity.
Qed.

Lemma Qceiling_div_Z (a b : Z) : (0 < b)%Z -> Qceiling (inject_Z a / inject_Z b) = (- ((- a) / b))%Z.
Proof.
  intros Hb. unfold Qceiling. f_equal.
  rewrite <- (Qfloor_div_Z (- a) Hb). apply Qfloor_comp.
  rewrite inject_Z_opp. field. intros E. unfold Qeq in E. cbn in E. lia.
Qed.

Lemma inject_Z_nonzero (z : Z) : (z <> 0)%Z -> ~ (inject_Z z == 0)%Q.
Proof. intros Hz E. unfold Qeq in E. cbn in E. lia. Qed.

(** Column count and width under a valid configuration. *)
Lemma resolveColumns_exact (w : Q) (o : Options) :
  valid_options o ->
  exists (z : Z) (cw g : Q),
    (1 <= z)%Z /\ gap o = Fin g /\ (0 <= g)%Q /\
    resolveColumns (Fin w) o = (of_Z z, Fin cw) /\
    (cw == (w - (inject_Z z - 1) * g) / inject_Z z)%Q /\
    (forall c, columns o = ColumnsAuto -> columnWidth o = Fin c ->
               z = Z.max 1 (Qfloor ((w + g) / (c + g)))) /\
    (forall c, columns o = ColumnsNum c -> c = of_Z z).
Proof.
  intros [[g [Hg Hg0]] [_ [[c [Hc Hc0]] Hcols]]].
  assert (Hcw : forall z, (1 <= z)%Z ->
            exists cw, ((Fin w - (of_Z z - of_Z 1) * Fin g) / of_Z z)%num = Fin cw /\
                       (cw == (w - (inject_Z z - 1) * g) / inject_Z z)%Q).
  { intros z Hz. unfold of_Z. cbn [nsub nadd nneg nmul ndiv].
    rewrite (Qis0_false (inject_Z_nonzero (z:=z) ltac:(lia))).
    eexists. split; [reflexivity|]. rewrite !Qred_correct.
    change (inject_Z 1) with 1%Q. field. apply inject_Z_nonzero. lia. }
  unfold resolveColumns. destruct Hcols as [Hauto | [z [Hz Hnum]]].
  - rewrite Hauto, Hg, Hc. cbn [nadd ndiv].
    rewrite Qis0_false.
    + cbn [Math_floor]. rewrite Math_max_1_exact.
      set (z := Z.max 1 (Qfloor (Qred (Qred (w + g) / Qred (c + g))))).
      destruct (Hcw z ltac:(lia)) as [cw [E Ecw]].
      exists z, cw, g. split; [lia|]. split; [reflexivity|]. split; [exact Hg0|].
      split; [rewrite E; reflexivity|]. split; [exact Ecw|]. split; [|discriminate].
      intros c' _ Hc'. inversion Hc'; subst c'. unfold z. f_equal. apply Qfloor_comp.
      rewrite !Qred_correct. reflexivity.
    + rewrite Qred_correct. intros E.
      assert (H : (0 < c + g)%Q) by lra.
      rewrite E in H. exact (Qlt_irrefl _ H).
  - rewrite Hnum, Hg. destruct (Hcw z ltac:(lia)) as [cw [E Ecw]].
    exists z, cw, g. split; [lia|]. split; [reflexivity|]. split; [exact Hg0|].
    split; [rewrite E; reflexivity|]. split; [exact Ecw|]. split; [discriminate|].
    intros c' Hc'. inversion Hc'. reflexivity.
Qed.

Lemma Fin_int_ext (a : Q) (z : Z) : (a == inject_Z z)%Q -> Fin (Qred a) = of_Z z.
Proof.
  intros H. unfold of_Z. rewrite <- (Qred_inject_Z z). apply Fin_Qred_ext. exact H.
Qed.

Lemma nrem_nat (k : nat) (z : Z) :
  (1 <= z)%Z -> nrem (of_nat k) (of_Z z) = of_Z (Z.of_nat k mod z).
Proof.
  intros Hz. unfold nrem, of_nat, of_Z.
  rewrite (Qis0_false (inject_Z_nonzero (z:=z) ltac:(lia))).
  apply Fin_int_ext. destruct z as [|p|p]; try lia.
  cbn [Qdiv Qmult Qinv inject_Z Qnum Qden]. rewrite Z.mul_1_r, Pos.mul_1_l.
  rewrite Z.quot_div_nonneg by lia.
  rewrite (Z.mod_eq (Z.of_nat k) (Z.pos p)) by lia.
  unfold Z.sub. rewrite inject_Z_plus, inject_Z_opp, inject_Z_mult.
  unfold inject_Z. ring.
Qed.

Lemma floor_div_nat (k : nat) (z : Z) :
  (1 <= z)%Z -> Math_floor (of_nat k / of_Z z)%num = of_Z (Z.of_nat k / z).
Proof.
  intros Hz. unfold of_nat, of_Z. cbn [ndiv].
  rewrite (Qis0_false (inject_Z_nonzero (z:=z) ltac:(lia))). cbn [Math_floor]. unfold of_Z.
  do 2 f_equal. rewrite <- (Qfloor_div_Z (Z.of_nat k) (b:=z)) by lia.
  apply Qfloor_comp. apply Qred_correct.
Qed.

Lemma ceil_div_nat (k : nat) (z : Z) :
  (1 <= z)%Z -> (1 <= k)%nat ->
  Math_ceil (of_nat k / of_Z z)%num = of_Z ((Z.of_nat k - 1) / z + 1).
Proof.
  intros Hz Hk. unfold of_nat, of_Z. cbn [ndiv].
  rewrite (Qis0_false (inject_Z_nonzero (z:=z) ltac:(lia))). cbn [Math_ceil]. unfold of_Z.
  do 2 f_equal.
  assert (E : Qceiling (Qred (inject_Z (Z.of_nat k) / inject_Z z))
              = Qceiling (inject_Z (Z.of_nat k) / inject_Z z)).
  { unfold Qceiling. f_equal. apply Qfloor_comp. rewrite Qred_correct. reflexivity. }
  rewrite E, Qceiling_div_Z by lia.
  set (n := Z.of_nat k). assert (Hn : (1 <= n)%Z) by lia. clearbody n.
  pose proof (Z.div_mod (- n) z ltac:(lia)) as H1.
  pose proof (Z.mod_pos_bound (- n) z ltac:(lia)) as H2.
  pose proof (Z.div_mod (n - 1) z ltac:(lia)) as H3.
  pose proof (Z.mod_pos_bound (n - 1) z ltac:(lia)) as H4.
  nia.
Qed.

(** ** The grid *)

Lemma nth_error_map_seq {A : Type} (f : nat -> A) (n k : nat) :
  (k < n)%nat -> nth_error (map f (seq 0 n)) k = Some (f k).
Proof.
  intros Hk. rewrite nth_error_map, nth_error_seq.
  replace (k <? n)%nat with true by (symmetry; apply Nat.ltb_lt; exact Hk). reflexivity.
Qed.

(** ** Empty input, continued *)

Lemma ceil_div_zero (z : Z) : (1 <= z)%Z -> Math_ceil (of_nat 0 / of_Z z)%num = of_Z 0.
Proof.
  intros Hz. unfold of_nat, of_Z. cbn [ndiv Z.of_nat].
  rewrite (Qis0_false (inject_Z_nonzero (z:=z) ltac:(lia))). reflexivity.
Qed.



(** ** The grid *)

(** X9.  Under a valid configuration and a finite container width, item [k]
    of the grid is the square cell of column [k mod z] and row [k / z]
    ([z] the column count), and the container height is that of
    [ceil(n / z)] rows of cells, each with the gap below it, less one gap. *)
Theorem grid_cells (items : list Item) (W : num) (o : Options) :
  valid_options o -> finite W ->
  exists (z : Z) (colW : num),
    (1 <= z)%Z /\ resolveColumns W o = (of_Z z, colW) /\ finite colW /\
    (forall k, (k < List.length items)%nat ->
       nth_error (boxes (_computeGridLayout items W o)) k =
         Some {| left := (of_Z (Z.of_nat k mod z) * (colW + gap o))%num;
                 top := (of_Z (Z.of_nat k / z) * (colW + gap o))%num;
                 width := colW; height := colW |}) /\
    containerHeight (_computeGridLayout items W o) =
      (of_Z ((Z.of_nat (List.length items) + z - 1) / z) * (colW + gap o) - gap o)%num.
Proof.
  intros Ho [w HW]. subst W.
  destruct (resolveColumns_exact w Ho) as [z [cw [g [Hz [Hg [Hg0 [E _]]]]]]].
  exists z, (Fin cw). split; [exact Hz|]. split; [exact E|]. split; [exists cw; reflexivity|].
  unfold _computeGridLayout. rewrite E. cbn [boxes containerHeight]. split.
  - intros k Hk. rewrite nth_error_map_seq by exact Hk. unfold grid_box.
    rewrite nrem_nat, floor_div_nat by exact Hz. reflexivity.
  - destruct (List.length items) as [|n] eqn:En.
    + rewrite ceil_div_zero by exact Hz.
      replace ((Z.of_nat 0 + z - 1) / z)%Z with 0%Z; [reflexivity|].
      symmetry. apply Z.div_small. lia.
    + rewrite ceil_div_nat; [|exact Hz|lia].
      replace ((Z.of_nat (S n) + z - 1) / z)%Z with ((Z.of_nat (S n) - 1) / z + 1)%Z;
        [reflexivity|].
      replace (Z.of_nat (S n) + z - 1)%Z with (Z.of_nat (S n) - 1 + 1 * z)%Z by lia.
      rewrite Z.div_add by lia. reflexivity.
Qed.

Lemma grid_cells_witness :
  valid_options optionsA /\ finite (of_Z 900) /\
  exists (z : Z) (colW : num),
    resolveColumns (of_Z 900) optionsA = (of_Z z, colW) /\
    containerHeight (_computeGridLayout itemsA (of_Z 900) optionsA) =
      (of_Z ((Z.of_nat (List.length itemsA) + z - 1) / z) * (colW + gap optionsA)
       - gap optionsA)%num.
Proof.
  split; [exact valid_optionsA|]. split; [exact finite_900|].
  destruct (@grid_cells itemsA (of_Z 900) optionsA valid_optionsA finite_900)
    as [z [colW [_ [E [_ [_ H]]]]]].
  exists z, colW. split; [exact E|exact H].
Defined.

(** ** The justified engine: how boxes follow one another *)

Section JustifiedChain.
Variable ars : list num.
Variables W T g : num.

Lemma row_boxes_next (t h : num) (c k : nat) (l : num) (m : nat) (b1 b2 : Box) :
  nth_error (row_boxes ars g t h k c l) m = Some b1 ->
  nth_error (row_boxes ars g t h k c l) (S m) = Some b2 ->
  left b2 = (left b1 + (width b1 + g))%num.
Proof.
  revert k l m. induction c as [|c IH]; intros k l m H1 H2; cbn [row_boxes] in H1, H2.
  - destruct m; discriminate H1.
  - destruct m as [|m]; cbn [nth_error] in H1, H2.
    + inversion H1; subst b1. cbn [left width].
      destruct c as [|c]; cbn [row_boxes nth_error] in H2; [discriminate|].
      inversion H2. reflexivity.
    + exact (IH _ _ _ H1 H2).
Qed.

Lemma last_box_app (bs rw : list Box) :
  rw <> [] -> last_box (bs ++ rw) = last_box rw.
Proof.
  intros Hrw. unfold last_box. rewrite length_app.
  assert (0 < List.length rw)%nat by (destruct rw; [contradiction|cbn; lia]).
  rewrite nth_error_app2 by lia. f_equal. lia.
Qed.

Lemma chained_app (bs rw : list Box) :
  chained g bs -> chained g rw ->
  (forall b1 b2, last_box bs = Some b1 -> nth_error rw 0 = Some b2 -> follows g b1 b2) ->
  chained g (bs ++ rw).
Proof.
  intros Hbs Hrw Hj k b1 b2 H1 H2.
  destruct (Nat.lt_ge_cases (S k) (List.length bs)) as [Hk|Hk].
  - rewrite nth_error_app1 in H1, H2 by lia. exact (Hbs _ _ _ H1 H2).
  - destruct (Nat.eq_dec (S k) (List.length bs)) as [E|E].
    + rewrite nth_error_app1 in H1 by lia. rewrite nth_error_app2 in H2 by lia.
      replace (S k - List.length bs)%nat with 0%nat in H2 by lia.
      apply Hj; [|exact H2]. unfold last_box. replace (List.length bs - 1)%nat with k by lia.
      exact H1.
    + rewrite nth_error_app2 in H1, H2 by lia.
      replace (S k - List.length bs)%nat with (S (k - List.length bs)) in H2 by lia.
      exact (Hrw _ _ _ H1 H2).
Qed.

Lemma chained_row (t h : num) (c k : nat) (l : num) : chained g (row_boxes ars g t h k c l).
Proof.
  intros m b1 b2 H1 H2. left.
  pose proof (row_boxes_next _ _ _ _ _ _ H1 H2) as Hn.
  apply row_boxes_nth in H1. apply row_boxes_nth in H2.
  destruct H1 as [T1 [H1 _]]. destruct H2 as [T2 [H2 _]].
  split; [congruence|]. split; [congruence|exact Hn].
Qed.

(** Appending a row, or the fallback box, one gap below the last box. *)
Lemma chain_step (bs rw : list Box) (t h : num) :
  chained g bs -> below_last g bs t -> rw <> [] -> chained g rw ->
  (forall b, In b rw -> top b = t /\ height b = h) ->
  chained g (bs ++ rw) /\ below_last g (bs ++ rw) (t + (h + g))%num.
Proof.
  intros Hc Hb Hne Hrw Hall. split.
  - apply chained_app; [exact Hc|exact Hrw|].
    intros b1 b2 H1 H2. right. unfold below_last in Hb. rewrite H1 in Hb.
    destruct (Hall b2 (nth_error_In _ _ H2)) as [Ht _]. congruence.
  - unfold below_last. rewrite last_box_app by exact Hne.
    destruct (last_box rw) as [b|] eqn:E; [|exact I].
    destruct (Hall b (nth_error_In _ _ E)) as [Ht Hh]. congruence.
Qed.

Lemma justified_loop_chained (behavior : string) (fuel i : nat) (t : num) (bs : list Box) :
  chained g bs -> below_last g bs t ->
  let r := justified_loop ars W T g behavior fuel i t bs in
  chained g (boxes r) /\ below_last g (boxes r) (containerHeight r).
Proof.
  revert i t bs. induction fuel as [|fuel IH]; intros i t bs Hc Hb; cbn [justified_loop].
  - split; assumption.
  - destruct (i <? List.length ars)%nat eqn:Ei; [|split; assumption].
    destruct (findBreak ars W T g i) as [best|] eqn:Eb.
    + pose proof (findBreak_bounds _ _ _ _ _ Eb) as Hbd.
      destruct ((best =? List.length ars - 1)%nat && String.eqb behavior "hide");
        [split; assumption|].
      rewrite for_range_push_box.
      match goal with
      | |- context [row_boxes ars g t ?h i ?c ?l] =>
          destruct (@chain_step bs (row_boxes ars g t h i c l) t h Hc Hb) as [Hc' Hb']
      end.
      * intros E. apply (f_equal (@List.length Box)) in E.
        rewrite row_boxes_length in E. cbn in E. lia.
      * apply chained_row.
      * intros b Hin. apply In_nth_error in Hin. destruct Hin as [m Hm].
        apply row_boxes_nth in Hm. tauto.
      * apply IH; assumption.
    + match goal with
      | |- context [bs ++ [?b]] =>
          destruct (@chain_step bs [b] t T Hc Hb) as [Hc' Hb']
      end.
      * discriminate.
      * intros k b1 b2 H1 H2. destruct k; cbn in H2; [discriminate|destruct k; discriminate].
      * intros b [Hin|[]]. subst b. split; reflexivity.
      * apply IH; assumption.
Qed.
End JustifiedChain.

(** X10.  In the output of the justified engine, for every input and every
    last-row behaviour, each box comes right after the one before it: in the
    same row, with the same top and height and exactly one gap to the right
    of it, or in a row that starts exactly one gap below it; and the
    container height is the bottom of the last box plus one gap (0 when
    there is no box). *)
Theorem justified_boxes_chained (items : list Item) (W : num) (o : Options) :
  let r := _computeJustifiedLayout items W o in
  chained (gap o) (boxes r) /\
  match last_box (boxes r) with
  | Some b => containerHeight r = (top b + (height b + gap o))%num
  | None => containerHeight r = of_Z 0
  end.
Proof.
  cbv zeta. unfold _computeJustifiedLayout.
  destruct (@justified_loop_chained (map aspectRatio items) W (targetRowHeight o) (gap o)
              (lastRowBehavior o) (List.length items) 0 (of_Z 0) []) as [Hc Hb].
  - intros k b1 b2 H. destruct k; discriminate H.
  - exact I.
  - split; [exact Hc|]. unfold below_last in Hb.
    destruct (last_box (boxes _)) as [b|] eqn:E; [exact Hb|].
    unfold last_box in E. apply nth_error_None in E.
    match goal with |- containerHeight ?r = _ => set (res := r) in * end.
    assert (Hnil : boxes res = []).
    { destruct (boxes res); [reflexivity|cbn in E; lia]. }
    clear E Hb Hc. revert Hnil. unfold res. clear res.
    generalize (List.length items) as fuel.
    assert (H : forall fuel i t bs,
              boxes (justified_loop (map aspectRatio items) W (targetRowHeight o) (gap o)
                       (lastRowBehavior o) fuel i t bs) = [] ->
              bs = [] /\
              containerHeight (justified_loop (map aspectRatio items) W (targetRowHeight o)
                                 (gap o) (lastRowBehavior o) fuel i t bs) = t).
    { induction fuel as [|fuel IH]; intros i t bs; cbn [justified_loop].
      - cbn. auto.
      - destruct (i <? _)%nat; [|cbn; auto].
        destruct (findBreak _ _ _ _ i) as [best|] eqn:Eb.
        + destruct ((best =? _)%nat && _); [cbn; auto|].
          rewrite for_range_push_box. intros Hn. apply IH in Hn. destruct Hn as [Hn _].
          apply (f_equal (@List.length Box)) in Hn.
          rewrite length_app, row_boxes_length in Hn. cbn in Hn.
          apply findBreak_bounds in Eb. lia.
        + intros Hn. apply IH in Hn. destruct Hn as [Hn _].
          apply (f_equal (@List.length Box)) in Hn. rewrite length_app in Hn. cbn in Hn. lia. }
    intros fuel Hnil. exact (proj2 (H fuel 0%nat (of_Z 0) [] Hnil)).
Qed.

(** ** Masonry: the shortest column *)

Lemma Math_min_fold (qs : list Q) (a : Q) :
  exists m, fold_left Math_min (map Fin qs) (Fin a) = Fin m /\
            (m = a \/ In m qs) /\ (m <= a)%Q /\ (forall q, In q qs -> m <= q)%Q.
Proof.
  revert a. induction qs as [|q qs IH]; intros a; cbn [map fold_left].
  - exists a. split; [reflexivity|]. split; [left; reflexivity|]. split; [lra|intros q []].
  - unfold Math_min at 2. cbn [nlt]. destruct (Qltb q a) eqn:E.
    + apply Qltb_true in E. destruct (IH q) as [m [Em [Hin [Hle Hall]]]].
      exists m. split; [exact Em|]. split; [right; destruct Hin; [left; congruence|right; assumption]|].
      split; [lra|]. intros q' [Hq|Hq]; [subst; exact Hle|exact (Hall _ Hq)].
    + apply Qltb_false in E. destruct (IH a) as [m [Em [Hin [Hle Hall]]]].
      exists m. split; [exact Em|]. split; [destruct Hin; [left; assumption|right; right; assumption]|].
      split; [exact Hle|]. intros q' [Hq|Hq]; [subst; lra|exact (Hall _ Hq)].
Qed.

Lemma Math_min_spread_fin (qs : list Q) :
  qs <> [] ->
  exists m, Math_min_spread (map Fin qs) = Fin m /\ In m qs /\ (forall q, In q qs -> m <= q)%Q.
Proof.
  destruct qs as [|q qs]; [contradiction|]. intros _.
  unfold Math_min_spread. cbn [map fold_left].
  change (Math_min PInf (Fin q)) with (Fin q).
  destruct (Math_min_fold qs q) as [m [Em [Hin [Hle Hall]]]].
  exists m. split; [exact Em|]. split.
  - destruct Hin; [left; congruence|right; assumption].
  - intros q' [Hq|Hq]; [subst; exact Hle|exact (Hall _ Hq)].
Qed.

Lemma Math_max_fold (qs : list Q) (a : Q) :
  exists m, fold_left Math_max (map Fin qs) (Fin a) = Fin m /\
            (a <= m)%Q /\ (forall q, In q qs -> q <= m)%Q.
Proof.
  revert a. induction qs as [|q qs IH]; intros a; cbn [map fold_left].
  - exists a. split; [reflexivity|]. split; [lra|intros q []].
  - unfold Math_max at 2. cbn [nlt]. destruct (Qltb a q) eqn:E.
    + apply Qltb_true in E. destruct (IH q) as [m [Em [Hle Hall]]].
      exists m. split; [exact Em|]. split; [lra|].
      intros q' [Hq|Hq]; [subst; exact Hle|exact (Hall _ Hq)].
    + apply Qltb_false in E. destruct (IH a) as [m [Em [Hle Hall]]].
      exists m. split; [exact Em|]. split; [exact Hle|].
      intros q' [Hq|Hq]; [subst; lra|exact (Hall _ Hq)].
Qed.

Lemma Math_max_spread_fin (qs : list Q) :
  qs <> [] ->
  exists m, Math_max_spread (map Fin qs) = Fin m /\ (forall q, In q qs -> q <= m)%Q.
Proof.
  destruct qs as [|q qs]; [contradiction|]. intros _.
  unfold Math_max_spread. cbn [map fold_left].
  change (Math_max NInf (Fin q)) with (Fin q).
  destruct (Math_max_fold qs q) as [m [Em [Hle Hall]]].
  exists m. split; [exact Em|].
  intros q' [Hq|Hq]; [subst; exact Hle|exact (Hall _ Hq)].
Qed.

(** [indexOf] finds the first column whose height equals the minimum. *)
Lemma indexOf_from_first (qs : list Q) (m : Q) (k0 : Z) :
  (exists q, In q qs /\ q == m)%Q ->
  exists j, indexOf_from (map Fin qs) (Fin m) k0 = (k0 + Z.of_nat j)%Z /\
            (j < List.length qs)%nat /\ (nth j qs 0 == m)%Q /\
            (forall j', (j' < j)%nat -> ~ (nth j' qs 0 == m)%Q).
Proof.
  revert k0. induction qs as [|q qs IH]; intros k0 [q0 [Hin Hq0]]; [destruct Hin|].
  cbn [map indexOf_from nseq]. destruct (Qeq_bool q m) eqn:E.
  - apply Qeq_bool_iff in E. exists 0%nat. split; [lia|]. split; [cbn; lia|].
    split; [exact E|]. intros j' Hj'. lia.
  - assert (Hne : ~ (q == m)%Q) by (intros H; apply Qeq_bool_iff in H; congruence).
    destruct (IH (k0 + 1)%Z) as [j [Ej [Hj [Hv Hfirst]]]].
    { destruct Hin as [Hin|Hin]; [subst q0; contradiction|]. exists q0. auto. }
    exists (S j). split; [rewrite Ej; lia|]. split; [cbn; lia|]. split; [exact Hv|].
    intros [|j'] Hj'; [exact Hne|]. apply Hfirst. lia.
Qed.

Lemma add_at_Fin (qs : list Q) (k : nat) (d : Q) :
  add_at (map Fin qs) k (Fin d) = map Fin (set_nth qs k (Qred (nth k qs 0 + d))).
Proof.
  revert k. induction qs as [|q qs IH]; intros k; [destruct k; reflexivity|].
  destruct k as [|k]; cbn [map add_at set_nth nth]; [reflexivity|]. rewrite IH. reflexivity.
Qed.

Lemma set_nth_length (qs : list Q) (k : nat) (v : Q) :
  List.length (set_nth qs k v) = List.length qs.
Proof.
  revert k. induction qs as [|q qs IH]; intros k; [destruct k; reflexivity|].
  destruct k; cbn [set_nth List.length]; [reflexivity|]. rewrite IH. reflexivity.
Qed.

Lemma set_nth_same (qs : list Q) (k : nat) (v : Q) :
  (k < List.length qs)%nat -> nth k (set_nth qs k v) 0 = v.
Proof.
  revert k. induction qs as [|q qs IH]; intros k Hk; [cbn in Hk; lia|].
  destruct k; cbn [set_nth nth]; [reflexivity|]. apply IH. cbn in Hk. lia.
Qed.

Lemma set_nth_other (qs : list Q) (k j : nat) (v : Q) :
  j <> k -> nth j (set_nth qs k v) 0 = nth j qs 0.
Proof.
  revert k j. induction qs as [|q qs IH]; intros k j Hj; [destruct k, j; reflexivity|].
  destruct k, j; cbn [set_nth nth]; try reflexivity; try lia. apply IH. lia.
Qed.

Lemma set_nth_In (qs : list Q) (k : nat) (v q : Q) :
  In q (set_nth qs k v) -> q = v \/ In q qs.
Proof.
  revert k. induction qs as [|q0 qs IH]; intros k; [destruct k; intros []|].
  destruct k; cbn [set_nth]; intros [H|H]; auto.
  - right. right. exact H.
  - right. left. exact H.
  - destruct (IH _ H); [left; assumption|right; right; assumption].
Qed.

Lemma Fin_inj (a b : Q) : Fin a = Fin b -> a = b.
Proof. congruence. Qed.

Lemma column_left_inj (c : Q) (a b : nat) :
  (0 < c)%Q ->
  (of_Z (Z.of_nat a) * Fin c)%num = (of_Z (Z.of_nat b) * Fin c)%num -> a = b.
Proof.
  intros Hc H. unfold of_Z in H. cbn [nmul] in H. apply Fin_inj in H.
  apply Qred_eq_iff in H. rename H into E.
  assert (Hab : (inject_Z (Z.of_nat a) == inject_Z (Z.of_nat b))%Q).
  { apply (Qmult_inj_r _ _ c); [intros H0; rewrite H0 in Hc; exact (Qlt_irrefl _ Hc)|exact E]. }
  unfold Qeq in Hab. cbn in Hab. lia.
Qed.

(** Placing one item keeps [masonry_inv]. *)
Lemma masonry_step_inv (cw gg a : Q) (qs : list Q) (bs : list Box) (item : Item) :
  (0 < cw)%Q -> (0 <= gg)%Q -> aspectRatio item = Fin a -> (0 < a)%Q -> qs <> [] ->
  masonry_inv (Fin cw) (Fin gg) qs bs ->
  exists qs' b,
    masonry_step (Fin cw) (Fin gg) (map Fin qs, bs) item = (map Fin qs', bs ++ [b]) /\
    List.length qs' = List.length qs /\
    masonry_inv (Fin cw) (Fin gg) qs' (bs ++ [b]).
Proof.
  intros Hcw Hgg Ha Ha0 Hne [I1 [I2 I3]].
  unfold masonry_step. cbn [fst snd]. rewrite Ha.
  destruct (Math_min_spread_fin Hne) as [m [Em [Hm Hmin]]]. rewrite Em.
  destruct (@indexOf_from_first qs m 0) as [j [Ej [Hj [Hv _]]]].
  { exists m. split; [exact Hm|reflexivity]. }
  unfold indexOf. rewrite Ej. cbn [Z.add].
  unfold array_add_at.
  replace (Z.of_nat j <? 0)%Z with false by (symmetry; apply Z.ltb_ge; lia).
  rewrite Nat2Z.id. cbn [ndiv].
  rewrite Qis0_false by (intros E; rewrite E in Ha0; exact (Qlt_irrefl _ Ha0)).
  cbn [nadd]. rewrite add_at_Fin.
  set (hq := Qred (cw / a)).
  assert (Hhq : (0 < hq)%Q).
  { unfold hq. rewrite Qred_correct. apply Qlt_shift_div_l; [exact Ha0|lra]. }
  set (v := Qred (nth j qs 0 + Qred (hq + gg))).
  assert (Hv' : (v == nth j qs 0 + hq + gg)%Q).
  { unfold v. rewrite !Qred_correct. ring. }
  assert (Hm0 : (0 <= m)%Q).
  { rewrite Forall_forall in I1. exact (I1 _ Hm). }
  eexists. eexists. split; [reflexivity|]. split; [apply set_nth_length|].
  assert (Hmono : forall k, (nth k qs 0 <= nth k (set_nth qs j v) 0)%Q).
  { intros k. destruct (Nat.eq_dec k j) as [E|E].
    - subst k. rewrite set_nth_same by exact Hj. lra.
    - rewrite set_nth_other by exact E. lra. }
  split; [|split].
  - apply Forall_forall. intros q Hq. apply set_nth_In in Hq. destruct Hq as [Hq|Hq].
    + subst q. lra.
    + rewrite Forall_forall in I1. exact (I1 _ Hq).
  - intros b Hb. apply in_app_iff in Hb. destruct Hb as [Hb|[Hb|[]]].
    + destruct (I2 b Hb) as [k [tq [e [Hk [Hc [Hw [Ht [Ht0 [He Hle]]]]]]]]].
      exists k, tq, e. rewrite set_nth_length.
      repeat (split; [assumption|]). pose proof (Hmono k). lra.
    + subst b. exists j, m, (Qred (m + Qred (hq + gg))). rewrite set_nth_length.
      split; [exact Hj|]. split; [reflexivity|]. split; [reflexivity|].
      split; [reflexivity|]. split; [exact Hm0|]. split; [reflexivity|].
      rewrite set_nth_same by exact Hj. rewrite Hv', !Qred_correct. lra.
  - intros i1 i2 b1 b2 Hlt H1 H2 Hleft.
    destruct (Nat.lt_ge_cases i2 (List.length bs)) as [Hi2|Hi2].
    + rewrite nth_error_app1 in H1, H2 by lia. exact (I3 _ _ _ _ Hlt H1 H2 Hleft).
    + assert (Ei2 : i2 = List.length bs).
      { match type of H2 with
        | nth_error ?l _ = _ =>
            assert (Hlen : (i2 < List.length l)%nat)
              by (apply nth_error_Some; rewrite H2; discriminate)
        end.
        rewrite length_app in Hlen. cbn in Hlen. lia. }
      subst i2. rewrite nth_error_app1 in H1 by lia.
      rewrite nth_error_app2, Nat.sub_diag in H2 by lia. cbn [nth_error] in H2.
      injection H2 as Eb2. subst b2. cbn [top left] in Hleft |- *.
      destruct (I2 b1 (nth_error_In _ _ H1)) as [k [tq [e [Hk [Hc [_ [_ [_ [He Hle]]]]]]]]].
      unfold in_column in Hc. cbn [nadd] in Hc. rewrite Hc in Hleft.
      assert (Hcpos : (0 < Qred (cw + gg))%Q) by (rewrite Qred_correct; lra).
      apply (@column_left_inj _ _ _ Hcpos) in Hleft. subst k.
      rewrite He. cbn [nlt]. apply Qltb_false. lra.
Qed.

Lemma masonry_fold_inv (cw gg : Q) (items : list Item) (qs : list Q) (bs : list Box) :
  (0 < cw)%Q -> (0 <= gg)%Q ->
  Forall (fun it => positive_num (aspectRatio it)) items -> qs <> [] ->
  masonry_inv (Fin cw) (Fin gg) qs bs ->
  exists qs' bs',
    fold_left (masonry_step (Fin cw) (Fin gg)) items (map Fin qs, bs) = (map Fin qs', bs') /\
    List.length qs' = List.length qs /\ masonry_inv (Fin cw) (Fin gg) qs' bs'.
Proof.
  intros Hcw Hgg. revert qs bs.
  induction items as [|it items IH]; intros qs bs Hit Hne Hinv; cbn [fold_left].
  - exists qs, bs. auto.
  - inversion Hit as [|? ? [a [Ha Ha0]] Hits]; subst.
    destruct (@masonry_step_inv cw gg a qs bs it Hcw Hgg Ha Ha0 Hne Hinv) as [qs1 [b [E [Hl Hinv1]]]].
    rewrite E.
    destruct (IH qs1 (bs ++ [b]) Hits) as [qs' [bs' [E' [Hl' Hinv']]]].
    + intros H0. subst qs1. destruct qs; [contradiction|discriminate Hl].
    + exact Hinv1.
    + exists qs', bs'. split; [exact E'|]. split; [congruence|exact Hinv'].
Qed.

(** X12.  Masonry, under a valid configuration with a finite container
    width, positive finite aspect ratios, a positive column width and a
    column count the engine can work with (below [2^32] and not more than
    the number of arguments it accepts in a call): the
    engine returns a layout in which every box stands in one of the
    [colCount] columns with the column width, has a top that is not negative
    and ends, gap included, within the container height; and of two boxes
    of the same column the later one starts at or below the bottom of the
    earlier one plus the gap, so boxes of a column never overlap. *)
Theorem masonry_columns (max_arguments : nat) (items : list Item) (W : num) (o : Options) :
  valid_options o -> finite W ->
  Forall (fun it => positive_num (aspectRatio it)) items ->
  positive_num (snd (resolveColumns W o)) ->
  columns_supported max_arguments (fst (resolveColumns W o)) ->
  let colW := snd (resolveColumns W o) in
  let g := gap o in
  exists r z,
    _computeMasonryLayout max_arguments items W o = Ok r /\
    (1 <= z)%Z /\ fst (resolveColumns W o) = of_Z z /\
    (forall b, In b (boxes r) ->
       exists k, (Z.of_nat k < z)%Z /\ in_column colW g k b /\ width b = colW /\
                 (top b <? of_Z 0)%num = false /\
                 (containerHeight r <? bottom g b)%num = false) /\
    (forall i j b1 b2, (i < j)%nat ->
       nth_error (boxes r) i = Some b1 -> nth_error (boxes r) j = Some b2 ->
       left b1 = left b2 -> (top b2 <? bottom g b1)%num = false).
Proof.
  intros Ho [w HW] Hit Hpos [z' [Ez' [Hz' Hl']]]. subst W. cbv zeta.
  destruct (resolveColumns_exact w Ho) as [z [cw [gg [Hz [Hg [Hg0 [E _]]]]]]].
  rewrite (@computeMasonryLayout_supported max_arguments items (Fin w) o z' Ez' Hz' Hl').
  cbv zeta.
  rewrite E in Hpos, Ez' |- *. cbn [fst snd] in *.
  assert (z' = z) by (unfold of_Z, inject_Z in Ez'; injection Ez' as Ez'; symmetry; exact Ez').
  subst z'.
  destruct Hpos as [cw' [Hcw' Hcw0]]. apply Fin_inj in Hcw'. subst cw'.
  rewrite Hg.
  assert (Hrep : repeat (of_Z 0) (Z.to_nat z) = map Fin (repeat 0%Q (Z.to_nat z))).
  { rewrite map_repeat. reflexivity. }
  rewrite Hrep.
  destruct (@masonry_fold_inv cw gg items (repeat 0%Q (Z.to_nat z)) [] Hcw0 Hg0 Hit)
    as [qs [bs [Ef [Hl [I1 [I2 I3]]]]]].
  { intros H0. apply (f_equal (@List.length Q)) in H0. rewrite repeat_length in H0.
    cbn in H0. lia. }
  { split; [apply Forall_forall; intros q Hq; apply repeat_spec in Hq; subst q; lra|].
    split; [intros b []|]. intros i j b1 b2 _ H1. destruct i; discriminate H1. }
  rewrite Ef. cbn [fst snd]. rewrite repeat_length in Hl.
  assert (Hqs : qs <> []).
  { intros H0. subst qs. cbn in Hl. lia. }
  destruct (Math_max_spread_fin Hqs) as [M [EM HM]].
  eexists. exists z. split; [reflexivity|]. cbn [boxes containerHeight].
  split; [exact Hz|]. split; [reflexivity|]. split; [|exact I3].
  intros b Hb. destruct (I2 b Hb) as [k [tq [e [Hk [Hc [Hw [Ht [Ht0 [He Hle]]]]]]]]].
  exists k. split; [lia|]. split; [exact Hc|]. split; [exact Hw|]. split.
  - rewrite Ht. unfold of_Z. cbn [nlt]. apply Qltb_false. exact Ht0.
  - rewrite EM, He. cbn [nlt]. apply Qltb_false.
    assert (nth k qs 0 <= M)%Q by (apply HM, nth_In; exact Hk). lra.
Qed.

Lemma masonry_columns_witness :
  valid_options optionsB /\ finite (of_Z 620) /\
  Forall (fun it => positive_num (aspectRatio it)) itemsB /\
  positive_num (snd (resolveColumns (of_Z 620) optionsB)) /\
  columns_supported 2 (fst (resolveColumns (of_Z 620) optionsB)) /\
  exists r z, _computeMasonryLayout 2 itemsB (of_Z 620) optionsB = Ok r /\ (1 <= z)%Z /\
    (forall i j b1 b2, (i < j)%nat ->
       nth_error (boxes r) i = Some b1 -> nth_error (boxes r) j = Some b2 ->
       left b1 = left b2 -> (top b2 <? bottom (gap optionsB) b1)%num = false).
Proof.
  assert (Ho : valid_options optionsB).
  { split; [exists 20%Q; split; [reflexivity|discriminate]|].
    split; [exists 300%Q; split; reflexivity|].
    split; [exists 300%Q; split; reflexivity|].
    right. exists 2%Z. split; [lia|reflexivity]. }
  assert (HW : finite (of_Z 620)) by (exists 620%Q; reflexivity).
  assert (Hit : Forall (fun it => positive_num (aspectRatio it)) itemsB).
  { repeat constructor; exists 1%Q; split; reflexivity. }
  assert (Hp : positive_num (snd (resolveColumns (of_Z 620) optionsB))).
  { exists 300%Q. split; reflexivity. }
  assert (Hc : columns_supported 2 (fst (resolveColumns (of_Z 620) optionsB))).
  { exists 2%Z. split; [reflexivity|]. split; [split|]; [discriminate|reflexivity|discriminate]. }
  split; [exact Ho|]. split; [exact HW|]. split; [exact Hit|]. split; [exact Hp|].
  split; [exact Hc|].
  destruct (@masonry_columns 2%nat itemsB (of_Z 620) optionsB Ho HW Hit Hp Hc)
    as [r [z [E [Hz [_ [_ H]]]]]].
  exists r, z. split; [exact E|]. split; [exact Hz|exact H].
Defined.

(** X13.  One masonry placement, for any finite column heights: the item
    goes to the first column of minimal height (every column is at least as
    high, every column before it strictly higher), its box starts at that
    height, and only that column grows, by the height of the box plus the
    gap. *)
Theorem masonry_step_shortest (colW g : num) (qs : list Q) (bs : list Box) (item : Item) :
  qs <> [] ->
  exists j m,
    (j < List.length qs)%nat /\ (nth j qs 0 == m)%Q /\
    (forall q, In q qs -> m <= q)%Q /\
    (forall j', (j' < j)%nat -> m < nth j' qs 0)%Q /\
    masonry_step colW g (map Fin qs, bs) item =
      (add_at (map Fin qs) j (colW / aspectRatio item + g)%num,
       bs ++ [ {| left := (of_Z (Z.of_nat j) * (colW + g))%num; top := Fin m;
                  width := colW; height := (colW / aspectRatio item)%num |} ]).
Proof.
  intros Hne. destruct (Math_min_spread_fin Hne) as [m [Em [Hm Hmin]]].
  destruct (@indexOf_from_first qs m 0) as [j [Ej [Hj [Hv Hfirst]]]].
  { exists m. split; [exact Hm|reflexivity]. }
  exists j, m. split; [exact Hj|]. split; [exact Hv|]. split; [exact Hmin|]. split.
  - intros j' Hj'. assert (Hin : In (nth j' qs 0) qs) by (apply nth_In; lia).
    pose proof (Hmin _ Hin) as Hle. pose proof (Hfirst _ Hj') as Hneq.
    apply Qle_lteq in Hle. destruct Hle as [Hlt|Heq]; [exact Hlt|].
    exfalso. apply Hneq. symmetry. exact Heq.
  - unfold masonry_step. cbn [fst snd]. rewrite Em. unfold indexOf. rewrite Ej. cbn [Z.add].
    unfold array_add_at.
    replace (Z.of_nat j <? 0)%Z with false by (symmetry; apply Z.ltb_ge; lia).
    rewrite Nat2Z.id. reflexivity.
Qed.

Lemma masonry_step_shortest_witness :
  [320; 320]%Q <> [] /\
  exists j m,
    (forall j', (j' < j)%nat -> m < nth j' [320; 320]%Q 0)%Q /\
    fst (masonry_step (of_Z 300) (of_Z 20) (map Fin [320; 320]%Q, []) (item_of_ratio (of_Z 1)))
    = add_at (map Fin [320; 320]%Q) j (of_Z 300 / of_Z 1 + of_Z 20)%num.
Proof.
  assert (Hne : [320; 320]%Q <> []) by discriminate.
  split; [exact Hne|].
  destruct (@masonry_step_shortest (of_Z 300) (of_Z 20) [320; 320]%Q []
              (item_of_ratio (of_Z 1)) Hne) as [j [m [_ [_ [_ [Hf E]]]]]].
  exists j, m. split; [exact Hf|]. rewrite E. reflexivity.
Defined.

(** ** Visibility and the buffer *)

(** X14.  A larger buffer never hides a box: with finite scroll position,
    viewport height, container position and box geometry, every index found
    visible with a buffer is found visible with any larger buffer. *)
Theorem larger_buffer_shows_more (e : Env) (b1 b2 : Q) (geo : list GeomBox) (index : nat) :
  finite (scrollY e) -> finite (innerHeight e) -> finite (rect_top e) ->
  Forall (fun box => finite (top (gbox box)) /\ finite (height (gbox box))) geo ->
  (b1 <= b2)%Q ->
  In index (indicesToRender e (Fin b1) geo) -> In index (indicesToRender e (Fin b2) geo).
Proof.
  intros [s Hs] [v Hv] [rt Hrt] Hgeo Hb Hin.
  unfold indicesToRender in *. apply indicesToRender_fold in Hin. apply indicesToRender_fold.
  destruct Hin as [[]|[box [Hbox [Hi Hband]]]]. right. exists box.
  split; [exact Hbox|]. split; [exact Hi|].
  rewrite Forall_forall in Hgeo. destruct (Hgeo _ Hbox) as [[t Ht] [h Hh]].
  unfold in_band, startY, endY in *. rewrite Hs, Hv, Hrt, Ht, Hh in *.
  cbn [nadd nsub nneg] in *.
  apply andb_true_iff in Hband. destruct Hband as [H1 H2]. apply andb_true_iff. split.
  - unfold Math_max, of_Z in *. cbn [nlt] in *.
    match goal with
    | |- context [if Qltb ?x ?y then _ else _] => destruct (Qltb x y) eqn:E2
    end;
    match type of H1 with
    | context [if Qltb ?x ?y then _ else _] => destruct (Qltb x y) eqn:E1
    end; cbn [nlt] in *;
    repeat match goal with
    | H : Qltb _ _ = true |- _ => apply Qltb_true in H; rewrite ?Qred_correct in H
    | H : Qltb _ _ = false |- _ => apply Qltb_false in H; rewrite ?Qred_correct in H
    | |- Qltb _ _ = true => apply Qltb_true; rewrite ?Qred_correct
    end; change (inject_Z 0) with 0%Q in *; lra.
  - cbn [nlt] in *. apply Qltb_true in H2. apply Qltb_true.
    rewrite !Qred_correct in *. lra.
Qed.

Lemma larger_buffer_shows_more_witness :
  finite (scrollY (envD 900)) /\ finite (innerHeight (envD 900)) /\
  finite (rect_top (envD 900)) /\
  Forall (fun box => finite (top (gbox box)) /\ finite (height (gbox box))) [boxD] /\
  (50 <= 100)%Q /\ In 0%nat (indicesToRender (envD 900) (Fin 50) [boxD]) /\
  In 0%nat (indicesToRender (envD 900) (Fin 100) [boxD]).
Proof.
  assert (H1 : finite (scrollY (envD 900))) by (eexists; reflexivity).
  assert (H2 : finite (innerHeight (envD 900))) by (eexists; reflexivity).
  assert (H3 : finite (rect_top (envD 900))) by (eexists; reflexivity).
  assert (H4 : Forall (fun box => finite (top (gbox box)) /\ finite (height (gbox box))) [boxD]).
  { repeat constructor; eexists; reflexivity. }
  assert (H5 : (50 <= 100)%Q) by discriminate.
  assert (H6 : In 0%nat (indicesToRender (envD 900) (Fin 50) [boxD])) by (left; reflexivity).
  repeat (split; [assumption|]).
  exact (@larger_buffer_shows_more (envD 900) 50 100 [boxD] 0 H1 H2 H3 H4 H5 H6).
Defined.

(** ** Throttling *)

Section ThrottleFacts.
Variable A : Type.

(** The invariant of the throttle: a timer is pending exactly while the
    flag is set, and [func] has been applied once per timer scheduled. *)
Lemma throttle_run_inv (evs : list (ThrottleEvent A)) (s s' : ThrottleState A) (n : nat) :
  timers s = (if inThrottle s then 1 else 0)%nat ->
  List.length (applied s) = (n + timers s)%nat ->
  throttle_run s evs = Some s' ->
  timers s' = (if inThrottle s' then 1 else 0)%nat /\
  List.length (applied s') = (n + fires evs + timers s')%nat /\
  exists rest, applied s' = applied s ++ rest.
Proof.
  revert s n. induction evs as [|ev evs IH]; intros s n Ht Ha H; cbn [throttle_run] in H.
  - inversion H; subst s'. unfold fires. cbn. split; [exact Ht|]. split; [lia|].
    exists []. rewrite app_nil_r. reflexivity.
  - destruct ev as [args|]; cbn [throttle_step] in H.
    + destruct (inThrottle s) eqn:E; cbn [negb] in H.
      * destruct (IH s n) as [H1 [H2 H3]]; [rewrite E; exact Ht|exact Ha|exact H|].
        split; [exact H1|]. split; [exact H2|exact H3].
      * apply (IH _ n) in H; cbn [inThrottle timers applied].
        -- destruct H as [H1 [H2 [rest H3]]]. split; [exact H1|]. split; [exact H2|].
           exists (args :: rest). rewrite H3. cbn [applied]. rewrite <- app_assoc. reflexivity.
        -- lia.
        -- rewrite length_app. cbn. lia.
    + destruct (timers s) as [|k] eqn:Ek; [discriminate|].
      assert (Hk : k = 0%nat) by (destruct (inThrottle s); lia). subst k.
      apply (IH _ (S n)) in H; cbn [inThrottle timers applied].
      * destruct H as [H1 [H2 H3]]. split; [exact H1|]. split; [|exact H3].
        unfold fires in *. cbn [filter List.length]. lia.
      * reflexivity.
      * lia.
Qed.

(** X15.  The throttled function, over any sequence of calls and timer
    firings starting from a fresh closure: at most one timer is pending and
    one is pending exactly while [inThrottle] is set; [func] has been
    applied exactly once per timer fired, plus once if a timer is pending,
    so never more often than the timers allow; the first call is always
    applied, with its own arguments; and a call made while throttled is
    dropped for good: it changes nothing. *)
Theorem throttle_law (evs : list (ThrottleEvent A)) (s : ThrottleState A) :
  throttle_run throttle_init evs = Some s ->
  timers s = (if inThrottle s then 1 else 0)%nat /\
  List.length (applied s) = (fires evs + timers s)%nat /\
  (List.length (applied s) <= List.length (call_args evs))%nat /\
  (forall a evs', evs = Call a :: evs' -> exists rest, applied s = a :: rest) /\
  (forall a, inThrottle s = true -> throttle_run throttle_init (evs ++ [Call a]) = Some s).
Proof.
  intros H.
  destruct (@throttle_run_inv evs throttle_init s 0 eq_refl eq_refl H) as [H1 [H2 _]].
  split; [exact H1|]. split; [exact H2|]. split; [|split].
  - clear H1 H2.
    assert (G : forall (evs : list (ThrottleEvent A)) (s0 s : ThrottleState A),
              throttle_run s0 evs = Some s ->
              (List.length (applied s) <= List.length (applied s0)
                                         + List.length (call_args evs))%nat).
    { clear. induction evs as [|ev evs IH]; intros s0 s H; cbn [throttle_run] in H.
      - inversion H. cbn. lia.
      - destruct ev as [a|]; cbn [throttle_step] in H.
        + destruct (negb (inThrottle s0)).
          * apply IH in H. cbn [applied call_args flat_map] in *.
            rewrite !length_app in *. cbn [List.length] in *.
            fold (call_args evs) in *. lia.
          * apply IH in H. cbn [call_args flat_map]. rewrite length_app.
            fold (call_args evs). lia.
        + destruct (timers s0); [discriminate|]. apply IH in H.
          cbn [applied call_args flat_map app] in *. fold (call_args evs). exact H. }
    apply G in H. cbn [throttle_init applied List.length Nat.add] in H. exact H.
  - intros a evs' E. subst evs.
    cbn [throttle_run throttle_step throttle_init inThrottle negb timers applied app] in H.
    destruct (@throttle_run_inv evs' {| inThrottle := true; timers := 1; applied := [a] |}
                s 0 eq_refl eq_refl H) as [_ [_ [rest Hr]]].
    exists rest. exact Hr.
  - intros a Hin. clear H1 H2. revert H. generalize (@throttle_init A) as s0.
    induction evs as [|ev evs IH]; intros s0 H; cbn [throttle_run app] in *.
    + inversion H; subst s0. cbn [throttle_step]. rewrite Hin. reflexivity.
    + destruct (throttle_step s0 ev); [|discriminate]. apply IH. exact H.
Qed.
End ThrottleFacts.

Lemma throttle_law_witness :
  exists s, throttle_run throttle_init [Call 1%nat; Call 2%nat; TimerFires; Call 3%nat] = Some s /\
            applied s = [1; 3]%nat /\
            List.length (applied s) = (fires [Call 1%nat; Call 2%nat; TimerFires; Call 3%nat]
                                       + timers s)%nat.
Proof.
  eexists. split; [reflexivity|]. split; [reflexivity|].
  exact (proj1 (proj2 (@throttle_law nat [Call 1%nat; Call 2%nat; TimerFires; Call 3%nat] _ eq_refl))).
Defined.

(** ** The break search minimises the deviation *)

Lemma for_range_snoc {S : Type} (body : nat -> S -> S) (c k : nat) (s : S) :
  for_range k (Datatypes.S c) body s = body (k + c)%nat (for_range k c body s).
Proof.
  revert k s. induction c as [|c IH]; intros k s.
  - cbn [for_range]. rewrite Nat.add_0_r. reflexivity.
  - change (for_range k (Datatypes.S (Datatypes.S c)) body s)
      with (for_range (Datatypes.S k) (Datatypes.S c) body (body k s)).
    rewrite IH. cbn [for_range]. f_equal. lia.
Qed.

(** If [y] is below [m] and [x] is not, then [x] is not below [y]. *)
Lemma nlt_step (x y m : num) :
  (x <? m)%num = false -> (y <? m)%num = true -> (x <? y)%num = false.
Proof.
  destruct x as [a| | |], y as [b| | |], m as [c| | |]; cbn [nlt]; intros H1 H2;
    try reflexivity; try discriminate.
  apply Qltb_false in H1. apply Qltb_true in H2. apply Qltb_false. lra.
Qed.

Section BreakSearch.
Variable ars : list num.
Variables W T g : num.

(** The state of the inner loop when it reaches [j]. *)
Lemma scan_minimal (fuel i j : nat) (best : option nat) (ms : num) (r : option nat) :
  (i <= j)%nat ->
  (forall j', (i <= j' < j)%nat -> row_too_low ars W T g i j' = false) ->
  (forall j', (i <= j' < j)%nat -> (row_score ars W T g i j' <? ms)%num = false) ->
  match best with
  | Some b => (i <= b < j)%nat /\ ms = row_score ars W T g i b
  | None => ms = PInf
  end ->
  scan ars W T g fuel i j
       (for_range i (j - i) (fun k s => s + aspect ars k)%num (of_Z 0)) best ms = r ->
  match r with
  | Some b =>
      (forall j', (i <= j' <= b)%nat -> row_too_low ars W T g i j' = false) /\
      (forall j', (i <= j')%nat ->
         (forall j'', (i <= j'' <= j')%nat -> row_too_low ars W T g i j'' = false) ->
         (j' < j + fuel)%nat -> (j' < List.length ars)%nat ->
         (row_score ars W T g i j' <? row_score ars W T g i b)%num = false)
  | None => best = None
  end.
Proof.
  revert j best ms. induction fuel as [|fuel IH]; intros j best ms Hij Hlow Hmin Hbest H;
    cbn [scan] in H.
  - subst r. destruct best as [b|]; [|reflexivity]. destruct Hbest as [Hb Hms]. subst ms.
    split; [intros j' Hj'; apply Hlow; lia|].
    intros j' Hj' _ Hlt _. apply Hmin. lia.
  - destruct (j <? List.length ars)%nat eqn:Ej.
    2:{ subst r. apply Nat.ltb_ge in Ej. destruct best as [b|]; [|reflexivity].
        destruct Hbest as [Hb Hms]. subst ms.
        split; [intros j' Hj'; apply Hlow; lia|].
        intros j' Hj' _ _ Hn. apply Hmin. lia. }
    assert (Hca : (for_range i (j - i) (fun k s => s + aspect ars k) (of_Z 0) + aspect ars j)%num
                  = for_range i (j + 1 - i) (fun k s => s + aspect ars k)%num (of_Z 0)).
    { replace (j + 1 - i)%nat with (Datatypes.S (j - i)) by lia.
      rewrite for_range_snoc. replace (i + (j - i))%nat with j by lia. reflexivity. }
    rewrite Hca in H.
    change ((W - (of_nat (j - i + 1) - of_Z 1) * g)
            / for_range i (j + 1 - i) (fun k s => s + aspect ars k) (of_Z 0))%num
      with (row_height ars W g i j) in H.
    change (row_height ars W g i j <? T * Fin (1 # 2))%num
      with (row_too_low ars W T g i j) in H.
    change (Math_abs (row_height ars W g i j - T)) with (row_score ars W T g i j) in H.
    destruct (row_too_low ars W T g i j) eqn:Elow.
    + subst r. destruct best as [b|]; [|reflexivity]. destruct Hbest as [Hb Hms]. subst ms.
      split; [intros j' Hj'; apply Hlow; lia|].
      intros j' Hj' Hall _ _. destruct (Nat.lt_ge_cases j' j) as [Hlt|Hge]; [apply Hmin; lia|].
      rewrite (Hall j ltac:(lia)) in Elow. discriminate Elow.
    + assert (Hlow' : forall j', (i <= j' < j + 1)%nat -> row_too_low ars W T g i j' = false).
      { intros j' Hj'. destruct (Nat.eq_dec j' j); [subst; exact Elow|apply Hlow; lia]. }
      rewrite <- Hca in H.
      replace (for_range i (j - i) (fun k s => s + aspect ars k) (of_Z 0) + aspect ars j)%num
        with (for_range i (j + 1 - i) (fun k s => s + aspect ars k)%num (of_Z 0)) in H.
      destruct (row_score ars W T g i j <? ms)%num eqn:Esc.
      * apply IH in H; [|lia|exact Hlow'| |split; [lia|reflexivity]].
        -- destruct r as [b|]; [|discriminate H]. destruct H as [H1 H2].
           split; [exact H1|]. intros j' Hj' Hall Hlt Hn. apply H2; try assumption. lia.
        -- intros j' Hj'. destruct (Nat.eq_dec j' j) as [E|E].
           ++ subst j'. destruct (row_score ars W T g i j) as [q| | |]; cbn [nlt];
                try reflexivity; try discriminate Esc.
              apply Qltb_false. lra.
           ++ eapply nlt_step; [apply Hmin; lia|exact Esc].
      * apply IH in H; [|lia|exact Hlow'| |].
        -- destruct r as [b|].
           ++ destruct H as [H1 H2]. split; [exact H1|].
              intros j' Hj' Hall Hlt Hn. apply H2; try assumption. lia.
           ++ exact H.
        -- intros j' Hj'. destruct (Nat.eq_dec j' j) as [E|E]; [subst; exact Esc|apply Hmin; lia].
        -- destruct best as [b|]; [|exact Hbest]. destruct Hbest as [Hb Hms]. split; [lia|exact Hms].
Qed.
End BreakSearch.

(** Once a break has been recorded the search returns one. *)
Lemma scan_keeps_break (ars : list num) (W T g : num) (fuel i j : nat) (ca : num)
      (b : nat) (ms : num) :
  scan ars W T g fuel i j ca (Some b) ms <> None.
Proof.
  revert j ca b ms. induction fuel as [|fuel IH]; intros j ca b ms; cbn [scan]; [discriminate|].
  destruct (j <? List.length ars)%nat; [|discriminate].
  match goal with |- (if ?c then _ else _) <> _ => destruct c end; [discriminate|].
  match goal with |- (if ?c then _ else _) <> _ => destruct c end; apply IH.
Qed.

(** X16. The break search started at [i] returns the best candidate it has
    looked at.  If it returns [b], then [b] lies in [i .. n-1], no row
    [i..j] with [j <= b] was lower than half the target height, and no
    candidate [j] the loop reaches (every row [i..k], [k <= j], at least half
    the target height) deviates strictly less from the target height than
    [b] does.  If it returns nothing (the single-item fallback), then the
    item alone is already lower than half the target height or its
    deviation is not below Infinity; and an item that alone is lower than
    half the target height always gives the fallback. *)
Theorem findBreak_minimises (ars : list num) (W T g : num) (i : nat) :
  (i < List.length ars)%nat ->
  match findBreak ars W T g i with
  | Some b =>
      (i <= b < List.length ars)%nat /\
      (forall j, (i <= j <= b)%nat -> row_too_low ars W T g i j = false) /\
      (forall j, (i <= j < List.length ars)%nat ->
         (forall k, (i <= k <= j)%nat -> row_too_low ars W T g i k = false) ->
         (row_score ars W T g i j <? row_score ars W T g i b)%num = false)
  | None =>
      row_too_low ars W T g i i = true \/
      (row_score ars W T g i i <? PInf)%num = false
  end /\
  (row_too_low ars W T g i i = true -> findBreak ars W T g i = None).
Proof.
  intros Hi.
  assert (Hscan : scan ars W T g (List.length ars - i) i i
             (for_range i (i - i) (fun k s => s + aspect ars k)%num (of_Z 0)) None PInf
           = findBreak ars W T g i).
  { rewrite Nat.sub_diag. reflexivity. }
  assert (Hfirst : findBreak ars W T g i =
            if row_too_low ars W T g i i then None
            else if (row_score ars W T g i i <? PInf)%num
                 then scan ars W T g (List.length ars - i - 1) i (i + 1)
                        (of_Z 0 + aspect ars i)%num (Some i) (row_score ars W T g i i)
                 else scan ars W T g (List.length ars - i - 1) i (i + 1)
                        (of_Z 0 + aspect ars i)%num None PInf).
  { unfold findBreak. remember (List.length ars - i - 1)%nat as f eqn:Ef.
    assert (Ef' : (List.length ars - i)%nat = Datatypes.S f) by lia. rewrite Ef'.
    cbn [scan]. apply Nat.ltb_lt in Hi. rewrite Hi.
    unfold row_too_low, row_score, row_height.
    replace (i + 1 - i)%nat with 1%nat by lia. cbn [for_range]. reflexivity. }
  split.
  - destruct (findBreak ars W T g i) as [b|] eqn:Eb.
    + split; [exact (findBreak_bounds _ _ _ _ _ Eb)|].
      apply scan_minimal in Hscan; [| lia | intros; lia | intros; lia | reflexivity].
      destruct Hscan as [H1 H2]. split; [exact H1|].
      intros j Hj Hall. apply H2; try assumption; lia.
    + destruct (row_too_low ars W T g i i) eqn:Elow; [left; reflexivity|].
      destruct (row_score ars W T g i i <? PInf)%num eqn:Esc; [|right; reflexivity].
      symmetry in Hfirst. apply scan_keeps_break in Hfirst. destruct Hfirst.
  - intros Hlow. rewrite Hfirst, Hlow. reflexivity.
Qed.

Lemma findBreak_minimises_witness :
  (0 < List.length (map Fin [3 # 2; 1; 2]%Q))%nat /\
  findBreak (map Fin [3 # 2; 1; 2]%Q) (Fin 900) (of_Z 300) (Fin 10) 0 = Some 1%nat /\
  (row_score (map Fin [3 # 2; 1; 2]%Q) (Fin 900) (of_Z 300) (Fin 10) 0 2
     <? row_score (map Fin [3 # 2; 1; 2]%Q) (Fin 900) (of_Z 300) (Fin 10) 0 1)%num = false.
Proof.
  assert (Hn : (0 < List.length (map Fin [3 # 2; 1; 2]%Q))%nat) by (cbn; lia).
  pose proof (@findBreak_minimises (map Fin [3 # 2; 1; 2]%Q) (Fin 900) (of_Z 300) (Fin 10) 0 Hn) as [H _].
  split; [exact Hn|]. split; [vm_compute; reflexivity|].
  change (findBreak (map Fin [3 # 2; 1; 2]%Q) (Fin 900) (of_Z 300) (Fin 10) 0)
    with (Some 1%nat) in H.
  destruct H as (_ & _ & H). apply H.
  - cbn [List.length map]. lia.
  - intros k Hk. assert (Hk' : k = 0%nat \/ k = 1%nat \/ k = 2%nat) by lia.
    destruct Hk' as [->|[->| ->]]; vm_compute; reflexivity.
Defined.
